(** * Highcharts data layer: the table modifier pipeline

    A shallow embedding of the modifiers under [ts/Data/Modifiers]
    (Chain, Invert, Sort, Range, Group and their JSON conversion) together
    with the properties stated for them.

    JavaScript values are embedded as follows.  A table cell is a value of
    [CellType]; numbers are the integers [Z] and the number NaN (the
    modifiers only compare and copy numbers, they never compute with
    them), strings are [string],
    arrays are lists, and an object used as a dictionary is an association
    list kept in the order in which JavaScript enumerates its own keys. *)

From Stdlib Require Import List String Ascii ZArith NArith Arith Bool Lia.
From Stdlib Require Import Permutation Sorted.
From Stdlib Require Decimal DecimalString DecimalN DecimalFacts.
From Stdlib Require OrderedTypeEx.
Import ListNotations.

Open Scope string_scope.
Open Scope list_scope.
Open Scope nat_scope.

Set Warnings "-register-all".

(* ------------------------------------------------------------------ *)
(** ** Cells and the JavaScript operations applied to them *)

(** Modelled from the spec: [DataTable.CellType], declared in DataTable.ts.
    A cell is a boolean, a number, a string, undefined or a nested table (a
    table being its column collection).  The number NaN, which differs
    from every number, itself included, has a constructor of its own. *)
Inductive CellType : Type :=
| CUndefined
| CBoolean (b : bool)
| CNumber (n : Z)
| CNaN
| CString (s : string)
| CTable (columns : list (string * list CellType)).

Inductive JSType : Type :=
| TUndefined | TBoolean | TNumber | TString | TObject.

Definition JSType_eqb (a b : JSType) : bool :=
  match a, b with
  | TUndefined, TUndefined | TBoolean, TBoolean | TNumber, TNumber
  | TString, TString | TObject, TObject => true
  | _, _ => false
  end.

(** [typeof cell] *)
Definition typeof (cell : CellType) : JSType :=
  match cell with
  | CUndefined => TUndefined
  | CBoolean _ => TBoolean
  | CNumber _ | CNaN => TNumber
  | CString _ => TString
  | CTable _ => TObject
  end.

(** Truthiness, as used by [a || 0] and [if (x)]. *)
Definition truthy (cell : CellType) : bool :=
  match cell with
  | CUndefined => false
  | CBoolean b => b
  | CNumber n => negb (n =? 0)%Z
  | CNaN => false
  | CString s => negb (s =? "")%string
  | CTable _ => true
  end.

(** The template literal [`${cell}`]. *)
Definition ToString (cell : CellType) : string :=
  match cell with
  | CUndefined => "undefined"
  | CBoolean true => "true"
  | CBoolean false => "false"
  | CNumber n => DecimalString.NilZero.string_of_int (Z.to_int n)
  | CNaN => "NaN"
  | CString s => s
  | CTable _ => "[object Object]"
  end.

(** [`${i}`] for a loop counter. *)
Definition ToString_index (i : nat) : string :=
  DecimalString.NilEmpty.string_of_uint (N.to_uint (N.of_nat i)).

(** A property key is an array index when it is the canonical decimal form
    of an integer below [2^32 - 1]; such keys are enumerated first, in
    ascending numeric order. *)
Definition array_index (k : string) : option N :=
  match DecimalString.NilEmpty.uint_of_string k with
  | Some d =>
      if Decimal.uint_eq_dec (Decimal.unorm d) d then
        if (N.of_uint d <? 4294967295)%N then Some (N.of_uint d) else None
      else None
  | None => None
  end.

(* ------------------------------------------------------------------ *)
(** ** Objects used as dictionaries *)

Section Objects.
Context {V : Type}.

(** Own enumerable properties, in [Object.keys] order. *)
Definition Obj : Type := list (string * V).

Definition obj_keys (o : Obj) : list string := map fst o.

Fixpoint obj_get (k : string) (o : Obj) : option V :=
  match o with
  | [] => None
  | (k', v) :: o' => if (k' =? k)%string then Some v else obj_get k o'
  end.

Definition obj_has (k : string) (o : Obj) : bool :=
  match obj_get k o with Some _ => true | None => false end.

Fixpoint obj_replace (k : string) (v : V) (o : Obj) : Obj :=
  match o with
  | [] => []
  | (k', v') :: o' =>
      if (k' =? k)%string then (k', v) :: o' else (k', v') :: obj_replace k v o'
  end.

(** A new array-index key [k] of value [n] goes after the smaller
    array-index keys and before everything else. *)
Fixpoint obj_insert_index (n : N) (k : string) (v : V) (o : Obj) : Obj :=
  match o with
  | [] => [(k, v)]
  | (k', v') :: o' =>
      match array_index k' with
      | Some n' =>
          if (n' <? n)%N then (k', v') :: obj_insert_index n k v o'
          else (k, v) :: o
      | None => (k, v) :: o
      end
  end.

(** [o[k] = v] *)
Definition obj_set (k : string) (v : V) (o : Obj) : Obj :=
  if obj_has k o then obj_replace k v o
  else match array_index k with
       | Some n => obj_insert_index n k v o
       | None => o ++ [(k, v)]
       end.

(** [delete o[k]] *)
Fixpoint obj_delete (k : string) (o : Obj) : Obj :=
  match o with
  | [] => []
  | (k', v) :: o' => if (k' =? k)%string then o' else (k', v) :: obj_delete k o'
  end.

(** The object literal / the object filled key by key from [{}]. *)
Definition obj_of_entries (entries : list (string * V)) : Obj :=
  fold_left (fun o kv => obj_set (fst kv) (snd kv) o) entries [].

(** Every array-index key is preceded only by smaller array-index keys:
    the order in which a JavaScript object holds its keys. *)
Fixpoint js_ordered (ks : list string) : Prop :=
  match ks with
  | [] => True
  | k :: ks' =>
      ~ In k ks' /\
      (forall k' n', In k' ks' -> array_index k' = Some n' ->
                     exists n, array_index k = Some n /\ (n < n')%N) /\
      js_ordered ks'
  end.
End Objects.

Arguments Obj : clear implicits.

(* ------------------------------------------------------------------ *)
(** ** Arrays of cells *)

(** [array[i]], undefined out of range. *)
Definition array_get (i : nat) (a : list CellType) : CellType :=
  nth i a CUndefined.

(** [array[i] = v]; writing past the end extends the array, the skipped
    positions read as undefined. *)
Fixpoint array_set (i : nat) (v : CellType) (a : list CellType)
  : list CellType :=
  match i, a with
  | O, [] => [v]
  | O, _ :: a' => v :: a'
  | S i', [] => CUndefined :: array_set i' v []
  | S i', x :: a' => x :: array_set i' v a'
  end.

(** [array.indexOf(x)]: index of the first element equal to [x] under the
    given equality, [-1] when there is none. *)
Section IndexOf.
Context {A B : Type} (eqb : A -> B -> bool).

Fixpoint indexOf_from (x : B) (a : list A) (i : Z) : Z :=
  match a with
  | [] => (-1)%Z
  | y :: a' => if eqb y x then i else indexOf_from x a' (i + 1)%Z
  end.

Definition indexOf (x : B) (a : list A) : Z := indexOf_from x a 0%Z.
End IndexOf.

(* ------------------------------------------------------------------ *)
(** ** The table store *)

(** The table store, DataTable.ts, is not among the sources at hand; the
    modifiers use it through the operations below, which are modelled from
    the table contract of the specification. *)
Module DataTable.

(** Modelled from the spec: [DataTable.Column], an ordered sequence of
    cells. *)
Definition Column : Type := list CellType.

(** Modelled from the spec: [DataTable.Row], the cells of one row in column
    order. *)
Definition Row : Type := list CellType.

(** Modelled from the spec: [DataTable.RowObject], the cells of one row
    keyed by column name. *)
Definition RowObject : Type := Obj CellType.

(** Modelled from the spec: [DataTable.ColumnCollection], columns keyed by
    name. *)
Definition ColumnCollection : Type := Obj Column.

(** Modelled from the spec: the table, a mapping from column name to an
    ordered sequence of cells; rows are the cross-section at an index and
    the row count is the common length of the columns. *)
Definition t : Type := ColumnCollection.

(** Modelled from the spec: [new DataTable()], a table without columns. *)
Definition new : t := [].

(** Modelled from the spec: [getColumnNames()]. *)
Definition getColumnNames (table : t) : list string := obj_keys table.

(** Modelled from the spec: [getColumns()], all columns by name. *)
Definition getColumns (table : t) : ColumnCollection := table.

(** Modelled from the spec: [getColumn(name)], undefined when the table
    has no such column. *)
Definition getColumn (columnName : string) (table : t) : option Column :=
  obj_get columnName table.

(** Modelled from the spec: [hasColumns(names)], whether the table has all
    the named columns. *)
Definition hasColumns (columnNames : list string) (table : t) : bool :=
  forallb (fun name => obj_has name table) columnNames.

(** Modelled from the spec: [getRowCount()], the length of the columns
    (a table without columns has no rows). *)
Definition getRowCount (table : t) : nat :=
  list_max (map (fun c => List.length (snd c)) table).

(** Modelled from the spec: the cross-section of the columns at an
    index. *)
Definition row_at (rowIndex : nat) (table : t) : Row :=
  map (fun c => array_get rowIndex (snd c)) table.

(** Modelled from the spec: [getRow(i)], the cells of row [i] in column
    order, undefined when there is no such row. *)
Definition getRow (rowIndex : nat) (table : t) : option Row :=
  if rowIndex <? getRowCount table then Some (row_at rowIndex table)
  else None.

(** Modelled from the spec: [getRows()], all rows in order. *)
Definition getRows (table : t) : list Row :=
  map (fun i => row_at i table) (seq 0 (getRowCount table)).

(** Modelled from the spec: [getRowObject(i)], row [i] keyed by column
    name, undefined when there is no such row. *)
Definition getRowObject (rowIndex : nat) (table : t) : option RowObject :=
  if rowIndex <? getRowCount table
  then Some (map (fun c => (fst c, array_get rowIndex (snd c))) table)
  else None.

(** Modelled from the spec: [deleteColumns(names?)] removes the named
    columns (all columns when no names are given) and returns the removed
    ones. *)
Definition deleteColumns (columnNames : option (list string)) (table : t)
  : t * option ColumnCollection :=
  let names := match columnNames with
               | Some names => names
               | None => getColumnNames table
               end in
  match names with
  | [] => (table, None)
  | _ =>
      (fold_left (fun tb name => obj_delete name tb) names table,
       Some (fold_left
               (fun deleted name =>
                  match obj_get name table with
                  | Some column => obj_set name column deleted
                  | None => deleted
                  end) names []))
  end.

(** Modelled from the spec: [setColumns(collection)] installs every
    column of the collection under its name. *)
Definition setColumns (columns : ColumnCollection) (table : t) : t :=
  fold_left (fun tb c => obj_set (fst c) (snd c) tb) columns table.

(** Modelled from the spec: [deleteRows()] removes all rows; the columns
    stay. *)
Definition deleteRows (table : t) : t :=
  map (fun c => (fst c, [])) table.

(** Modelled from the spec: a row handed to [setRows] is an array of cells
    in column order or an object keyed by column name. *)
Inductive RowLike : Type :=
| RowArray (row : Row)
| RowObj (row : RowObject).

(** Modelled from the spec: writing an array row puts its [j]-th cell
    into the [j]-th column. *)
Fixpoint setRowArray (rowIndex : nat) (row : Row) (table : t) : t :=
  match table with
  | [] => []
  | (name, column) :: rest =>
      (name, array_set rowIndex (hd CUndefined row) column)
        :: setRowArray rowIndex (tl row) rest
  end.

(** Modelled from the spec: writing an object row puts each cell into the
    column of its key, creating the column when the table lacks it. *)
Definition setRowObject (rowIndex : nat) (row : RowObject) (table : t) : t :=
  fold_left
    (fun tb kv =>
       obj_set (fst kv)
         (array_set rowIndex (snd kv)
            (match obj_get (fst kv) tb with
             | Some column => column
             | None => []
             end)) tb)
    row table.

(** Modelled from the spec: writing one row at an index. *)
Definition setRow (rowIndex : nat) (row : RowLike) (table : t) : t :=
  match row with
  | RowArray r => setRowArray rowIndex r table
  | RowObj r => setRowObject rowIndex r table
  end.

(** Modelled from the spec: writing rows at consecutive indices. *)
Fixpoint setRows_from (rowIndex : nat) (rows : list RowLike) (table : t)
  : t :=
  match rows with
  | [] => table
  | row :: rows' => setRows_from (S rowIndex) rows' (setRow rowIndex row table)
  end.

(** Modelled from the spec: [setRows(rows, startIndex?)] writes the rows
    from [startIndex] on, appending after the last row when no index is
    given. *)
Definition setRows (rows : list RowLike) (rowIndex : option nat) (table : t)
  : t :=
  setRows_from
    (match rowIndex with Some i => i | None => getRowCount table end)
    rows table.

(** Modelled from the spec: [setCell(rowIndex, columnName, value)] writes
    one cell, creating the column when the table does not have it. *)
Definition setCell (rowIndex : nat) (columnName : string) (value : CellType)
    (table : t) : t :=
  obj_set columnName
    (array_set rowIndex value
       (match obj_get columnName table with
        | Some column => column
        | None => []
        end)) table.

(** Modelled from the spec: the invariant of a table between modifier
    calls, all columns have the same length, the row count. *)
Definition uniform (table : t) : Prop :=
  Forall (fun c => List.length (snd c) = getRowCount table) table.

(** A well-formed table: uniform, with its column names held in object key
    order. *)
Definition wf (table : t) : Prop :=
  js_ordered (getColumnNames table) /\ uniform table.

End DataTable.

(* ------------------------------------------------------------------ *)
(** ** Events *)

(** Modelled from the spec: the record that a modifier passes to [emit]
    (DataEventEmitter is not among the sources at hand).  Events fire
    inline; a modifier is modelled as returning the events it emits, in
    order, and the table of an event is recorded with the contents it has
    when the event fires. *)
Record Event : Type := mkEvent {
  ev_type : string;
  ev_table : option DataTable.t
}.

(* ------------------------------------------------------------------ *)
(** ** InvertModifier *)

Module InvertModifier.

(** [InvertModifier.modify] *)
Definition modify (table : DataTable.t) : DataTable.t * list Event :=
  let e1 := mkEvent "modify" (Some table) in
  let table' :=
    if DataTable.hasColumns ["columnNames"] table then
      let '(table1, deleted) :=
        DataTable.deleteColumns (Some ["columnNames"]) table in
      let columnNames : list string :=
        map ToString
          (match deleted with
           | Some d => match obj_get "columnNames" d with
                       | Some column => column
                       | None => []
                       end
           | None => []
           end) in
      let columns : DataTable.ColumnCollection :=
        fold_left
          (fun columns i =>
             match DataTable.getRow i table1 with
             | Some row => obj_set (nth i columnNames "undefined") row columns
             | None => columns
             end)
          (seq 0 (DataTable.getRowCount table1)) [] in
      let table2 := fst (DataTable.deleteColumns None table1) in
      DataTable.setColumns columns table2
    else
      let columns : DataTable.ColumnCollection :=
        fold_left
          (fun columns i =>
             match DataTable.getRow i table with
             | Some row => obj_set (ToString_index i) row columns
             | None => columns
             end)
          (seq 0 (DataTable.getRowCount table)) [] in
      let columns :=
        obj_set "columnNames"
          (map CString (DataTable.getColumnNames table)) columns in
      let table1 := fst (DataTable.deleteColumns None table) in
      DataTable.setColumns columns table1
  in
  (table', [e1; mkEvent "afterModify" (Some table')]).

End InvertModifier.

(* ------------------------------------------------------------------ *)
(** ** Relational operators *)

Section Relational.

(** The numeric value of a string ([None] for NaN).  The conversion is
    left open: everything below holds for whichever conversion the
    engine applies. *)
Variable StringToNumber : string -> option Z.

Definition ToPrimitive (x : CellType) : CellType :=
  match x with
  | CTable _ => CString "[object Object]"
  | _ => x
  end.

Definition ToNumber (x : CellType) : option Z :=
  match ToPrimitive x with
  | CUndefined => None
  | CBoolean b => Some (if b then 1 else 0)%Z
  | CNumber n => Some n
  | CNaN => None
  | CString s => StringToNumber s
  | CTable _ => None
  end.

(** The abstract relational comparison [x < y]: true, false, or
    undefined ([None]) when an operand is NaN.  Two strings are compared
    as strings, everything else numerically. *)
Definition js_compare (x y : CellType) : option bool :=
  match ToPrimitive x, ToPrimitive y with
  | CString sx, CString sy => Some (String.ltb sx sy)
  | px, py =>
      match ToNumber px, ToNumber py with
      | Some nx, Some ny => Some (nx <? ny)%Z
      | _, _ => None
      end
  end.

(** [x < y], [x > y], [x <= y], [x >= y] *)
Definition js_lt (x y : CellType) : bool :=
  match js_compare x y with Some true => true | _ => false end.
Definition js_gt (x y : CellType) : bool :=
  match js_compare y x with Some true => true | _ => false end.
Definition js_le (x y : CellType) : bool :=
  match js_compare y x with Some false => true | _ => false end.
Definition js_ge (x y : CellType) : bool :=
  match js_compare x y with Some false => true | _ => false end.

End Relational.

(** [Array.prototype.sort(comparefn)], a stable sort: an element moves
    behind a later one only when the comparator puts it after.  The
    language fixes the result of the sort for a consistent comparator
    only (the contract is stated next); there every sort that meets the
    contract returns what this insertion sort returns.  For any other
    comparator the order is left to the engine, and this sort is one of
    the orders that an engine may produce. *)
Section ArraySort.
Context {A : Type} (comparefn : A -> A -> Z).

Fixpoint sort_insert (x : A) (sorted : list A) : list A :=
  match sorted with
  | [] => [x]
  | y :: sorted' =>
      if (0 <? comparefn x y)%Z then y :: sort_insert x sorted'
      else x :: sorted
  end.

Definition Array_sort (a : list A) : list A :=
  fold_right sort_insert [] a.
End ArraySort.

(** The contract of [Array.prototype.sort] in the language
    specification. *)
Section SortContract.
Context {A : Type} (comparefn : A -> A -> Z).

(** [comparefn] is a consistent comparator for the elements of [l]:
    each compares equal to itself, comparing equal is symmetric and
    transitive, an element is below another exactly when the other is
    above it, and being below and being above are transitive. *)
Definition consistent (l : list A) : Prop :=
  (forall a, In a l -> comparefn a a = 0%Z)
  /\ (forall a b, In a l -> In b l ->
        comparefn a b = 0%Z -> comparefn b a = 0%Z)
  /\ (forall a b, In a l -> In b l ->
        ((comparefn a b < 0)%Z <-> (0 < comparefn b a)%Z))
  /\ (forall a b c, In a l -> In b l -> In c l ->
        comparefn a b = 0%Z -> comparefn b c = 0%Z -> comparefn a c = 0%Z)
  /\ (forall a b c, In a l -> In b l -> In c l ->
        (comparefn a b < 0)%Z -> (comparefn b c < 0)%Z ->
        (comparefn a c < 0)%Z)
  /\ (forall a b c, In a l -> In b l -> In c l ->
        (0 < comparefn a b)%Z -> (0 < comparefn b c)%Z ->
        (0 < comparefn a c)%Z).

(** [result] holds the elements of [l], taken from the positions
    [positions] in turn: no element is followed by one that compares
    below it, and of two elements that compare equal the one from the
    lower position comes first. *)
Definition sorted_stably (l result : list A) : Prop :=
  exists positions : list nat,
    Permutation positions (seq 0 (List.length l))
    /\ map (nth_error l) positions = map Some result
    /\ ForallOrdPairs
         (fun p q =>
            forall a b, nth_error l p = Some a -> nth_error l q = Some b ->
              ~ (comparefn b a < 0)%Z /\ (comparefn a b = 0%Z -> p < q))
         positions.
End SortContract.

(** A sort function that meets the contract: it rearranges the array,
    and with a consistent comparator it sorts the array stably. *)
Definition conforming
    (sort : forall A : Type, (A -> A -> Z) -> list A -> list A) : Prop :=
  forall (A : Type) (comparefn : A -> A -> Z) (l : list A),
    Permutation (sort A comparefn l) l
    /\ (consistent comparefn l ->
        sorted_stably comparefn l (sort A comparefn l)).

(* ------------------------------------------------------------------ *)
(** ** SortModifier *)

Module SortModifier.

Inductive Direction : Type := asc | desc.

Record Options : Type := mkOptions {
  modifier : string;
  direction : Direction;
  orderByColumn : string;
  orderInColumn : option string
}.

Definition defaultOptions : Options :=
  mkOptions "Order" desc "y" None.

Record RowReference : Type := mkRowReference {
  index : nat;
  row : DataTable.Row
}.

(** [a || 0] *)
Definition or0 (a : CellType) : CellType :=
  if truthy a then a else CNumber 0.

Section Compare.
Variable StringToNumber : string -> option Z.

(** [SortModifier.ascending] *)
Definition ascending (a b : CellType) : Z :=
  if js_lt StringToNumber (or0 a) (or0 b) then (-1)%Z
  else if js_gt StringToNumber (or0 a) (or0 b) then 1%Z
  else 0%Z.

(** [SortModifier.descending] *)
Definition descending (a b : CellType) : Z :=
  if js_lt StringToNumber (or0 b) (or0 a) then (-1)%Z
  else if js_gt StringToNumber (or0 b) (or0 a) then 1%Z
  else 0%Z.

Definition compare_of (d : Direction) : CellType -> CellType -> Z :=
  match d with
  | asc => ascending
  | desc => descending
  end.

(** The row references in the order in which [modify] uses them. *)
Definition sortedReferences (options : Options) (table : DataTable.t)
  : list RowReference :=
  let compare := compare_of (direction options) in
  let columnNames := DataTable.getColumnNames table in
  let orderByColumnIndex :=
    indexOf String.eqb (orderByColumn options) columnNames in
  let rowReferences :=
    map (fun ir => mkRowReference (fst ir) (snd ir))
      (combine (seq 0 (DataTable.getRowCount table))
               (DataTable.getRows table)) in
  if (orderByColumnIndex =? -1)%Z then rowReferences
  else
    Array_sort
      (fun a b =>
         compare (array_get (Z.to_nat orderByColumnIndex) (row a))
                 (array_get (Z.to_nat orderByColumnIndex) (row b)))
      rowReferences.

(** [if (orderInColumn)]: the option is set to a non-empty name. *)
Definition orderIn (options : Options) : option string :=
  match orderInColumn options with
  | Some name => if truthy (CString name) then Some name else None
  | None => None
  end.

(** [SortModifier.modify] *)
Definition modify (options : Options) (table : DataTable.t)
  : DataTable.t * list Event :=
  let e1 := mkEvent "execute" (Some table) in
  let rowReferences := sortedReferences options table in
  let rowsLength := List.length rowReferences in
  let nthRef i := nth i rowReferences (mkRowReference 0 []) in
  let table' :=
    match orderIn options with
    | Some name =>
        fold_left
          (fun tb i =>
             DataTable.setCell (index (nthRef i)) name
               (CNumber (Z.of_nat i)) tb)
          (seq 0 rowsLength) table
    | None =>
        fold_left
          (fun tb i =>
             DataTable.setRows [DataTable.RowArray (row (nthRef i))]
               (Some i) tb)
          (seq 0 rowsLength) table
    end in
  (table', [e1; mkEvent "afterExecute" (Some table')]).
End Compare.

End SortModifier.

(* ------------------------------------------------------------------ *)
(** ** RangeModifier *)

Module RangeModifier.

(** [RangeModifier.RangeOptions]; the bounds are booleans, numbers or
    strings. *)
Record RangeOptions : Type := mkRange {
  column : string;
  maxValue : CellType;
  minValue : CellType
}.

Record Options : Type := mkOptions {
  modifier : string;
  strict : bool;
  ranges : list RangeOptions
}.

Definition defaultOptions : Options := mkOptions "Range" false [].

Section Modify.
Variable StringToNumber : string -> option Z.

(** The body of the inner loop: the rows collected so far, extended by
    row [j] when its cell passes [range]. *)
Definition scanCell (strict : bool) (range : RangeOptions)
    (table : DataTable.t) (rangeColumn : DataTable.Column)
    (rows : list DataTable.Row) (j : nat) : list DataTable.Row :=
  let cell := array_get j rangeColumn in
  match typeof cell with
  | TBoolean | TNumber | TString =>
      if strict && negb (JSType_eqb (typeof cell) (typeof (minValue range)))
      then rows
      else if js_ge StringToNumber cell (minValue range)
              && js_le StringToNumber cell (maxValue range)
      then match DataTable.getRow j table with
           | Some row => rows ++ [row]
           | None => rows
           end
      else rows
  | _ => rows
  end.

(** The body of the outer loop. *)
Definition scanRange (strict : bool) (table : DataTable.t)
    (columns : DataTable.ColumnCollection)
    (rows : list DataTable.Row) (range : RangeOptions)
  : list DataTable.Row :=
  if strict
     && negb (JSType_eqb (typeof (minValue range)) (typeof (maxValue range)))
  then rows
  else
    let rangeColumn :=
      match obj_get (column range) columns with
      | Some c => c
      | None => []
      end in
    fold_left (scanCell strict range table rangeColumn)
      (seq 0 (List.length rangeColumn)) rows.

(** [RangeModifier.modify] *)
Definition modify (options : Options) (table : DataTable.t)
  : DataTable.t * list Event :=
  let e1 := mkEvent "execute" (Some table) in
  let table' :=
    match ranges options with
    | [] => table
    | _ =>
        let columns := DataTable.getColumns table in
        let rows :=
          fold_left (scanRange (strict options) table columns)
            (ranges options) [] in
        DataTable.setRows (map DataTable.RowArray rows) None
          (DataTable.deleteRows table)
    end in
  (table', [e1; mkEvent "afterExecute" (Some table')]).
End Modify.

End RangeModifier.

(* ------------------------------------------------------------------ *)
(** ** GroupModifier *)

(** [DataJSON.JSONPrimitive]: boolean, number, string or null ([None]). *)
Inductive Primitive : Type :=
| PBoolean (b : bool)
| PNumber (n : Z)
| PNaN
| PString (s : string).

Definition JSONPrimitive : Type := option Primitive.

(** [x === y] on cells.  NaN equals nothing, not even NaN.  Two tables
    are equal when they are the same object, which no cell of a column
    and a freshly built list entry are. *)
Definition strict_equals (x y : CellType) : bool :=
  match x, y with
  | CUndefined, CUndefined => true
  | CBoolean a, CBoolean b => Bool.eqb a b
  | CNumber a, CNumber b => (a =? b)%Z
  | CString a, CString b => (a =? b)%string
  | _, _ => false
  end.

Definition cell_of_primitive (p : Primitive) : CellType :=
  match p with
  | PBoolean b => CBoolean b
  | PNumber n => CNumber n
  | PNaN => CNaN
  | PString s => CString s
  end.

(** [p === cell] for an entry of a value list. *)
Definition json_equals (p : JSONPrimitive) (cell : CellType) : bool :=
  match p with
  | Some q => strict_equals (cell_of_primitive q) cell
  | None => false
  end.

Fixpoint list_update {A : Type} (i : nat) (f : A -> A) (l : list A) : list A :=
  match l, i with
  | [], _ => []
  | x :: l', O => f x :: l'
  | x :: l', S i' => x :: list_update i' f l'
  end.

Module GroupModifier.

Record Options : Type := mkOptions {
  modifier : string;
  groupColumn : string;
  invalidValues : option (list JSONPrimitive);
  validValues : option (list JSONPrimitive)
}.

Definition defaultOptions : Options := mkOptions "Group" "" None None.

(** The three arrays filled by the loop. *)
Record Groups : Type := mkGroups {
  byGroups : list CellType;
  tableGroups : list DataTable.t;
  valueGroups : list CellType
}.

(** The [continue] condition for a defined value. *)
Definition skipped (options : Options) (value : CellType) : bool :=
  match value with
  | CTable _ => true
  | _ =>
      match invalidValues options with
      | Some invalid =>
          (0 <=? indexOf json_equals value invalid)%Z
      | None => false
      end
      || match validValues options with
         | Some valid =>
             (indexOf json_equals value valid =? -1)%Z
         | None => false
         end
  end.

(** One round of the loop, for row [i]. *)
Definition step (options : Options) (table : DataTable.t)
    (groupColumn : CellType) (valueColumn : DataTable.Column)
    (g : Groups) (i : nat) : Groups :=
  let value := array_get i valueColumn in
  match typeof value with
  | TUndefined => g
  | _ =>
      if skipped options value then g
      else
        let valueIndex := indexOf strict_equals value (valueGroups g) in
        if (valueIndex =? -1)%Z then
          let newTable :=
            DataTable.setRows
              [DataTable.RowObj
                 (match DataTable.getRowObject i table with
                  | Some r => r
                  | None => []
                  end)] None DataTable.new in
          mkGroups (byGroups g ++ [groupColumn])
                   (tableGroups g ++ [newTable])
                   (valueGroups g ++ [value])
        else
          mkGroups (byGroups g)
                   (list_update (Z.to_nat valueIndex)
                      (DataTable.setRows
                         [DataTable.RowArray
                            (match DataTable.getRow i table with
                             | Some r => r
                             | None => []
                             end)] None)
                      (tableGroups g))
                   (valueGroups g)
  end.

(** [options.groupColumn || table.getColumnNames()[0]] *)
Definition groupColumnOf (options : Options) (table : DataTable.t)
  : option string :=
  if truthy (CString (groupColumn options)) then Some (groupColumn options)
  else hd_error (DataTable.getColumnNames table).

Definition groupsOf (options : Options) (table : DataTable.t) : Groups :=
  let groupColumn := groupColumnOf options table in
  let valueColumn :=
    match groupColumn with
    | Some name =>
        match DataTable.getColumn name table with
        | Some c => c
        | None => []
        end
    | None => []
    end in
  fold_left
    (step options table
       (match groupColumn with
        | Some name => CString name
        | None => CUndefined
        end) valueColumn)
    (seq 0 (List.length valueColumn)) (mkGroups [] [] []).

(** [GroupModifier.modify] *)
Definition modify (options : Options) (table : DataTable.t)
  : DataTable.t * list Event :=
  let e1 := mkEvent "modify" (Some table) in
  let g := groupsOf options table in
  let table1 := fst (DataTable.deleteColumns None table) in
  let table' :=
    DataTable.setColumns
      (obj_of_entries
         [("groupBy", byGroups g);
          ("table", map CTable (tableGroups g));
          ("value", valueGroups g)])
      table1 in
  (table', [e1; mkEvent "afterModify" (Some table')]).

End GroupModifier.

(* ------------------------------------------------------------------ *)
(** ** ChainModifier *)

(** [array.splice(start, deleteCount)]: the array left behind.  A negative
    [start] counts from the end. *)
Definition Array_splice {A : Type} (start : Z) (deleteCount : nat)
    (a : list A) : list A :=
  let len := Z.of_nat (List.length a) in
  let actualStart :=
    Z.to_nat (if (start <? 0)%Z then Z.max (len + start) 0
              else Z.min start len) in
  firstn actualStart a ++ skipn (actualStart + deleteCount) a.

Module ChainModifier.

Record Options : Type := mkOptions {
  modifier : string;
  reverse : bool
}.

Definition defaultOptions : Options := mkOptions "Chain" false.

Section Chain.

(** The chain holds references to modifier instances.  [same] is
    reference identity, [Store] the state of the referenced instances
    and [modify_of m] the method [m.modify], which may change both the
    table and that state. *)
Variable DataModifier : Type.
Variable same : DataModifier -> DataModifier -> bool.
Variable Store : Type.
Variable modify_of :
  DataModifier -> DataTable.t -> Store -> DataTable.t * Store.

Record ChainEvent : Type := mkChainEvent {
  ce_type : string;
  ce_table : option DataTable.t;
  ce_modifier : option DataModifier
}.

(** The instance: its options and its array [modifiers]. *)
Record t : Type := mkChain {
  options : Options;
  modifiers : list DataModifier
}.

(** [new ChainModifier(options, ...modifiers)] *)
Definition new (reverse : option bool) (modifiers : list DataModifier)
  : t :=
  mkChain
    (mkOptions (modifier defaultOptions)
       (match reverse with
        | Some r => r
        | None => ChainModifier.reverse defaultOptions
        end))
    modifiers.

(** [add] *)
Definition add (m : DataModifier) (chain : t) : t * list ChainEvent :=
  (mkChain (options chain) (modifiers chain ++ [m]),
   [mkChainEvent "addModifier" None (Some m);
    mkChainEvent "addModifier" None (Some m)]).

(** [clear] *)
Definition clear (chain : t) : t * list ChainEvent :=
  (mkChain (options chain) [],
   [mkChainEvent "clearChain" None None;
    mkChainEvent "afterClearChain" None None]).

(** [remove] *)
Definition remove (m : DataModifier) (chain : t) : t * list ChainEvent :=
  (mkChain (options chain)
     (Array_splice (indexOf same m (modifiers chain)) 1 (modifiers chain)),
   [mkChainEvent "removeModifier" None (Some m);
    mkChainEvent "afterRemoveModifier" None (Some m)]).

(** The loop of [modify] over the execution order. *)
Fixpoint execute (order : list DataModifier) (table : DataTable.t)
    (store : Store) : DataTable.t * Store * list ChainEvent :=
  match order with
  | [] => (table, store, [])
  | m :: order' =>
      let '(table1, store1) := modify_of m table store in
      let '(table2, store2, events) := execute order' table1 store1 in
      (table2, store2,
       mkChainEvent "executeModifier" None (Some m)
         :: mkChainEvent "afterExecuteModifier" None (Some m)
         :: events)
  end.

Record Outcome : Type := mkOutcome {
  chain_after : t;
  table_after : DataTable.t;
  store_after : Store;
  emitted : list ChainEvent
}.

(** [modify].  [this.modifiers.reverse()] reorders the array of the
    instance and returns that same array; [this.modifiers.slice()]
    returns a copy. *)
Definition modify (chain : t) (table : DataTable.t) (store : Store)
  : Outcome :=
  let '(this_modifiers, modifiers) :=
    if reverse (options chain)
    then (List.rev (modifiers chain), List.rev (modifiers chain))
    else (modifiers chain, modifiers chain) in
  let e1 := mkChainEvent "execute" (Some table) None in
  let '(table', store', events) := execute modifiers table store in
  mkOutcome (mkChain (options chain) this_modifiers) table' store'
    (e1 :: events ++ [mkChainEvent "afterExecute" (Some table') None]).

End Chain.

End ChainModifier.

(* ------------------------------------------------------------------ *)
(** ** Conversion to and from class JSON *)

Inductive JSON : Type :=
| JNull
| JBoolean (b : bool)
| JNumber (n : Z)
| JString (s : string)
| JArray (items : list JSON)
| JObject (members : list (string * JSON)).

(** Modelled from the spec: [merge] of Core/Utilities, the default-merge
    that assigns the options at construction time.  The members of
    [original] are copied over [copy]; a member that is itself an object is
    merged into the member it overrides. *)
Fixpoint doCopy (copy : JSON) (original : JSON) {struct original} : JSON :=
  match original with
  | JObject members =>
      JObject
        ((fix each (members : list (string * JSON)) (acc : Obj JSON)
            : Obj JSON :=
            match members with
            | [] => acc
            | (key, value) :: members' =>
                each members'
                  (obj_set key
                     (match value with
                      | JObject _ =>
                          doCopy (match obj_get key acc with
                                  | Some c => c
                                  | None => JObject []
                                  end) value
                      | _ => value
                      end) acc)
            end) members
           (match copy with JObject c => c | _ => [] end))
  | _ => original
  end.

Definition merge (args : list JSON) : JSON :=
  fold_left doCopy args (JObject []).

Module DataJSON.

(** The instances of the modifier classes, each with its options; a
    chain also with its modifiers. *)
Inductive Modifier : Type :=
| Chain (options : JSON) (modifiers : list Modifier)
| Group (options : JSON)
| Invert (options : JSON)
| Range (options : JSON)
| SeriesPoints (options : JSON)
| Sort (options : JSON).

(** [DataModifier.ClassJSON] and [ChainModifier.ClassJSON]. *)
Inductive ClassJSON : Type :=
| ModifierJSON (class : string) (options : JSON)
| ChainJSON (class : string) (modifiers : list ClassJSON) (options : JSON).

Definition options_of (json : ClassJSON) : JSON :=
  match json with
  | ModifierJSON _ options => options
  | ChainJSON _ _ options => options
  end.

Definition class_of (json : ClassJSON) : string :=
  match json with
  | ModifierJSON class _ => class
  | ChainJSON class _ _ => class
  end.

Definition ChainModifier_defaultOptions : JSON :=
  JObject [("modifier", JString "Chain"); ("reverse", JBoolean false)].
Definition GroupModifier_defaultOptions : JSON :=
  JObject [("modifier", JString "Group"); ("groupColumn", JString "")].
Definition InvertModifier_defaultOptions : JSON :=
  JObject [("modifier", JString "InvertModifier")].
Definition RangeModifier_defaultOptions : JSON :=
  JObject [("modifier", JString "Range"); ("strict", JBoolean false);
           ("ranges", JArray [])].
Definition SeriesPointsModifier_defaultOptions : JSON :=
  JObject [("modifier", JString "SeriesPoints")].
Definition SortModifier_defaultOptions : JSON :=
  JObject [("modifier", JString "Order"); ("direction", JString "desc");
           ("orderByColumn", JString "y")].

(** The constructors: [this.options = merge(defaultOptions, options)]. *)
Definition new_ChainModifier (options : JSON) (modifiers : list Modifier) :=
  Chain (merge [ChainModifier_defaultOptions; options]) modifiers.
Definition new_GroupModifier (options : JSON) :=
  Group (merge [GroupModifier_defaultOptions; options]).
Definition new_InvertModifier (options : JSON) :=
  Invert (merge [InvertModifier_defaultOptions; options]).
Definition new_RangeModifier (options : JSON) :=
  Range (merge [RangeModifier_defaultOptions; options]).
Definition new_SeriesPointsModifier (options : JSON) :=
  SeriesPoints (merge [SeriesPointsModifier_defaultOptions; options]).
Definition new_SortModifier (options : JSON) :=
  Sort (merge [SortModifier_defaultOptions; options]).

(** [toJSON] of each class. *)
Fixpoint toJSON (m : Modifier) : ClassJSON :=
  match m with
  | Chain options modifiers =>
      ChainJSON "ChainModifier" (map toJSON modifiers) (merge [options])
  | Group options => ModifierJSON "GroupModifier" (merge [options])
  | Invert options => ModifierJSON "InvertModifier" (merge [options])
  | Range options => ModifierJSON "RangeModifier" (merge [options])
  | SeriesPoints options =>
      ModifierJSON "SeriesPointsModifier" (merge [options])
  | Sort options => ModifierJSON "SortModifier" (merge [options])
  end.

(** What a conversion from JSON yields: an instance, [undefined], or a
    TypeError thrown on the way (a chain record without its
    [modifiers]). *)
Inductive Converted : Type :=
| Instance (m : Modifier)
| NoInstance
| TypeError.

(** The loop of [ChainModifier.fromJSON] over the records of the
    modifiers, given what each record converts to: the instances are
    pushed in order, a record that converts to [undefined] is passed
    over, and a TypeError thrown by a conversion leaves the loop and the
    function, there being no handler ([None]). *)
Fixpoint collect (converted : list Converted) : option (list Modifier) :=
  match converted with
  | [] => Some []
  | Instance m :: rest =>
      match collect rest with
      | Some modifiers => Some (m :: modifiers)
      | None => None
      end
  | NoInstance :: rest => collect rest
  | TypeError :: _ => None
  end.

(** Modelled from the spec: the class registry of DataJSON.  Classes are
    registered once under their name, and [DataJSON.fromJSON] looks the
    name of the record up and calls the static [fromJSON] of the class
    found; an unknown name yields [undefined].  The registered classes
    are those that the modifier files pass to [DataJSON.addClass], and
    the branches are their static [fromJSON] functions.
    [ChainModifier.fromJSON] reads [json.modifiers.length], which throws
    for a record without modifiers, and converts the records one by
    one. *)
Fixpoint fromJSON (json : ClassJSON) : Converted :=
  let class := class_of json in
  if (class =? "ChainModifier")%string then
    match json with
    | ChainJSON _ jsonModifiers options =>
        match collect (map fromJSON jsonModifiers) with
        | Some modifiers => Instance (new_ChainModifier options modifiers)
        | None => TypeError
        end
    | ModifierJSON _ _ => TypeError
    end
  else if (class =? "GroupModifier")%string then
    Instance (new_GroupModifier (options_of json))
  else if (class =? "InvertModifier")%string then
    Instance (new_InvertModifier (options_of json))
  else if (class =? "RangeModifier")%string then
    Instance (new_RangeModifier (options_of json))
  else if (class =? "SeriesPointsModifier")%string then
    Instance (new_SeriesPointsModifier (options_of json))
  else NoInstance.

End DataJSON.

(* ------------------------------------------------------------------ *)
(** ** Sample data *)

(* ------------------------------------------------------------------ *)
(** ** Notions used to state the properties *)

(** Writing the values [vs] at the consecutive positions from [k] on. *)
Fixpoint write_from (k : nat) (vs : list CellType) (col : list CellType)
  : list CellType :=
  match vs with
  | [] => col
  | v :: vs' => write_from (S k) vs' (array_set k v col)
  end.

(** [find_index] is [indexOf] with the result as an option. *)
Fixpoint find_index {X Y : Type} (eqb : X -> Y -> bool) (y : Y) (l : list X)
  : option nat :=
  match l with
  | [] => None
  | x :: l' =>
      if eqb x y then Some 0
      else match find_index eqb y l' with
           | Some n => Some (S n)
           | None => None
           end
  end.

(** The modifiers named by the [executeModifier] events of a chain, in
    order. *)
Definition executed {DataModifier : Type}
    (events : list (ChainModifier.ChainEvent DataModifier))
  : list DataModifier :=
  flat_map
    (fun e =>
       if (ChainModifier.ce_type _ e =? "executeModifier")%string
       then match ChainModifier.ce_modifier _ e with
            | Some m => [m]
            | None => []
            end
       else [])
    events.

Section SortOrder.
Context {A : Type} (comparefn : A -> A -> Z).

(** [before] is the order of the elements in the array handed to the
    sort.  In the result an element precedes another only if it did so
    before, or if the comparator puts the other strictly after it. *)
Definition justified (before : A -> A -> Prop) (x y : A) : Prop :=
  before x y \/ (0 < comparefn y x)%Z.

(** The comparator does not put [x] after [y]. *)
Definition precedes (x y : A) : Prop := (comparefn x y <= 0)%Z.
End SortOrder.

Module TableSpec.
Import DataTable.

(** The table with the given column names whose rows are [rows]. *)
Fixpoint table_of_rows (names : list string) (rows : list Row) : t :=
  match names with
  | [] => []
  | name :: names' =>
      (name, map (hd CUndefined) rows) :: table_of_rows names' (map (@tl _) rows)
  end.
End TableSpec.

Module SortSpec.
Import DataTable SortModifier.

(** The four falsy cell values. *)
Definition falsy (cell : CellType) : Prop :=
  cell = CUndefined \/ cell = CBoolean false \/ cell = CNumber 0
  \/ cell = CString "".

(** The cell of a row that the comparator looks at. *)
Definition key (options : Options) (table : t) (r : RowReference)
  : CellType :=
  array_get
    (Z.to_nat (indexOf String.eqb (orderByColumn options)
                 (getColumnNames table)))
    (row r).

(** The row references before sorting. *)
Definition references (table : t) : list RowReference :=
  map (fun i => mkRowReference i (row_at i table))
    (seq 0 (getRowCount table)).

(** The comparator that [modify] hands to the sort. *)
Definition compareRows (StringToNumber : string -> option Z)
    (options : Options) (table : t) (a b : RowReference) : Z :=
  compare_of StringToNumber (direction options) (key options table a)
    (key options table b).

(** With [orderInColumn], one column is written: the cell of the row
    that the [i]-th reference points to becomes [i]. *)
Definition rankColumn (refs : list RowReference) (column : Column)
  : Column :=
  fold_left
    (fun c i =>
       array_set (index (nth i refs (mkRowReference 0 [])))
         (CNumber (Z.of_nat i)) c)
    (seq 0 (List.length refs)) column.

(** A cell that is compared as a number whatever the engine makes of
    strings: undefined, a boolean or a number, NaN included. *)
Definition numeric (cell : CellType) : bool :=
  match cell with
  | CUndefined | CBoolean _ | CNumber _ | CNaN => true
  | _ => false
  end.

(** The number that such a cell is compared as: [0] for undefined,
    false and NaN, [1] for true. *)
Definition num (cell : CellType) : Z :=
  match cell with
  | CBoolean true => 1
  | CNumber n => n
  | _ => 0
  end.

(** A string cell other than the empty string. *)
Definition textual (cell : CellType) : bool :=
  match cell with
  | CString s => negb (s =? "")%string
  | _ => false
  end.

(** A column whose cells are all numeric, or all textual. *)
Definition orderable (column : Column) : bool :=
  forallb numeric column || forallb textual column.

(** The ascending order of the cells of such a column: numbers by
    size, strings in lexicographic order. *)
Definition below (a b : CellType) : bool :=
  match a, b with
  | CString s, CString t => String.ltb s t
  | _, _ => (num a <? num b)%Z
  end.

(** [a] comes strictly before [b] in the direction [d]. *)
Definition ahead (d : Direction) (a b : CellType) : bool :=
  match d with
  | asc => below a b
  | desc => below b a
  end.
End SortSpec.

Module RangeSpec.
Import DataTable RangeModifier.

(** A cell that can be compared: a boolean, a number or a string. *)
Definition comparable (v : CellType) : bool :=
  match typeof v with
  | TBoolean | TNumber | TString => true
  | _ => false
  end.

(** A number cell between two numbers, the bounds included. *)
Definition between (lo hi : Z) (v : CellType) : bool :=
  match v with
  | CNumber n => (lo <=? n)%Z && (n <=? hi)%Z
  | _ => false
  end.

(** The cell of row [j] in the column named [c] (undefined when the
    table has no such column). *)
Definition cell_at (table : t) (c : string) (j : nat) : CellType :=
  array_get j (match getColumn c table with Some col => col | None => [] end).

Section WithEngine.
Variable StringToNumber : string -> option Z.

(** The inclusion law in the words of the specification, read
    literally: [minValue <= v <= maxValue], and under [strict] the
    types of [v], [minValue] and [maxValue] agree. *)
Definition within (strict : bool) (r : RangeOptions) (v : CellType)
  : bool :=
  js_le StringToNumber (minValue r) v
  && js_le StringToNumber v (maxValue r)
  && (negb strict
      || (JSType_eqb (typeof v) (typeof (minValue r))
          && JSType_eqb (typeof (minValue r)) (typeof (maxValue r)))).

(** The law as the code has it: the value is comparable as well. *)
Definition in_range (strict : bool) (r : RangeOptions) (v : CellType)
  : bool :=
  comparable v && within strict r v.

(** The rows that a range lets through, in row order. *)
Definition matching (strict : bool) (table : t) (r : RangeOptions)
  : list nat :=
  filter (fun j => in_range strict r (cell_at table (column r) j))
    (seq 0 (getRowCount table)).
End WithEngine.
End RangeSpec.

Module GroupSpec.
Import DataTable TableSpec GroupModifier.

(** [values] lists [v]. *)
Definition listed (values : list JSONPrimitive) (v : CellType) : bool :=
  existsb (fun p => json_equals p v) values.

(** The value of a row that takes part in the grouping: it is defined,
    not a nested table, not listed in [invalidValues] and, when
    [validValues] is set, listed there. *)
Definition retained (options : Options) (v : CellType) : bool :=
  match v with
  | CUndefined | CTable _ => false
  | _ =>
      negb (match invalidValues options with
            | Some invalid => listed invalid v
            | None => false
            end)
      && match validValues options with
         | Some valid => listed valid v
         | None => true
         end
  end.

(** The distinct values of a list, in the order of their first
    occurrence. *)
Fixpoint distinct (l : list CellType) : list CellType :=
  match l with
  | [] => []
  | x :: l' => x :: filter (fun y => negb (strict_equals x y)) (distinct l')
  end.

(** The indices of the rows that carry the value [k]. *)
Definition carrying (column : Column) (k : CellType) : list nat :=
  filter (fun i => strict_equals k (array_get i column))
    (seq 0 (List.length column)).

(** The name of the grouping column: the option [groupColumn], or the
    first column of the table when the option is the empty string. *)
Definition groupingColumn (options : Options) (table : t) : option string :=
  match groupColumn options with
  | EmptyString => hd_error (getColumnNames table)
  | name => Some name
  end.

(** The column of values that the rows are grouped by. *)
Definition valueColumnOf (options : Options) (table : t) : Column :=
  match groupingColumn options table with
  | Some name =>
      match getColumn name table with Some c => c | None => [] end
  | None => []
  end.

(** The grouped table, as the specification describes it. *)
Definition grouped (options : Options) (table : t) : t :=
  let column := valueColumnOf options table in
  let keys := distinct (filter (retained options) column) in
  [("groupBy",
    map (fun _ => match groupingColumn options table with
                  | Some name => CString name
                  | None => CUndefined
                  end) keys);
   ("table",
    map (fun k =>
           CTable (table_of_rows (getColumnNames table)
                     (map (fun i => row_at i table) (carrying column k))))
      keys);
   ("value", keys)].

(** A cell that is neither a nested table nor NaN; strict equality
    decides the equality of two cells one of which is plain. *)
Definition plain (v : CellType) : Prop :=
  match v with CTable _ | CNaN => False | _ => True end.

Section Loop.
Variable options : Options.
Variable table : t.

(** The groups after the rows [0 .. m-1]. *)
Definition keys_upto (m : nat) : list CellType :=
  distinct (filter (retained options) (firstn m (valueColumnOf options table))).

Definition rows_upto (m : nat) (k : CellType) : list Row :=
  map (fun i => row_at i table)
    (filter
       (fun i => strict_equals k (array_get i (valueColumnOf options table)))
       (seq 0 m)).

Definition groups_upto (m : nat) : Groups :=
  mkGroups
    (map (fun _ => match groupingColumn options table with
                   | Some name => CString name
                   | None => CUndefined
                   end) (keys_upto m))
    (map (fun k => table_of_rows (getColumnNames table) (rows_upto m k))
       (keys_upto m))
    (keys_upto m).
End Loop.
End GroupSpec.

Module InvertSpec.
Import DataTable.

(** The inverted form of a table. *)
Definition inverted (table : t) : t :=
  map (fun i => (ToString_index i, row_at i table))
    (seq 0 (getRowCount table))
  ++ [("columnNames", map CString (getColumnNames table))].
End InvertSpec.

Module JSONSpec.
Import DataJSON.

(** The keys of an object that are not array indices, in their order. *)
Definition named_keys (ks : list string) : list string :=
  filter (fun k => match array_index k with Some _ => false | None => true end)
    ks.

(** A JSON value whose objects hold their keys in object key order, as
    far as objects are nested in objects directly. *)
Fixpoint normal (j : JSON) : Prop :=
  match j with
  | JObject members =>
      js_ordered (map fst members)
      /\ (fix all (ms : list (string * JSON)) : Prop :=
            match ms with
            | [] => True
            | kv :: ms' => normal (snd kv) /\ all ms'
            end) members
  | _ => True
  end.

(** The members of an object; a value that is not an object has none. *)
Definition members_of (j : JSON) : Obj JSON :=
  match j with JObject members => members | _ => [] end.

(** The value that [doCopy] assigns under the key of a member of the
    original, given the members copied so far. *)
Definition assigned (copied : Obj JSON) (member : string * JSON) : JSON :=
  match snd member with
  | JObject _ =>
      doCopy (match obj_get (fst member) copied with
              | Some c => c
              | None => JObject []
              end) (snd member)
  | _ => snd member
  end.

(** One round of the loop of [doCopy]. *)
Definition copy_member (copied : Obj JSON) (member : string * JSON)
  : Obj JSON :=
  obj_set (fst member) (assigned copied member) copied.

(** An object none of whose members is an object. *)
Definition flat (members : list (string * JSON)) : Prop :=
  Forall (fun kv => match snd kv with JObject _ => False | _ => True end)
    members.

(** The class names under which the modifier files register a class. *)
Definition registered (class : string) : bool :=
  existsb (String.eqb class)
    ["ChainModifier"; "GroupModifier"; "InvertModifier"; "RangeModifier";
     "SeriesPointsModifier"].

(** A record under the chain's class name that lacks its modifiers, or
    that holds such a record among its modifiers, at any depth. *)
Fixpoint broken (json : ClassJSON) : Prop :=
  class_of json = "ChainModifier"
  /\ match json with
     | ModifierJSON _ _ => True
     | ChainJSON _ children _ =>
         (fix any (cs : list ClassJSON) : Prop :=
            match cs with
            | [] => False
            | c :: cs' => broken c \/ any cs'
            end) children
     end.

(** A modifier made by the constructors from option objects, a chain
    from modifiers so made, with no sort modifier among them. *)
Fixpoint built (m : Modifier) : Prop :=
  match m with
  | Chain options modifiers =>
      (exists members,
          options = merge [ChainModifier_defaultOptions; JObject members])
      /\ (fix all (ms : list Modifier) : Prop :=
            match ms with
            | [] => True
            | m' :: ms' => built m' /\ all ms'
            end) modifiers
  | Group options =>
      exists members,
        options = merge [GroupModifier_defaultOptions; JObject members]
  | Invert options =>
      exists members,
        options = merge [InvertModifier_defaultOptions; JObject members]
  | Range options =>
      exists members,
        options = merge [RangeModifier_defaultOptions; JObject members]
  | SeriesPoints options =>
      exists members,
        options = merge [SeriesPointsModifier_defaultOptions; JObject members]
  | Sort _ => False
  end.

End JSONSpec.

(* ------------------------------------------------------------------ *)
(** ** Sample data *)

Module Samples.

(** An engine for which no string denotes a number. *)
Definition noNumber : string -> option Z := fun _ => None.

(** Modifier instances named by numbers; [0] inverts, [1] sorts by
    column "x" ascending, any other leaves the table alone. *)
Definition modify_of (m : nat) (table : DataTable.t) (store : unit)
  : DataTable.t * unit :=
  match m with
  | 0 => (fst (InvertModifier.modify table), store)
  | 1 => (fst (SortModifier.modify noNumber
                 (SortModifier.mkOptions "Order" SortModifier.asc "x" None)
                 table), store)
  | _ => (table, store)
  end.

Definition xy : DataTable.t :=
  [("x", [CNumber 3; CNumber 1; CNumber 2]);
   ("y", [CString "c"; CString "a"; CString "b"])].

(** A column that holds the number 2, the string a and the number 1. *)
Definition two_a_one : DataTable.t :=
  [("k", [CNumber 2; CString "a"; CNumber 1])].

(** A column of strings. *)
Definition names_s : DataTable.t :=
  [("s", [CString "b"; CString "c"; CString "a"; CString "b"]);
   ("n", [CNumber 0; CNumber 1; CNumber 2; CNumber 3])].

Definition falsy_y : DataTable.t :=
  [("y", [CBoolean false; CNumber 0; CString ""])].

(** A table whose only cell holds a nested table, and a range of
    strings over its column. *)
Definition nested : DataTable.t := [("c", [CTable []])].

Definition text_range : RangeModifier.RangeOptions :=
  RangeModifier.mkRange "c" (CString "z") (CString "").

(** The example of the specification for grouping: rows with the values
    a, b, a. *)
Definition aba : DataTable.t :=
  [("k", [CString "a"; CString "b"; CString "a"]);
   ("n", [CNumber 1; CNumber 2; CNumber 3])].

(** Rows with the values a, b, 1, c, a and undefined in the column "k". *)
Definition mixed_k : DataTable.t :=
  [("k", [CString "a"; CString "b"; CNumber 1; CString "c"; CString "a";
          CUndefined]);
   ("n", [CNumber 0; CNumber 1; CNumber 2; CNumber 3; CNumber 4;
          CNumber 5])].

(** Two rows with NaN in the column "k". *)
Definition nan_k : DataTable.t :=
  [("k", [CNaN; CNaN]); ("n", [CNumber 1; CNumber 2])].

End Samples.

(* ================================================================== *)
(** * Properties *)

(* ------------------------------------------------------------------ *)
(** ** Lists *)

Lemma filter_none {X : Type} (p : X -> bool) l :
  (forall x, In x l -> p x = false) -> filter p l = [].
Proof.
  induction l as [|x l IH]; intros H; simpl; [reflexivity|].
  rewrite (H x) by now left. apply IH. intros y Hy. apply H. now right.
Qed.

Lemma map_nth_all {X : Type} (l : list X) d :
  map (fun i => nth i l d) (seq 0 (List.length l)) = l.
Proof.
  induction l as [|x l IH]; simpl; [reflexivity|].
  f_equal. rewrite <- seq_shift, map_map. exact IH.
Qed.

Lemma map_nth_seq_refs {X Y : Type} (f : X -> Y) (l : list X) d :
  map (fun i => f (nth i l d)) (seq 0 (List.length l)) = map f l.
Proof.
  induction l as [|x l IH]; simpl; [reflexivity|].
  f_equal. rewrite <- seq_shift, map_map. exact IH.
Qed.

Lemma ForallOrdPairs_weaken {X : Type} (R S : X -> X -> Prop) l :
  (forall a b, R a b -> S a b) ->
  ForallOrdPairs R l -> ForallOrdPairs S l.
Proof.
  intros HRS. induction 1 as [|x l Hx Hl IH]; constructor; [|assumption].
  eapply Forall_impl; [|exact Hx]. intros b. apply HRS.
Qed.

Lemma combine_seq_map {B : Type} (f : nat -> B) k n :
  combine (seq k n) (map f (seq k n)) = map (fun i => (i, f i)) (seq k n).
Proof.
  revert k. induction n as [|n IH]; intros k; simpl.
  - reflexivity.
  - now rewrite IH.
Qed.

Lemma existsb_filter {X : Type} (p q : X -> bool) l :
  (forall y, q y = true -> p y = true) ->
  existsb q (filter p l) = existsb q l.
Proof.
  intros H. induction l as [|x l IH]; simpl; [reflexivity|].
  destruct (p x) eqn:Ep; simpl.
  - now rewrite IH.
  - rewrite IH. destruct (q x) eqn:Eq; [|reflexivity].
    apply H in Eq. congruence.
Qed.

Lemma count_occ_flat_map {X : Type} (f : X -> list nat) l j :
  count_occ Nat.eq_dec (flat_map f l) j
  = list_sum (map (fun x => count_occ Nat.eq_dec (f x) j) l).
Proof.
  induction l as [|x l IH]; simpl; [reflexivity|].
  now rewrite count_occ_app, IH.
Qed.

Lemma count_occ_filter_seq (p : nat -> bool) k n j :
  count_occ Nat.eq_dec (filter p (seq k n)) j
  = if (k <=? j) && (j <? k + n) && p j then 1 else 0.
Proof.
  destruct (in_dec Nat.eq_dec j (filter p (seq k n))) as [Hin|Hn].
  - assert (Hnd : NoDup (filter p (seq k n)))
      by (apply NoDup_filter, seq_NoDup).
    rewrite (proj1 (NoDup_count_occ' Nat.eq_dec _) Hnd j Hin).
    apply filter_In in Hin. destruct Hin as [Hs Hp].
    apply in_seq in Hs. rewrite Hp.
    replace (k <=? j) with true by (symmetry; apply Nat.leb_le; lia).
    replace (j <? k + n) with true by (symmetry; apply Nat.ltb_lt; lia).
    reflexivity.
  - rewrite (proj1 (count_occ_not_In Nat.eq_dec _ j) Hn).
    destruct ((k <=? j) && (j <? k + n) && p j) eqn:E; [|reflexivity].
    exfalso. apply Hn.
    apply andb_true_iff in E. destruct E as [E Hp].
    apply andb_true_iff in E. destruct E as [E1 E2].
    apply Nat.leb_le in E1. apply Nat.ltb_lt in E2.
    apply filter_In. split; [apply in_seq; lia | exact Hp].
Qed.

Lemma length_filter_sum {X : Type} (p : X -> bool) l :
  List.length (filter p l)
  = list_sum (map (fun x => if p x then 1 else 0) l).
Proof.
  induction l as [|x l IH]; simpl; [reflexivity|].
  destruct (p x); simpl; now rewrite IH.
Qed.

Lemma firstn_S_get m (column : list CellType) :
  m < List.length column ->
  firstn (S m) column = firstn m column ++ [array_get m column].
Proof.
  revert m. induction column as [|x column IH]; intros m Hm.
  - simpl in Hm. lia.
  - destruct m as [|m]; [reflexivity|].
    simpl in Hm. change (firstn (S (S m)) (x :: column))
      with (x :: firstn (S m) column).
    rewrite IH by lia. reflexivity.
Qed.

(* ------------------------------------------------------------------ *)
(** ** ChainModifier *)

Section ChainFacts.
Variable DataModifier : Type.
Variable same : DataModifier -> DataModifier -> bool.
Variable Store : Type.
Variable modify_of :
  DataModifier -> DataTable.t -> Store -> DataTable.t * Store.

Local Abbreviation modify := (ChainModifier.modify DataModifier Store modify_of).
Local Abbreviation execute := (ChainModifier.execute DataModifier Store modify_of).
Local Abbreviation new := (ChainModifier.new DataModifier).
Local Abbreviation executed := (@executed DataModifier).

Lemma executed_execute order table store :
  executed (snd (execute order table store)) = order.
Proof.
  revert table store.
  induction order as [|m order IH]; intros table store; simpl.
  - reflexivity.
  - destruct (modify_of m table store) as [table1 store1].
    specialize (IH table1 store1).
    destruct (execute order table1 store1) as [[table2 store2] events].
    simpl in *. now rewrite IH.
Qed.

Lemma executed_app e1 e2 : executed (e1 ++ e2) = executed e1 ++ executed e2.
Proof. unfold executed. now rewrite flat_map_app. Qed.

(** What [modify] leaves in the array of the instance. *)
Lemma modify_stored_order chain table store :
  ChainModifier.modifiers _ (ChainModifier.chain_after _ _ (modify chain table store))
  = if ChainModifier.reverse (ChainModifier.options _ chain)
    then List.rev (ChainModifier.modifiers _ chain)
    else ChainModifier.modifiers _ chain.
Proof.
  unfold ChainModifier.modify.
  destruct (ChainModifier.reverse (ChainModifier.options _ chain)).
  - destruct (execute _ table store) as [[t' s'] ev]. reflexivity.
  - destruct (execute _ table store) as [[t' s'] ev]. reflexivity.
Qed.

Lemma modify_executed chain table store :
  executed (ChainModifier.emitted _ _ (modify chain table store))
  = if ChainModifier.reverse (ChainModifier.options _ chain)
    then List.rev (ChainModifier.modifiers _ chain)
    else ChainModifier.modifiers _ chain.
Proof.
  unfold ChainModifier.modify.
  destruct (ChainModifier.reverse (ChainModifier.options _ chain)).
  - pose proof (executed_execute (List.rev (ChainModifier.modifiers _ chain))
                  table store) as H.
    destruct (execute _ table store) as [[t' s'] ev]. simpl in *.
    change (executed (ev ++ [ChainModifier.mkChainEvent _ "afterExecute" (Some t') None])
            = List.rev (ChainModifier.modifiers _ chain)).
    rewrite executed_app, H. simpl. now rewrite List.app_nil_r.
  - pose proof (executed_execute (ChainModifier.modifiers _ chain)
                  table store) as H.
    destruct (execute _ table store) as [[t' s'] ev]. simpl in *.
    change (executed (ev ++ [ChainModifier.mkChainEvent _ "afterExecute" (Some t') None])
            = ChainModifier.modifiers _ chain).
    rewrite executed_app, H. simpl. now rewrite List.app_nil_r.
Qed.

(** C1, at the failing input: a chain built with [reverse: true] over
    two modifiers [A], [B].  One call of [modify] leaves the stored
    sequence as [B, A] instead of [A, B]; the first call runs [B] then
    [A], the second call on the same chain runs [A] then [B]. *)
Theorem modify_reverse_reorders_stored_chain (A B : DataModifier)
    (table table2 : DataTable.t) (store store2 : Store) :
  let chain := new (Some true) [A; B] in
  let first := modify chain table store in
  let second := modify (ChainModifier.chain_after _ _ first) table2 store2 in
  ChainModifier.modifiers _ chain = [A; B]
  /\ ChainModifier.modifiers _ (ChainModifier.chain_after _ _ first) = [B; A]
  /\ executed (ChainModifier.emitted _ _ first) = [B; A]
  /\ executed (ChainModifier.emitted _ _ second) = [A; B]
  /\ ChainModifier.modifiers _ (ChainModifier.chain_after _ _ second) = [A; B].
Proof.
  intros chain first second.
  assert (H1 : ChainModifier.modifiers _ (ChainModifier.chain_after _ _ first)
               = [B; A]).
  { unfold first. rewrite modify_stored_order. reflexivity. }
  assert (Hopt : ChainModifier.reverse
                   (ChainModifier.options _ (ChainModifier.chain_after _ _ first))
                 = true).
  { unfold first, ChainModifier.modify. simpl.
    destruct (modify_of B table store) as [ta sa].
    destruct (modify_of A ta sa) as [tb sb]. reflexivity. }
  repeat split.
  - exact H1.
  - unfold first. rewrite modify_executed. reflexivity.
  - unfold second. rewrite modify_executed, Hopt, H1. reflexivity.
  - unfold second. rewrite modify_stored_order, Hopt, H1. reflexivity.
Qed.

(** C4: a chain over [A, B] returns the table (and leaves the state of
    the modifiers) that running [A.modify] and then [B.modify] gives;
    with [reverse: true] it returns what the chain over [B, A] returns. *)
Theorem modify_composes (A B : DataModifier) (table : DataTable.t)
    (store : Store) :
  let forward := modify (new None [A; B]) table store in
  let backward := modify (new (Some true) [A; B]) table store in
  let swapped := modify (new (Some false) [B; A]) table store in
  (ChainModifier.table_after _ _ forward, ChainModifier.store_after _ _ forward)
  = (let '(table1, store1) := modify_of A table store in
     modify_of B table1 store1)
  /\ ChainModifier.table_after _ _ backward = ChainModifier.table_after _ _ swapped
  /\ ChainModifier.store_after _ _ backward = ChainModifier.store_after _ _ swapped
  /\ ChainModifier.emitted _ _ backward = ChainModifier.emitted _ _ swapped.
Proof.
  unfold ChainModifier.modify, ChainModifier.new. simpl.
  destruct (modify_of A table store) as [ta sa].
  destruct (modify_of B ta sa) as [tab sab].
  destruct (modify_of B table store) as [tb sb].
  destruct (modify_of A tb sb) as [tba sba].
  simpl. repeat split.
Qed.

(** [remove] of a modifier of the chain deletes its first occurrence. *)
Hypothesis same_spec : forall a b, same a b = true <-> a = b.

Lemma indexOf_from_absent (m : DataModifier) l i :
  ~ In m l -> indexOf_from same m l i = (-1)%Z.
Proof.
  revert i. induction l as [|x l IH]; intros i Hn; simpl.
  - reflexivity.
  - destruct (same x m) eqn:E.
    + apply same_spec in E. subst. exfalso. apply Hn. now left.
    + apply IH. intros H. apply Hn. now right.
Qed.

Lemma indexOf_from_first (m : DataModifier) l1 l2 i :
  ~ In m l1 ->
  indexOf_from same m (l1 ++ m :: l2) i = (i + Z.of_nat (List.length l1))%Z.
Proof.
  revert i. induction l1 as [|x l1 IH]; intros i Hn; simpl.
  - assert (E : same m m = true) by now apply same_spec.
    rewrite E. lia.
  - destruct (same x m) eqn:E.
    + apply same_spec in E. subst. exfalso. apply Hn. now left.
    + rewrite IH by (intros H; apply Hn; now right). lia.
Qed.

Lemma remove_present (m : DataModifier) l1 l2 options :
  ~ In m l1 ->
  ChainModifier.modifiers _
    (fst (ChainModifier.remove _ same m (ChainModifier.mkChain _ options (l1 ++ m :: l2))))
  = l1 ++ l2.
Proof.
  intros Hn. unfold ChainModifier.remove, indexOf. simpl.
  rewrite indexOf_from_first by assumption.
  unfold Array_splice.
  replace (0 + Z.of_nat (List.length l1) <? 0)%Z with false
    by (symmetry; apply Z.ltb_ge; lia).
  rewrite length_app. simpl.
  rewrite Z.min_l by lia. rewrite Nat2Z.id.
  rewrite firstn_app, firstn_all, Nat.sub_diag. simpl. rewrite List.app_nil_r.
  rewrite skipn_app.
  replace (List.length l1 + 1 - List.length l1) with 1 by lia.
  rewrite skipn_all2 by lia. reflexivity.
Qed.

(** [remove] of a modifier that is not in the chain deletes the last
    modifier of the chain. *)
Lemma remove_absent (m : DataModifier) l options :
  ~ In m l ->
  ChainModifier.modifiers _
    (fst (ChainModifier.remove _ same m (ChainModifier.mkChain _ options l)))
  = removelast l.
Proof.
  intros Hn. unfold ChainModifier.remove, indexOf. simpl.
  rewrite indexOf_from_absent by assumption.
  unfold Array_splice. change (-1 <? 0)%Z with true. cbv iota.
  destruct (List.length l) as [|n] eqn:El.
  - destruct l; [reflexivity | discriminate].
  - replace (Z.to_nat (Z.max (Z.of_nat (S n) + -1) 0)) with n by lia.
    rewrite skipn_all2 by lia. rewrite List.app_nil_r.
    rewrite removelast_firstn_len. rewrite El. simpl. reflexivity.
Qed.

End ChainFacts.

(** C9, at the failing input: the chain holds the modifiers [0] and [1];
    [remove] of the modifier [2], which is not in the chain, leaves the
    sequence [0] behind: the last modifier is gone. *)
Theorem remove_absent_drops_last :
  ChainModifier.modifiers nat
    (fst (ChainModifier.remove nat Nat.eqb 2 (ChainModifier.new nat None [0; 1])))
  = [0].
Proof. reflexivity. Qed.

(* ------------------------------------------------------------------ *)
(** ** Conversion to and from class JSON *)

(** C7, at the failing input: a sort modifier built from any options.
    Its [toJSON] names the class SortModifier, a name under which no class
    is registered, so the conversion back yields no instance; and a chain
    holding one sort modifier comes back as a chain without modifiers,
    whose [toJSON] differs from the one converted. *)
Theorem sort_modifier_not_restored (options : JSON) :
  let x := DataJSON.new_SortModifier options in
  let chain := DataJSON.new_ChainModifier (JObject []) [x] in
  DataJSON.class_of (DataJSON.toJSON x) = "SortModifier"
  /\ DataJSON.fromJSON (DataJSON.toJSON x) = DataJSON.NoInstance
  /\ DataJSON.fromJSON (DataJSON.toJSON chain)
     = DataJSON.Instance (DataJSON.new_ChainModifier
                            (DataJSON.options_of (DataJSON.toJSON chain)) [])
  /\ DataJSON.toJSON (DataJSON.new_ChainModifier
                        (DataJSON.options_of (DataJSON.toJSON chain)) [])
     <> DataJSON.toJSON chain.
Proof.
  intros x chain. repeat split.
  intros H. discriminate H.
Qed.

(* ------------------------------------------------------------------ *)
(** ** Objects *)

(* ------------------------------------------------------------------ *)
(** ** Objects *)

Section ObjectFacts.
Context {V : Type}.
Implicit Types (o : Obj V) (k : string) (v : V).

Lemma obj_get_None k o : obj_get k o = None <-> ~ In k (obj_keys o).
Proof.
  induction o as [|[k' v'] o IH]; simpl.
  - tauto.
  - destruct (String.eqb_spec k' k) as [->|Hne].
    + split; [discriminate | intros H; exfalso; apply H; now left].
    + rewrite IH. split.
      * intros H [E|E]; [congruence | tauto].
      * intros H E. apply H. now right.
Qed.

Lemma obj_has_true k o : obj_has k o = true <-> In k (obj_keys o).
Proof.
  unfold obj_has. destruct (obj_get k o) eqn:E.
  - split; [intros _ | reflexivity].
    destruct (in_dec string_dec k (obj_keys o)) as [H|H]; [assumption|].
    apply obj_get_None in H. congruence.
  - apply obj_get_None in E. split; [discriminate | tauto].
Qed.

Lemma obj_has_false k o : obj_has k o = false <-> ~ In k (obj_keys o).
Proof.
  rewrite <- obj_has_true. destruct (obj_has k o); split; congruence.
Qed.

Lemma obj_insert_index_append n k v o :
  (forall k', In k' (obj_keys o) ->
              exists n', array_index k' = Some n' /\ (n' < n)%N) ->
  obj_insert_index n k v o = o ++ [(k, v)].
Proof.
  induction o as [|[k' v'] o IH]; intros H; simpl.
  - reflexivity.
  - destruct (H k') as (n' & E & Hlt); [now left|].
    rewrite E. apply N.ltb_lt in Hlt. rewrite Hlt.
    rewrite IH; [reflexivity|].
    intros k'' Hin. apply H. now right.
Qed.

(** A key that sorts after all the keys of the object is appended. *)
Lemma obj_set_append k v o :
  ~ In k (obj_keys o) ->
  (forall n, array_index k = Some n ->
             forall k', In k' (obj_keys o) ->
                        exists n', array_index k' = Some n' /\ (n' < n)%N) ->
  obj_set k v o = o ++ [(k, v)].
Proof.
  intros Hn Hidx. unfold obj_set.
  apply obj_has_false in Hn. rewrite Hn.
  destruct (array_index k) as [n|] eqn:E; [|reflexivity].
  apply obj_insert_index_append. now apply Hidx.
Qed.

Lemma js_ordered_snoc ks k :
  js_ordered (ks ++ [k]) ->
  js_ordered ks /\ ~ In k ks /\
  (forall n, array_index k = Some n ->
             forall k', In k' ks ->
                        exists n', array_index k' = Some n' /\ (n' < n)%N).
Proof.
  induction ks as [|k0 ks IH]; simpl.
  - intros _. repeat split; tauto.
  - intros (Hn & Hidx & Hord).
    destruct (IH Hord) as (Hord' & Hn' & Hidx').
    repeat split.
    + intros H. apply Hn. apply in_or_app. now left.
    + intros k' n' Hin. apply Hidx. apply in_or_app. now left.
    + assumption.
    + intros [E|E]; [|tauto]. subst. apply Hn. apply in_or_app.
      right. now left.
    + intros n En k' [E|Hin].
      * subst k'. apply (Hidx k n); [|assumption].
        apply in_or_app. right. now left.
      * now apply (Hidx' n).
Qed.

Lemma js_ordered_NoDup ks : js_ordered ks -> NoDup ks.
Proof.
  induction ks as [|k ks IH]; simpl.
  - constructor.
  - intros (Hn & _ & Hord). constructor; auto.
Qed.

(** Filling an object key by key, with keys that come in object key
    order, keeps the entries as they were given. *)
Lemma obj_of_entries_ordered (entries : list (string * V)) :
  js_ordered (map fst entries) -> obj_of_entries entries = entries.
Proof.
  unfold obj_of_entries.
  induction entries as [|[k v] entries IH] using rev_ind; intros Hord.
  - reflexivity.
  - rewrite map_app in Hord. simpl in Hord.
    apply js_ordered_snoc in Hord. destruct Hord as (Hord & Hn & Hidx).
    rewrite fold_left_app. simpl. rewrite IH by assumption.
    apply obj_set_append; assumption.
Qed.

Lemma obj_get_replace_same k v o :
  In k (obj_keys o) -> obj_get k (obj_replace k v o) = Some v.
Proof.
  induction o as [|[k' v'] o IH]; simpl; [tauto|].
  intros H. destruct (String.eqb_spec k' k) as [->|Hne]; simpl.
  - now rewrite String.eqb_refl.
  - apply String.eqb_neq in Hne. rewrite Hne.
    apply IH. destruct H as [E|E]; [|assumption].
    apply String.eqb_neq in Hne. congruence.
Qed.

Lemma obj_get_replace_other k k0 v o :
  k0 <> k -> obj_get k0 (obj_replace k v o) = obj_get k0 o.
Proof.
  intros Hne. induction o as [|[k' v'] o IH]; simpl; [reflexivity|].
  destruct (String.eqb_spec k' k) as [->|Hne']; simpl.
  - apply String.eqb_neq in Hne. rewrite String.eqb_sym in Hne.
    now rewrite Hne.
  - now rewrite IH.
Qed.

Lemma obj_get_insert_index_same n k v o :
  ~ In k (obj_keys o) -> obj_get k (obj_insert_index n k v o) = Some v.
Proof.
  induction o as [|[k' v'] o IH]; simpl; intros Hn.
  - now rewrite String.eqb_refl.
  - assert (Hne : (k' =? k)%string = false)
      by (apply String.eqb_neq; intros E; apply Hn; now left).
    destruct (array_index k') as [n'|]; simpl.
    + destruct (n' <? n)%N; simpl.
      * rewrite Hne. apply IH. intros H. apply Hn. now right.
      * now rewrite String.eqb_refl.
    + now rewrite String.eqb_refl.
Qed.

Lemma obj_get_insert_index_other n k k0 v o :
  k0 <> k -> obj_get k0 (obj_insert_index n k v o) = obj_get k0 o.
Proof.
  intros Hne. apply String.eqb_neq in Hne. rewrite String.eqb_sym in Hne.
  induction o as [|[k' v'] o IH]; simpl.
  - now rewrite Hne.
  - destruct (array_index k') as [n'|]; simpl.
    + destruct (n' <? n)%N; simpl.
      * now rewrite IH.
      * now rewrite Hne.
    + now rewrite Hne.
Qed.

Lemma obj_get_app k o1 o2 :
  obj_get k (o1 ++ o2)
  = match obj_get k o1 with Some v => Some v | None => obj_get k o2 end.
Proof.
  induction o1 as [|[k' v'] o1 IH]; simpl; [reflexivity|].
  destruct (k' =? k)%string; [reflexivity | apply IH].
Qed.

Lemma obj_get_set_same k v o : obj_get k (obj_set k v o) = Some v.
Proof.
  unfold obj_set. destruct (obj_has k o) eqn:E.
  - apply obj_get_replace_same. now apply obj_has_true.
  - apply obj_has_false in E.
    destruct (array_index k).
    + now apply obj_get_insert_index_same.
    + rewrite obj_get_app. apply obj_get_None in E. rewrite E. simpl.
      now rewrite String.eqb_refl.
Qed.

Lemma obj_get_set_other k k0 v o :
  k0 <> k -> obj_get k0 (obj_set k v o) = obj_get k0 o.
Proof.
  intros Hne. unfold obj_set. destruct (obj_has k o).
  - now apply obj_get_replace_other.
  - destruct (array_index k).
    + now apply obj_get_insert_index_other.
    + rewrite obj_get_app. simpl.
      apply String.eqb_neq in Hne. rewrite String.eqb_sym in Hne.
      rewrite Hne. now destruct (obj_get k0 o).
Qed.

Lemma obj_replace_replace k v1 v2 o :
  obj_replace k v2 (obj_replace k v1 o) = obj_replace k v2 o.
Proof.
  induction o as [|[k' v'] o IH]; simpl; [reflexivity|].
  destruct (k' =? k)%string eqn:E; simpl; rewrite E.
  - reflexivity.
  - now rewrite IH.
Qed.

Lemma obj_replace_insert_index n k v1 v2 o :
  ~ In k (obj_keys o) ->
  obj_replace k v2 (obj_insert_index n k v1 o) = obj_insert_index n k v2 o.
Proof.
  induction o as [|[k' v'] o IH]; simpl; intros Hn.
  - now rewrite String.eqb_refl.
  - assert (Hne : (k' =? k)%string = false)
      by (apply String.eqb_neq; intros E; apply Hn; now left).
    assert (Hrep : obj_replace k v2 o = o).
    { clear IH. assert (Hn' : ~ In k (obj_keys o)) by tauto.
      clear Hn Hne. induction o as [|[k2 w] o IH]; simpl; [reflexivity|].
      assert (Hne : (k2 =? k)%string = false)
        by (apply String.eqb_neq; intros E; apply Hn'; now left).
      rewrite Hne. rewrite IH; [reflexivity|].
      intros H. apply Hn'. now right. }
    destruct (array_index k') as [n'|]; simpl.
    + destruct (n' <? n)%N; simpl.
      * rewrite Hne. rewrite IH by tauto. reflexivity.
      * rewrite String.eqb_refl. reflexivity.
    + rewrite String.eqb_refl. reflexivity.
Qed.

Lemma obj_replace_absent k v o :
  ~ In k (obj_keys o) -> obj_replace k v o = o.
Proof.
  induction o as [|[k2 w] o IH]; simpl; intros Hn; [reflexivity|].
  assert (Hne : (k2 =? k)%string = false)
    by (apply String.eqb_neq; intros E; apply Hn; now left).
  rewrite Hne. rewrite IH; [reflexivity|]. tauto.
Qed.

Lemma obj_replace_snoc k v1 v2 o :
  ~ In k (obj_keys o) ->
  obj_replace k v2 (o ++ [(k, v1)]) = o ++ [(k, v2)].
Proof.
  induction o as [|[k2 w] o IH]; simpl; intros Hn.
  - now rewrite String.eqb_refl.
  - assert (Hne : (k2 =? k)%string = false)
      by (apply String.eqb_neq; intros E; apply Hn; now left).
    rewrite Hne. rewrite IH by tauto. reflexivity.
Qed.

(** A second assignment to a key overrides the first in place. *)
Lemma obj_set_set k v1 v2 o :
  obj_set k v2 (obj_set k v1 o) = obj_set k v2 o.
Proof.
  assert (Hhas : obj_has k (obj_set k v1 o) = true).
  { unfold obj_has. now rewrite obj_get_set_same. }
  unfold obj_set at 1. rewrite Hhas.
  unfold obj_set. destruct (obj_has k o) eqn:E.
  - apply obj_replace_replace.
  - apply obj_has_false in E. destruct (array_index k).
    + now apply obj_replace_insert_index.
    + now apply obj_replace_snoc.
Qed.

Lemma obj_delete_keys o :
  fold_left (fun o' k => obj_delete k o') (obj_keys o) o = [].
Proof.
  induction o as [|[k v] o IH]; simpl; [reflexivity|].
  now rewrite String.eqb_refl.
Qed.

Lemma obj_get_In k v o :
  obj_get k o = Some v -> In (k, v) o.
Proof.
  induction o as [|[k' v'] o IH]; simpl; [discriminate|].
  destruct (String.eqb_spec k' k) as [->|Hne].
  - intros [= ->]. now left.
  - intros H. right. now apply IH.
Qed.

Lemma obj_delete_snoc k v o :
  ~ In k (obj_keys o) -> obj_delete k (o ++ [(k, v)]) = o.
Proof.
  induction o as [|[k' v'] o IH]; simpl; intros Hn.
  - now rewrite String.eqb_refl.
  - assert (Hne : (k' =? k)%string = false)
      by (apply String.eqb_neq; intros E; apply Hn; now left).
    rewrite Hne. rewrite IH by tauto. reflexivity.
Qed.

End ObjectFacts.

Lemma js_ordered_plain_names ks :
  NoDup ks -> Forall (fun k => array_index k = None) ks -> js_ordered ks.
Proof.
  induction 1 as [|k ks Hk Hnd IH]; intros Hnone; simpl; [exact I|].
  apply Forall_cons_iff in Hnone. destruct Hnone as [_ Hnone].
  split; [exact Hk|]. split; [|now apply IH].
  intros k' n' Hin E. rewrite Forall_forall in Hnone.
  rewrite (Hnone k' Hin) in E. discriminate.
Qed.

(* ------------------------------------------------------------------ *)
(** ** Arrays *)

Lemma array_set_length i v a :
  List.length (array_set i v a) = Nat.max (List.length a) (S i).
Proof.
  revert a. induction i as [|i IH]; intros [|x a]; simpl; try reflexivity.
  - f_equal. lia.
  - rewrite IH. simpl. reflexivity.
  - now rewrite IH.
Qed.

Lemma array_get_set_same i v a : array_get i (array_set i v a) = v.
Proof.
  unfold array_get. revert a.
  induction i as [|i IH]; intros [|x a]; simpl; auto.
Qed.

Lemma array_get_nil j : array_get j [] = CUndefined.
Proof. unfold array_get. now destruct j. Qed.

Lemma array_get_set_other i j v a :
  j <> i -> array_get j (array_set i v a) = array_get j a.
Proof.
  unfold array_get. revert j a.
  induction i as [|i IH]; intros j a Hne; destruct j as [|j], a as [|x a];
    simpl; try congruence; try reflexivity.
  - now destruct j.
  - rewrite IH by congruence. now destruct j.
  - apply IH. congruence.
Qed.

Lemma array_set_app_r pre i v a :
  array_set (List.length pre + i) v (pre ++ a) = pre ++ array_set i v a.
Proof. induction pre as [|x pre IH]; simpl; [reflexivity | now rewrite IH]. Qed.

Lemma write_from_app vs pre col :
  write_from (List.length pre) vs (pre ++ col)
  = pre ++ vs ++ skipn (List.length vs) col.
Proof.
  revert pre col. induction vs as [|v vs IH]; intros pre col; simpl.
  - reflexivity.
  - replace (List.length pre) with (List.length pre + 0) at 2 by lia.
    rewrite array_set_app_r.
    replace (pre ++ array_set 0 v col) with ((pre ++ [v]) ++ tl col)
      by (rewrite <- app_assoc; destruct col; reflexivity).
    replace (S (List.length pre)) with (List.length (pre ++ [v]))
      by (rewrite length_app; simpl; lia).
    rewrite IH. rewrite <- app_assoc. simpl.
    destruct col; simpl; [now rewrite skipn_nil | reflexivity].
Qed.

Lemma write_from_all vs col :
  List.length col <= List.length vs -> write_from 0 vs col = vs.
Proof.
  intros H. change (write_from (List.length (@nil CellType)) vs ([] ++ col) = vs).
  rewrite write_from_app. simpl.
  rewrite skipn_all2 by assumption. apply List.app_nil_r.
Qed.

Lemma write_from_end vs col :
  write_from (List.length col) vs col = col ++ vs.
Proof.
  rewrite <- (List.app_nil_r col) at 2. rewrite write_from_app.
  rewrite skipn_nil. now rewrite List.app_nil_r.
Qed.

Lemma write_from_at_end n vs col :
  n = List.length col -> write_from n vs col = col ++ vs.
Proof. intros ->. apply write_from_end. Qed.

Lemma map_nth_seq (a : list CellType) :
  map (fun i => array_get i a) (seq 0 (List.length a)) = a.
Proof.
  unfold array_get. induction a as [|x a IH]; simpl; [reflexivity|].
  f_equal. rewrite <- seq_shift, map_map. exact IH.
Qed.

(* ------------------------------------------------------------------ *)
(** ** Tables *)

Lemma fold_array_set_untouched (f : nat -> nat) (g : nat -> CellType) l c0 j :
  ~ In j (map f l) ->
  array_get j (fold_left (fun c i => array_set (f i) (g i) c) l c0)
  = array_get j c0.
Proof.
  revert c0. induction l as [|i l IH]; intros c0 Hn; simpl.
  - reflexivity.
  - rewrite IH by (intros H; apply Hn; now right).
    apply array_get_set_other. intros E. apply Hn. left. now symmetry.
Qed.

Lemma fold_array_set_written (f : nat -> nat) (g : nat -> CellType) l c0 p :
  NoDup (map f l) -> In p l ->
  array_get (f p) (fold_left (fun c i => array_set (f i) (g i) c) l c0)
  = g p.
Proof.
  revert c0. induction l as [|i l IH]; intros c0 Hnd Hin; simpl.
  - destruct Hin.
  - simpl in Hnd. inversion Hnd as [|? ? Hni Hnd']; subst.
    destruct (Nat.eq_dec p i) as [->|Hne].
    + rewrite fold_array_set_untouched by assumption.
      apply array_get_set_same.
    + destruct Hin as [E|Hin]; [congruence|]. now apply IH.
Qed.

Lemma fold_array_set_length (f : nat -> nat) (g : nat -> CellType) l c0 :
  List.length (fold_left (fun c i => array_set (f i) (g i) c) l c0)
  = Nat.max (List.length c0) (list_max (map (fun i => S (f i)) l)).
Proof.
  revert c0. induction l as [|i l IH]; intros c0.
  - simpl. lia.
  - cbn [fold_left map]. rewrite IH, array_set_length.
    change (list_max (S (f i) :: map (fun i => S (f i)) l))
      with (Nat.max (S (f i)) (list_max (map (fun i => S (f i)) l))).
    lia.
Qed.

Lemma list_max_image_bound (f : nat -> nat) l n :
  Permutation (map f l) (seq 0 n) -> n <> 0 ->
  list_max (map (fun i => S (f i)) l) = n.
Proof.
  intros Hperm Hn. apply Nat.le_antisymm.
  - apply list_max_le. apply Forall_forall. intros x Hx.
    apply in_map_iff in Hx. destruct Hx as (i & <- & Hi).
    assert (H : In (f i) (seq 0 n))
      by (apply (Permutation_in _ Hperm); now apply in_map).
    apply in_seq in H. lia.
  - assert (H : In (n - 1) (map f l)).
    { apply (Permutation_in _ (Permutation_sym Hperm)).
      apply in_seq. lia. }
    apply in_map_iff in H. destruct H as (i & Hi & Hin).
    assert (Hle : Forall (fun k => k <= list_max (map (fun i => S (f i)) l))
                    (map (fun i => S (f i)) l))
      by (now apply list_max_le).
    rewrite Forall_forall in Hle.
    specialize (Hle (S (f i)) (in_map (fun i => S (f i)) l i Hin)). lia.
Qed.

(* ------------------------------------------------------------------ *)
(** ** Tables *)

Module TableFacts.
Import DataTable TableSpec.

Lemma getRowCount_cons name col rest :
  getRowCount ((name, col) :: rest)
  = Nat.max (List.length col) (getRowCount rest).
Proof. reflexivity. Qed.

Lemma all_length_getRowCount n (table : t) :
  Forall (fun c => List.length (snd c) = n) table ->
  table <> [] -> getRowCount table = n.
Proof.
  induction 1 as [|[name col] rest Hc Hrest IH]; intros Hne.
  - now elim Hne.
  - rewrite getRowCount_cons. simpl in Hc.
    destruct rest as [|c rest']; [change (getRowCount []) with 0; lia|].
    rewrite IH by discriminate. lia.
Qed.

Lemma uniform_all_length (table : t) :
  uniform table ->
  Forall (fun c => List.length (snd c) = getRowCount table) table.
Proof. exact (fun H => H). Qed.

Lemma all_length_uniform n (table : t) :
  Forall (fun c => List.length (snd c) = n) table -> uniform table.
Proof.
  intros H. unfold uniform. destruct table as [|c rest]; [constructor|].
  rewrite (all_length_getRowCount n) by (assumption || discriminate).
  exact H.
Qed.

Lemma uniform_tail c (rest : t) :
  uniform (c :: rest) ->
  Forall (fun c' => List.length (snd c') = getRowCount (c :: rest)) rest.
Proof. intros H. now inversion H. Qed.

Lemma uniform_column_length (table : t) name column :
  uniform table -> getColumn name table = Some column ->
  List.length column = getRowCount table.
Proof.
  intros Huni Hget. apply obj_get_In in Hget.
  unfold uniform in Huni. rewrite Forall_forall in Huni.
  exact (Huni _ Hget).
Qed.

Lemma row_at_cons i name col rest :
  row_at i ((name, col) :: rest) = array_get i col :: row_at i rest.
Proof. reflexivity. Qed.

Lemma length_row_at i (table : t) :
  List.length (row_at i table) = List.length table.
Proof. unfold row_at. apply length_map. Qed.

Lemma length_getRows (table : t) :
  List.length (getRows table) = getRowCount table.
Proof. unfold getRows. now rewrite length_map, length_seq. Qed.

Lemma nth_getRows i (table : t) :
  i < getRowCount table -> nth i (getRows table) [] = row_at i table.
Proof.
  intros H. unfold getRows.
  rewrite (nth_indep _ [] (row_at 0 table))
    by (now rewrite length_map, length_seq).
  rewrite (map_nth (fun i => row_at i table)).
  now rewrite seq_nth.
Qed.

(** Column view of writing array rows from index [k] on. *)
Lemma setRows_from_cons rows k name col rest :
  setRows_from k (map RowArray rows) ((name, col) :: rest)
  = (name, write_from k (map (hd CUndefined) rows) col)
      :: setRows_from k (map RowArray (map (@tl _) rows)) rest.
Proof.
  revert k col rest. induction rows as [|r rows IH]; intros k col rest.
  - reflexivity.
  - simpl. rewrite IH. reflexivity.
Qed.

Lemma setRows_from_nil k rows : setRows_from k (map RowArray rows) [] = [].
Proof.
  revert k. induction rows as [|r rows IH]; intros k; simpl; auto.
Qed.

(** Writing as many rows as the table has, from index 0, replaces its
    contents by those rows. *)
Lemma setRows_from_all rows (table : t) :
  Forall (fun c => List.length (snd c) <= List.length rows) table ->
  setRows_from 0 (map RowArray rows) table
  = table_of_rows (getColumnNames table) rows.
Proof.
  revert rows. induction table as [|[name col] rest IH]; intros rows H.
  - apply setRows_from_nil.
  - rewrite setRows_from_cons. simpl.
    apply Forall_cons_iff in H. destruct H as [Hc Hrest].
    simpl in Hc. rewrite write_from_all by (now rewrite length_map).
    f_equal. apply IH. now rewrite length_map.
Qed.

Lemma getColumnNames_table_of_rows names rows :
  getColumnNames (table_of_rows names rows) = names.
Proof.
  revert rows. induction names as [|name names IH]; intros rows; simpl.
  - reflexivity.
  - f_equal. apply IH.
Qed.

Lemma all_length_table_of_rows names rows :
  Forall (fun c => List.length (snd c) = List.length rows)
    (table_of_rows names rows).
Proof.
  revert rows. induction names as [|name names IH]; intros rows; simpl.
  - constructor.
  - constructor; [simpl; apply length_map|].
    specialize (IH (map (@tl _) rows)). now rewrite length_map in IH.
Qed.

Lemma getRowCount_table_of_rows names rows :
  names <> [] -> getRowCount (table_of_rows names rows) = List.length rows.
Proof.
  intros H. apply all_length_getRowCount.
  - apply all_length_table_of_rows.
  - destruct names; [congruence | discriminate].
Qed.

Lemma row_at_table_of_rows names rows i :
  i < List.length rows ->
  List.length (nth i rows []) = List.length names ->
  row_at i (table_of_rows names rows) = nth i rows [].
Proof.
  revert rows. induction names as [|name names IH]; intros rows Hi Hlen.
  - simpl in *. destruct (nth i rows []); [reflexivity | discriminate].
  - cbn [table_of_rows]. rewrite row_at_cons.
    assert (Hhd : array_get i (map (hd CUndefined) rows)
                  = hd CUndefined (nth i rows [])).
    { unfold array_get.
      rewrite (nth_indep _ CUndefined (hd CUndefined []))
        by (now rewrite length_map).
      now rewrite (map_nth (hd CUndefined)). }
    assert (Htl : nth i (map (@tl _) rows) [] = tl (nth i rows [])).
    { change (@nil CellType) with (tl (@nil CellType)) at 1.
      now rewrite (map_nth (@tl _)). }
    rewrite Hhd, IH.
    + rewrite Htl. destruct (nth i rows []); [discriminate | reflexivity].
    + now rewrite length_map.
    + rewrite Htl. destruct (nth i rows []); [discriminate|].
      simpl in *. lia.
Qed.

(** The rows of [table_of_rows] are the rows it was built from. *)
Lemma getRows_table_of_rows names rows :
  Forall (fun r => List.length r = List.length names) rows ->
  names <> [] \/ rows = [] ->
  getRows (table_of_rows names rows) = rows.
Proof.
  intros Hlen Hne. destruct names as [|name names].
  - destruct Hne as [Hne|Hne]; [now elim Hne | now subst rows].
  - unfold getRows.
    rewrite getRowCount_table_of_rows by discriminate.
    apply nth_ext with (d := []) (d' := []).
    + now rewrite length_map, length_seq.
    + intros i Hi. rewrite length_map, length_seq in Hi.
      rewrite (nth_indep _ [] (row_at 0 (table_of_rows (name :: names) rows)))
        by (now rewrite length_map, length_seq).
      rewrite (map_nth (fun i => row_at i _)). rewrite seq_nth by assumption.
      simpl (0 + i). apply row_at_table_of_rows; [assumption|].
      rewrite Forall_forall in Hlen. apply Hlen. now apply nth_In.
Qed.

(** A uniform table is the table of its own rows. *)
Lemma table_of_rows_getRows_aux n (table : t) :
  Forall (fun c => List.length (snd c) = n) table ->
  table_of_rows (getColumnNames table)
    (map (fun i => row_at i table) (seq 0 n)) = table.
Proof.
  induction table as [|[name col] rest IH]; intros H.
  - reflexivity.
  - apply Forall_cons_iff in H. destruct H as [Hc Hrest]. simpl in Hc.
    subst n. cbn [getColumnNames obj_keys map fst table_of_rows].
    rewrite !map_map. cbn [row_at map snd hd tl].
    rewrite map_nth_seq. apply (f_equal (cons (name, col))).
    apply IH. assumption.
Qed.

Lemma table_of_rows_getRows (table : t) :
  uniform table ->
  table_of_rows (getColumnNames table) (getRows table) = table.
Proof. intros H. unfold getRows. now apply table_of_rows_getRows_aux. Qed.

Lemma uniform_table_of_rows names rows : uniform (table_of_rows names rows).
Proof.
  apply (all_length_uniform (List.length rows)).
  apply all_length_table_of_rows.
Qed.

Lemma deleteColumns_all (table : t) : fst (deleteColumns None table) = [].
Proof.
  unfold deleteColumns. destruct (getColumnNames table) eqn:E.
  - destruct table; [reflexivity | discriminate].
  - rewrite <- E. simpl. apply obj_delete_keys.
Qed.

Lemma getColumnNames_deleteRows (table : t) :
  getColumnNames (deleteRows table) = getColumnNames table.
Proof.
  unfold getColumnNames, obj_keys, deleteRows. rewrite map_map.
  reflexivity.
Qed.

(** Replacing the rows of a table. *)
Lemma setRows_deleteRows rows (table : t) :
  setRows (map RowArray rows) None (deleteRows table)
  = table_of_rows (getColumnNames table) rows.
Proof.
  unfold setRows.
  assert (Hz : Forall (fun c => List.length (snd c) = 0) (deleteRows table)).
  { unfold deleteRows. apply Forall_forall. intros c Hc.
    apply in_map_iff in Hc. now destruct Hc as (c' & <- & _). }
  assert (Hc : getRowCount (deleteRows table) = 0).
  { destruct (deleteRows table) eqn:E; [reflexivity|].
    rewrite <- E in *. apply all_length_getRowCount; [assumption|].
    rewrite E. discriminate. }
  rewrite Hc, setRows_from_all, getColumnNames_deleteRows; [reflexivity|].
  eapply Forall_impl; [|exact Hz]. simpl. intros c ->. lia.
Qed.

(** Writing rows one by one at consecutive indices. *)
Lemma fold_setRows (r : nat -> Row) k n (table : t) :
  fold_left (fun tb i => setRows [RowArray (r i)] (Some i) tb)
    (seq k n) table
  = setRows_from k (map RowArray (map r (seq k n))) table.
Proof.
  revert k table. induction n as [|n IH]; intros k table; simpl.
  - reflexivity.
  - now rewrite IH.
Qed.

(** Writing cells of one column, row by row. *)
Lemma fold_setCell_started (f : nat -> nat) (g : nat -> CellType) l name
    (table : t) c0 :
  fold_left (fun tb i => setCell (f i) name (g i) tb) l
    (obj_set name c0 table)
  = obj_set name (fold_left (fun c i => array_set (f i) (g i) c) l c0) table.
Proof.
  revert c0. induction l as [|i l IH]; intros c0; simpl.
  - reflexivity.
  - unfold setCell at 2. rewrite obj_get_set_same, obj_set_set. apply IH.
Qed.

Lemma fold_setCell (f : nat -> nat) (g : nat -> CellType) l name (table : t) :
  l <> [] ->
  fold_left (fun tb i => setCell (f i) name (g i) tb) l table
  = obj_set name
      (fold_left (fun c i => array_set (f i) (g i) c) l
         (match obj_get name table with Some c => c | None => [] end))
      table.
Proof.
  destruct l as [|i l]; [congruence|]. intros _. simpl.
  unfold setCell at 2. apply fold_setCell_started.
Qed.

(** The table of a single row, built from the row as an object. *)
Lemma table_of_one_row (table : t) i :
  table_of_rows (getColumnNames table) [row_at i table]
  = map (fun c => (fst c, [array_get i (snd c)])) table.
Proof.
  induction table as [|[name col] rest IH]; simpl; [reflexivity|].
  f_equal. exact IH.
Qed.

Lemma setRowObject_new (row : RowObject) :
  js_ordered (map fst row) ->
  setRowObject 0 row [] = map (fun kv => (fst kv, [snd kv])) row.
Proof.
  unfold setRowObject.
  induction row as [|[k v] row IH] using rev_ind; intros Hord.
  - reflexivity.
  - rewrite map_app in Hord. simpl in Hord.
    apply js_ordered_snoc in Hord. destruct Hord as (Hord & Hn & Hidx).
    rewrite fold_left_app. rewrite IH by assumption.
    set (o := map (fun kv : string * CellType => (fst kv, [snd kv])) row).
    assert (Hkeys : obj_keys o = map fst row).
    { unfold obj_keys, o. rewrite map_map. reflexivity. }
    assert (Hnone : obj_get k o = None).
    { apply obj_get_None. now rewrite Hkeys. }
    cbn [fold_left fst snd]. rewrite Hnone.
    rewrite map_app. fold o. cbn [map fst snd array_set].
    apply obj_set_append.
    + apply obj_get_None. exact Hnone.
    + intros n En k' Hk'. apply (Hidx n En).
      unfold obj_keys, o in Hk'. rewrite map_map in Hk'. exact Hk'.
Qed.

Lemma new_subtable (table : t) i :
  js_ordered (getColumnNames table) ->
  i < getRowCount table ->
  setRows
    [RowObj (match getRowObject i table with Some r => r | None => [] end)]
    None DataTable.new
  = table_of_rows (getColumnNames table) [row_at i table].
Proof.
  intros Hord Hi. unfold getRowObject.
  apply Nat.ltb_lt in Hi. rewrite Hi.
  unfold setRows, DataTable.new. simpl.
  rewrite setRowObject_new.
  - rewrite map_map. simpl. symmetry. apply table_of_one_row.
  - rewrite map_map. simpl. exact Hord.
Qed.

Lemma append_row_from names rows row :
  setRows_from (List.length rows) (map RowArray [row])
    (table_of_rows names rows)
  = table_of_rows names (rows ++ [row]).
Proof.
  revert rows row.
  induction names as [|name names IH]; intros rows row.
  - reflexivity.
  - cbn [table_of_rows]. rewrite setRows_from_cons. cbn [map hd].
    assert (Hcol : write_from (List.length rows) [hd CUndefined row]
                     (map (hd CUndefined) rows)
                   = map (hd CUndefined) (rows ++ [row])).
    { rewrite write_from_at_end by (now rewrite length_map).
      now rewrite map_app. }
    assert (Hrest : setRows_from (List.length rows) (map RowArray [tl row])
                      (table_of_rows names (map (@tl _) rows))
                    = table_of_rows names (map (@tl _) (rows ++ [row]))).
    { rewrite map_app. change (map (@tl _) [row]) with [tl row].
      rewrite <- IH. now rewrite length_map. }
    rewrite Hcol. cbn [map] in Hrest. rewrite Hrest. reflexivity.
Qed.

Lemma append_row names rows row :
  names <> [] ->
  setRows [RowArray row] None (table_of_rows names rows)
  = table_of_rows names (rows ++ [row]).
Proof.
  intros Hne. unfold setRows.
  rewrite getRowCount_table_of_rows by assumption.
  apply append_row_from.
Qed.

Lemma hasColumns_one name (table : t) :
  hasColumns [name] table = obj_has name table.
Proof. unfold hasColumns. simpl. now rewrite andb_true_r. Qed.

Lemma fold_rows (key : nat -> string) (table : t) l acc :
  Forall (fun i => i < getRowCount table) l ->
  fold_left
    (fun columns i =>
       match getRow i table with
       | Some row => obj_set (key i) row columns
       | None => columns
       end) l acc
  = fold_left (fun o kv => obj_set (fst kv) (snd kv) o)
      (map (fun i => (key i, row_at i table)) l) acc.
Proof.
  revert acc. induction l as [|i l IH]; intros acc Hl; cbn [fold_left map].
  - reflexivity.
  - apply Forall_cons_iff in Hl. destruct Hl as [Hi Hl].
    assert (Hget : getRow i table = Some (row_at i table)).
    { unfold getRow. apply Nat.ltb_lt in Hi. now rewrite Hi. }
    rewrite Hget. now apply IH.
Qed.

Lemma seq_below n : Forall (fun i => i < n) (seq 0 n).
Proof. apply Forall_forall. intros i Hi. apply in_seq in Hi. lia. Qed.

End TableFacts.

Module SampleFacts.
Import DataTable.

Lemma uniform_xy : uniform Samples.xy.
Proof. repeat constructor. Qed.

Lemma wf_xy : wf Samples.xy.
Proof.
  split; [|exact uniform_xy].
  apply js_ordered_plain_names.
  - repeat constructor; simpl; intuition discriminate.
  - repeat constructor.
Qed.

Lemma wf_aba : wf Samples.aba.
Proof.
  split.
  - apply js_ordered_plain_names.
    + repeat constructor; simpl; intuition discriminate.
    + repeat constructor.
  - repeat constructor.
Qed.

Lemma wf_mixed_k : wf Samples.mixed_k.
Proof.
  split.
  - apply js_ordered_plain_names.
    + repeat constructor; simpl; intuition discriminate.
    + repeat constructor.
  - repeat constructor.
Qed.

Lemma wf_nan_k : wf Samples.nan_k.
Proof.
  split.
  - apply js_ordered_plain_names.
    + repeat constructor; simpl; intuition discriminate.
    + repeat constructor.
  - repeat constructor.
Qed.

End SampleFacts.

(* ------------------------------------------------------------------ *)
(** ** Array.prototype.sort *)

Section ArraySortFacts.
Context {A : Type} (comparefn : A -> A -> Z).

Lemma sort_insert_perm x l : Permutation (sort_insert comparefn x l) (x :: l).
Proof.
  induction l as [|y l IH]; simpl.
  - apply Permutation_refl.
  - destruct (0 <? comparefn x y)%Z.
    + eapply perm_trans; [apply perm_skip, IH | apply perm_swap].
    + apply Permutation_refl.
Qed.

Lemma Array_sort_perm l : Permutation (Array_sort comparefn l) l.
Proof.
  induction l as [|x l IH]; simpl.
  - constructor.
  - eapply perm_trans; [apply sort_insert_perm | now apply perm_skip].
Qed.

Lemma Array_sort_length l :
  List.length (Array_sort comparefn l) = List.length l.
Proof. apply Permutation_length, Array_sort_perm. Qed.

Variable before : A -> A -> Prop.

Local Abbreviation justified := (justified comparefn before).
Local Abbreviation precedes := (precedes comparefn).

Lemma sort_insert_justified x l :
  Forall (before x) l ->
  ForallOrdPairs justified l ->
  ForallOrdPairs justified (sort_insert comparefn x l).
Proof.
  induction l as [|y l IH]; intros Hx Hl; simpl.
  - constructor; constructor.
  - apply Forall_cons_iff in Hx. destruct Hx as [Hxy Hx].
    inversion Hl as [|? ? Hy Hl']; subst.
    destruct (0 <? comparefn x y)%Z eqn:E.
    + constructor.
      * apply Forall_forall. intros z Hz.
        apply (Permutation_in _ (sort_insert_perm x l)) in Hz.
        destruct Hz as [<-|Hz].
        -- right. now apply Z.ltb_lt.
        -- rewrite Forall_forall in Hy. now apply Hy.
      * now apply IH.
    + constructor; [|assumption].
      constructor; [now left|].
      apply Forall_forall. intros z Hz. left.
      rewrite Forall_forall in Hx. now apply Hx.
Qed.

Lemma Array_sort_justified l :
  ForallOrdPairs before l ->
  ForallOrdPairs justified (Array_sort comparefn l).
Proof.
  induction 1 as [|x l Hx Hl IH]; simpl.
  - constructor.
  - apply sort_insert_justified; [|assumption].
    apply Forall_forall. intros z Hz.
    apply (Permutation_in _ (Array_sort_perm l)) in Hz.
    rewrite Forall_forall in Hx. now apply Hx.
Qed.

(** With a comparator that is transitive on the elements, the result is
    in comparator order throughout. *)
Hypothesis antisym : forall x y, (0 < comparefn x y)%Z -> precedes y x.

Lemma sort_insert_sorted (universe : list A) x l :
  (forall a b c, In a universe -> In b universe -> In c universe ->
                 precedes a b -> precedes b c -> precedes a c) ->
  In x universe -> incl l universe ->
  StronglySorted precedes l ->
  StronglySorted precedes (sort_insert comparefn x l).
Proof.
  intros Htrans Hx. induction l as [|y l IH]; intros Hincl Hs; simpl.
  - constructor; constructor.
  - inversion Hs as [|? ? Hs' Hy]; subst.
    assert (Hy_in : In y universe) by (apply Hincl; now left).
    assert (Hl_in : incl l universe)
      by (intros z Hz; apply Hincl; now right).
    destruct (0 <? comparefn x y)%Z eqn:E.
    + constructor; [now apply IH|].
      apply Forall_forall. intros z Hz.
      apply (Permutation_in _ (sort_insert_perm x l)) in Hz.
      destruct Hz as [<-|Hz].
      * apply antisym. now apply Z.ltb_lt.
      * rewrite Forall_forall in Hy. now apply Hy.
    + apply Z.ltb_ge in E. constructor; [assumption|].
      constructor; [exact E|].
      apply Forall_forall. intros z Hz.
      rewrite Forall_forall in Hy.
      apply (Htrans x y z); auto.
Qed.

Lemma Array_sort_sorted l :
  (forall a b c, In a l -> In b l -> In c l ->
                 precedes a b -> precedes b c -> precedes a c) ->
  StronglySorted precedes (Array_sort comparefn l).
Proof.
  intros Htrans.
  assert (H : forall l', incl l' l ->
                         StronglySorted precedes (Array_sort comparefn l')).
  { induction l' as [|x l' IH]; intros Hincl; simpl.
    - constructor.
    - apply (sort_insert_sorted l); auto.
      + apply Hincl. now left.
      + intros z Hz. apply (Permutation_in _ (Array_sort_perm l')) in Hz.
        apply Hincl. now right.
      + apply IH. intros z Hz. apply Hincl. now right. }
  apply H. apply incl_refl.
Qed.

(** An array whose elements the comparator never puts after a later
    one is left as it is. *)
Lemma Array_sort_unchanged l :
  ForallOrdPairs precedes l -> Array_sort comparefn l = l.
Proof.
  induction 1 as [|x l Hx Hl IH]; simpl.
  - reflexivity.
  - rewrite IH. destruct l as [|y l]; [reflexivity|]. simpl.
    apply Forall_cons_iff in Hx. destruct Hx as [Hxy _].
    unfold precedes in Hxy.
    replace (0 <? comparefn x y)%Z with false
      by (symmetry; apply Z.ltb_ge; exact Hxy).
    reflexivity.
Qed.

End ArraySortFacts.

(* ------------------------------------------------------------------ *)
(** ** SortModifier *)

Module SortFacts.
Import DataTable TableSpec TableFacts SortModifier SortSpec.

(** [if (orderInColumn)]: a missing option and the empty name count as
    unset. *)
Lemma orderIn_unset options :
  orderInColumn options = None \/ orderInColumn options = Some "" ->
  orderIn options = None.
Proof. unfold orderIn. intros [-> | ->]; reflexivity. Qed.

Lemma orderIn_set options name :
  orderInColumn options = Some name -> name <> "" ->
  orderIn options = Some name.
Proof.
  unfold orderIn. intros -> Hne. simpl.
  apply String.eqb_neq in Hne. now rewrite Hne.
Qed.

Lemma falsy_or0 cell : falsy cell -> or0 cell = CNumber 0.
Proof. intros [->|[->|[->| ->]]]; reflexivity. Qed.

Lemma references_eq (table : t) :
  map (fun ir => mkRowReference (fst ir) (snd ir))
    (combine (seq 0 (getRowCount table)) (getRows table))
  = references table.
Proof.
  unfold getRows, references. rewrite combine_seq_map, map_map.
  reflexivity.
Qed.

Lemma indexOf_from_absent_string name names i :
  ~ In name names -> indexOf_from String.eqb name names i = (-1)%Z.
Proof.
  revert i. induction names as [|x names IH]; intros i Hn; simpl.
  - reflexivity.
  - destruct (String.eqb_spec x name) as [->|Hne].
    + exfalso. apply Hn. now left.
    + apply IH. intros H. apply Hn. now right.
Qed.

Lemma indexOf_from_nonneg {X Y : Type} (eqb : X -> Y -> bool) y l i :
  (0 <= i)%Z ->
  indexOf_from eqb y l i = (-1)%Z \/ (i <= indexOf_from eqb y l i)%Z.
Proof.
  revert i. induction l as [|x l IH]; intros i Hi; simpl.
  - now left.
  - destruct (eqb x y).
    + right. lia.
    + destruct (IH (i + 1)%Z) as [H|H]; [lia | now left | right; lia].
Qed.

(** The index found for a column name that the table has selects, in
    every row, the cell of that column. *)
Lemma indexOf_column name (table : t) :
  In name (getColumnNames table) ->
  exists k column,
    indexOf String.eqb name (getColumnNames table) = Z.of_nat k
    /\ getColumn name table = Some column
    /\ In (name, column) table
    /\ forall i, array_get k (row_at i table) = array_get i column.
Proof.
  unfold indexOf, getColumn.
  assert (H : forall (i : nat),
             In name (getColumnNames table) ->
             exists k column,
               indexOf_from String.eqb name (getColumnNames table)
                 (Z.of_nat i) = Z.of_nat (i + k)
               /\ obj_get name table = Some column
               /\ In (name, column) table
               /\ forall j, array_get k (row_at j table) = array_get j column).
  { induction table as [|[name' col] rest IH]; intros i Hin.
    - destruct Hin.
    - simpl. destruct (String.eqb_spec name' name) as [->|Hne].
      + exists 0, col.
        split; [f_equal; lia|].
        split; [reflexivity | split; [now left | reflexivity]].
      + destruct Hin as [E|Hin]; [simpl in E; congruence|].
        destruct (IH (S i) Hin) as (k & column & Hk & Hget & Hin' & Hcell).
        exists (S k), column.
        split; [|split; [exact Hget | split; [now right | exact Hcell]]].
        replace (Z.of_nat i + 1)%Z with (Z.of_nat (S i)) by lia.
        rewrite Hk. f_equal. lia. }
  intros Hin. destruct (H 0 Hin) as (k & column & Hk & Hrest).
  exists k, column. split; [exact Hk | exact Hrest].
Qed.

Lemma length_references (table : t) :
  List.length (references table) = getRowCount table.
Proof. unfold references. now rewrite length_map, length_seq. Qed.

Lemma references_rows (table : t) :
  map row (references table) = getRows table.
Proof. unfold references, getRows. now rewrite map_map. Qed.

Lemma references_index (table : t) :
  map index (references table) = seq 0 (getRowCount table).
Proof. unfold references. rewrite map_map. simpl. apply map_id. Qed.

Lemma references_row_index (table : t) r :
  In r (references table) ->
  row r = row_at (index r) table /\ index r < getRowCount table.
Proof.
  unfold references. rewrite in_map_iff. intros (i & <- & Hi).
  apply in_seq in Hi. simpl. split; [reflexivity | lia].
Qed.

Lemma references_before (table : t) :
  ForallOrdPairs (fun a b => index a < index b) (references table).
Proof.
  unfold references. generalize 0 as k.
  induction (getRowCount table) as [|n IH]; intros k; simpl.
  - constructor.
  - constructor; [|apply IH].
    apply Forall_forall. intros r Hr. apply in_map_iff in Hr.
    destruct Hr as (i & <- & Hi). apply in_seq in Hi. simpl. lia.
Qed.

Section WithEngine.
Variable StringToNumber : string -> option Z.

Local Abbreviation ascending := (ascending StringToNumber).
Local Abbreviation descending := (descending StringToNumber).
Local Abbreviation compare_of := (compare_of StringToNumber).
Local Abbreviation modify := (SortModifier.modify StringToNumber).
Local Abbreviation sortedReferences :=
  (SortModifier.sortedReferences StringToNumber).
Local Abbreviation compareRows := (SortSpec.compareRows StringToNumber).

Lemma compare_of_antisym d a b :
  (0 < compare_of d a b)%Z -> (compare_of d b a < 0)%Z.
Proof.
  destruct d; simpl; unfold SortModifier.ascending, SortModifier.descending,
    js_gt, js_lt.
  - destruct (js_compare StringToNumber (or0 a) (or0 b)) as [[|]|];
      destruct (js_compare StringToNumber (or0 b) (or0 a)) as [[|]|]; lia.
  - destruct (js_compare StringToNumber (or0 a) (or0 b)) as [[|]|];
      destruct (js_compare StringToNumber (or0 b) (or0 a)) as [[|]|]; lia.
Qed.

Lemma compare_of_or0 d a b :
  compare_of d a b = compare_of d (or0 a) (or0 b).
Proof.
  assert (H : forall c, or0 (or0 c) = or0 c).
  { intros c. unfold or0. destruct (truthy c) eqn:E; [now rewrite E|].
    reflexivity. }
  destruct d; simpl; unfold SortModifier.ascending, SortModifier.descending;
    now rewrite !H.
Qed.

Lemma compare_of_falsy d a b :
  falsy a -> falsy b -> compare_of d a b = 0%Z.
Proof.
  intros Ha Hb. rewrite compare_of_or0.
  rewrite (falsy_or0 a Ha), (falsy_or0 b Hb). now destruct d.
Qed.

Lemma sortedReferences_present options (table : t) :
  In (orderByColumn options) (getColumnNames table) ->
  sortedReferences options table
  = Array_sort (compareRows options table) (references table).
Proof.
  intros Hin. unfold SortModifier.sortedReferences. rewrite references_eq.
  destruct (indexOf_column _ _ Hin) as (k & column & Hk & _).
  rewrite Hk.
  replace (Z.of_nat k =? -1)%Z with false by (symmetry; apply Z.eqb_neq; lia).
  unfold SortSpec.compareRows, key. rewrite Hk. reflexivity.
Qed.

Lemma sortedReferences_absent options (table : t) :
  ~ In (orderByColumn options) (getColumnNames table) ->
  sortedReferences options table = references table.
Proof.
  intros Hn. unfold SortModifier.sortedReferences. rewrite references_eq.
  unfold indexOf. rewrite indexOf_from_absent_string by assumption.
  reflexivity.
Qed.

Lemma sortedReferences_perm options (table : t) :
  Permutation (sortedReferences options table) (references table).
Proof.
  unfold SortModifier.sortedReferences. rewrite references_eq.
  destruct (_ =? -1)%Z; [apply Permutation_refl | apply Array_sort_perm].
Qed.

Lemma length_sortedReferences options (table : t) :
  List.length (sortedReferences options table) = getRowCount table.
Proof.
  rewrite (Permutation_length (sortedReferences_perm options table)).
  apply length_references.
Qed.

Lemma sortedReferences_rows options (table : t) :
  Forall (fun r => List.length r = List.length (getColumnNames table))
    (map row (sortedReferences options table)).
Proof.
  apply Forall_forall. intros r Hr. apply in_map_iff in Hr.
  destruct Hr as (ref & <- & Hin).
  apply (Permutation_in _ (sortedReferences_perm options table)) in Hin.
  apply references_row_index in Hin. destruct Hin as [-> _].
  rewrite length_row_at. unfold getColumnNames, obj_keys.
  now rewrite length_map.
Qed.

Lemma modify_events options (table : t) :
  map ev_type (snd (modify options table)) = ["execute"; "afterExecute"]
  /\ map ev_table (snd (modify options table))
     = [Some table; Some (fst (modify options table))].
Proof. split; reflexivity. Qed.

(** Without [orderInColumn], the rows of the table are replaced by the
    rows of the references, in their order. *)
Lemma modify_rows options (table : t) :
  orderIn options = None -> uniform table ->
  fst (modify options table)
  = table_of_rows (getColumnNames table)
      (map row (sortedReferences options table)).
Proof.
  intros Hmode Huni. unfold SortModifier.modify. rewrite Hmode. simpl fst.
  rewrite (fold_setRows
             (fun i => row (nth i (sortedReferences options table)
                              (mkRowReference 0 [])))).
  rewrite (map_nth_seq_refs row).
  apply setRows_from_all.
  rewrite length_map, length_sortedReferences.
  eapply Forall_impl; [|exact Huni]. simpl. intros c Hc. lia.
Qed.

Lemma modify_ranks options name (table : t) :
  orderIn options = Some name -> getRowCount table <> 0 ->
  fst (modify options table)
  = obj_set name
      (rankColumn (sortedReferences options table)
         (match getColumn name table with Some c => c | None => [] end))
      table.
Proof.
  intros Hmode Hn. unfold SortModifier.modify. rewrite Hmode. simpl fst.
  rewrite (fold_setCell
             (fun i => index (nth i (sortedReferences options table)
                                (mkRowReference 0 [])))
             (fun i => CNumber (Z.of_nat i))).
  - reflexivity.
  - rewrite length_sortedReferences.
    destruct (getRowCount table); [congruence | discriminate].
Qed.

Lemma modify_no_rows options (table : t) :
  getRowCount table = 0 -> fst (modify options table) = table.
Proof.
  intros Hn. unfold SortModifier.modify.
  rewrite length_sortedReferences, Hn. simpl.
  now destruct (orderIn options).
Qed.

Lemma rankColumn_spec options (table : t) column :
  List.length column <= getRowCount table ->
  let refs := sortedReferences options table in
  let ranks := rankColumn refs column in
  (getRowCount table <> 0 -> List.length ranks = getRowCount table)
  /\ forall p, p < getRowCount table ->
       array_get (index (nth p refs (mkRowReference 0 []))) ranks
       = CNumber (Z.of_nat p).
Proof.
  intros Hlen refs ranks.
  assert (Hperm : Permutation
                    (map (fun i => index (nth i refs (mkRowReference 0 [])))
                       (seq 0 (List.length refs)))
                    (seq 0 (getRowCount table))).
  { rewrite (map_nth_seq_refs index). rewrite <- references_index.
    apply Permutation_map, sortedReferences_perm. }
  assert (Hlr : List.length refs = getRowCount table)
    by apply length_sortedReferences.
  split.
  - intros Hn. unfold ranks, rankColumn.
    rewrite fold_array_set_length.
    rewrite (list_max_image_bound _ _ (getRowCount table)) by assumption.
    lia.
  - intros p Hp. unfold ranks, rankColumn.
    apply (fold_array_set_written
             (fun i => index (nth i refs (mkRowReference 0 [])))
             (fun i => CNumber (Z.of_nat i))).
    + eapply Permutation_NoDup; [apply Permutation_sym, Hperm|].
      apply seq_NoDup.
    + apply in_seq. lia.
Qed.

(** The references as they are when the column is missing write each
    row back to its place, or each row its own index. *)
Lemma rankColumn_references (table : t) column :
  List.length column <= getRowCount table ->
  rankColumn (references table) column
  = map (fun i => CNumber (Z.of_nat i)) (seq 0 (getRowCount table)).
Proof.
  intros Hlen. unfold rankColumn. rewrite length_references.
  assert (H : forall k n c,
             fold_left
               (fun c i =>
                  array_set (index (nth i (references table)
                                      (mkRowReference 0 [])))
                    (CNumber (Z.of_nat i)) c) (seq k n) c
             = if k + n <=? getRowCount table
               then write_from k
                      (map (fun i => CNumber (Z.of_nat i)) (seq k n)) c
               else fold_left
                      (fun c i =>
                         array_set (index (nth i (references table)
                                             (mkRowReference 0 [])))
                           (CNumber (Z.of_nat i)) c) (seq k n) c).
  { intros k n. revert k. induction n as [|n IH]; intros k c.
    - simpl. now destruct (_ <=? _).
    - destruct (k + S n <=? getRowCount table) eqn:E; [|reflexivity].
      apply Nat.leb_le in E. simpl. rewrite IH.
      replace (S k + n <=? getRowCount table) with true
        by (symmetry; apply Nat.leb_le; lia).
      f_equal. f_equal. unfold references.
      rewrite (nth_indep _ _ (mkRowReference 0 (row_at 0 table)))
        by (rewrite length_map, length_seq; lia).
      rewrite (map_nth (fun i => mkRowReference i (row_at i table))).
      rewrite seq_nth by lia. reflexivity. }
  rewrite H. simpl. rewrite Nat.leb_refl.
  apply write_from_all. now rewrite length_map, length_seq.
Qed.

End WithEngine.

End SortFacts.

Module SortClaims.
Import DataTable TableSpec TableFacts SortModifier SortSpec SortFacts.
Import SampleFacts.

(** The example of the specification: the values 3, 1, 2 are taken in
    the order of the rows 1, 2, 0 ascending and 0, 2, 1 descending; equal
    values keep their order in both directions. *)
Example sort_3_1_2 :
  map index (sortedReferences Samples.noNumber
               (mkOptions "Order" asc "x" None) Samples.xy) = [1; 2; 0]
  /\ map index (sortedReferences Samples.noNumber
                  (mkOptions "Order" desc "x" None) Samples.xy) = [0; 2; 1]
  /\ (forall d,
        map index (sortedReferences Samples.noNumber
                     (mkOptions "Order" d "x" None)
                     [("x", [CNumber 1; CNumber 1; CNumber 2])])
        = match d with asc => [0; 1; 2] | desc => [2; 0; 1] end).
Proof. repeat split. intros []; reflexivity. Qed.

(** C8 as stated fails: the table [xy] has no column "q"; sorting by "q"
    with [orderInColumn] set to "rank" adds the column "rank". *)
Lemma modify_missing_column_writes_ranks :
  ~ In "q" (getColumnNames Samples.xy)
  /\ fst (modify Samples.noNumber (mkOptions "Order" asc "q" (Some "rank"))
            Samples.xy)
     = Samples.xy ++ [("rank", [CNumber 0; CNumber 1; CNumber 2])]
  /\ fst (modify Samples.noNumber (mkOptions "Order" asc "q" (Some "rank"))
            Samples.xy)
     <> Samples.xy.
Proof.
  split; [|split].
  - simpl. intros [H|[H|[]]]; discriminate.
  - reflexivity.
  - discriminate.
Qed.

(** C8, amended: on a table without the column [orderByColumn] the
    references stay in row order.  With [orderInColumn] unset the table
    is returned as it was; with [orderInColumn] set, and at least one
    row, the named column is set to the row indices 0, 1, ... and no
    other column is touched.  The events execute and afterExecute are
    emitted in both cases. *)
Theorem modify_missing_column (StringToNumber : string -> option Z)
    (options : Options) (table : t) :
  uniform table ->
  ~ In (orderByColumn options) (getColumnNames table) ->
  let table' := fst (modify StringToNumber options table) in
  sortedReferences StringToNumber options table = references table
  /\ (orderInColumn options = None \/ orderInColumn options = Some "" ->
      table' = table)
  /\ (forall name, orderInColumn options = Some name -> name <> "" ->
        table'
        = if getRowCount table =? 0 then table
          else obj_set name
                 (map (fun i => CNumber (Z.of_nat i))
                    (seq 0 (getRowCount table))) table)
  /\ (forall name other,
        orderInColumn options = Some name -> name <> "" -> other <> name ->
        getColumn other table' = getColumn other table)
  /\ map ev_type (snd (modify StringToNumber options table))
     = ["execute"; "afterExecute"]
  /\ map ev_table (snd (modify StringToNumber options table))
     = [Some table; Some table'].
Proof.
  intros Huni Hn table'.
  pose proof (sortedReferences_absent StringToNumber options table Hn)
    as Hrefs.
  assert (Hranks : forall name, orderIn options = Some name ->
            table'
            = if getRowCount table =? 0 then table
              else obj_set name
                     (map (fun i => CNumber (Z.of_nat i))
                        (seq 0 (getRowCount table))) table).
  { intros name Hmode. unfold table'.
    destruct (getRowCount table =? 0) eqn:E.
    - apply Nat.eqb_eq in E. now apply modify_no_rows.
    - apply Nat.eqb_neq in E. rewrite (modify_ranks _ _ name) by assumption.
      rewrite Hrefs. rewrite rankColumn_references; [reflexivity|].
      destruct (getColumn name table) as [c|] eqn:Ec; [|simpl; lia].
      rewrite (uniform_column_length table name c) by assumption. lia. }
  split; [exact Hrefs|]. split; [|split; [|split; [|split]]].
  - intros Hmode. apply orderIn_unset in Hmode.
    unfold table'. rewrite modify_rows by assumption.
    rewrite Hrefs, references_rows. now apply table_of_rows_getRows.
  - intros name Hmode Hname. apply Hranks. now apply orderIn_set.
  - intros name other Hmode Hname Hne.
    rewrite (Hranks name (orderIn_set options name Hmode Hname)).
    destruct (getRowCount table =? 0); [reflexivity|].
    unfold getColumn. now apply obj_get_set_other.
  - reflexivity.
  - reflexivity.
Qed.

Lemma modify_missing_column_witness :
  uniform Samples.xy
  /\ ~ In "q" (getColumnNames Samples.xy)
  /\ fst (modify Samples.noNumber (mkOptions "Order" desc "q" None)
            Samples.xy) = Samples.xy.
Proof.
  assert (Hn : ~ In (orderByColumn (mkOptions "Order" desc "q" None))
                 (getColumnNames Samples.xy)).
  { simpl. intros [H|[H|[]]]; discriminate. }
  split; [exact uniform_xy|]. split; [exact Hn|].
  destruct (modify_missing_column Samples.noNumber
              (mkOptions "Order" desc "q" None) Samples.xy uniform_xy Hn)
    as (_ & Hsame & _).
  exact (Hsame (or_introl eq_refl)).
Defined.

(** C10: the comparators turn each of the four falsy values into [0],
    so two falsy cells compare as equal in both directions; a table
    whose [orderByColumn] holds only falsy cells keeps its rows in
    place whatever the direction. *)
Theorem falsy_cells_compare_equal (StringToNumber : string -> option Z)
    (options : Options) (table : t) (column : Column) :
  uniform table ->
  getColumn (orderByColumn options) table = Some column ->
  Forall falsy column ->
  (forall a b, falsy a -> falsy b ->
     or0 a = CNumber 0 /\ or0 b = CNumber 0
     /\ ascending StringToNumber a b = 0%Z
     /\ descending StringToNumber a b = 0%Z)
  /\ sortedReferences StringToNumber options table = references table
  /\ (orderInColumn options = None \/ orderInColumn options = Some "" ->
      fst (modify StringToNumber options table) = table).
Proof.
  intros Huni Hget Hfalsy.
  assert (Hin : In (orderByColumn options) (getColumnNames table)).
  { apply obj_get_In in Hget. unfold getColumnNames, obj_keys.
    apply in_map_iff. now exists (orderByColumn options, column). }
  assert (Hrefs : sortedReferences StringToNumber options table
                  = references table).
  { rewrite sortedReferences_present by assumption.
    apply Array_sort_unchanged. apply ForallPairs_ForallOrdPairs.
    destruct (indexOf_column _ _ Hin)
      as (k & column' & Hk & Hget' & _ & Hcell).
    rewrite Hget in Hget'. injection Hget' as <-.
    assert (Hkey : forall r, In r (references table) ->
                             falsy (key options table r)).
    { intros r Hr. apply references_row_index in Hr.
      destruct Hr as [Hrow _].
      unfold key. rewrite Hk, Nat2Z.id, Hrow, Hcell. unfold array_get.
      destruct (nth_in_or_default (index r) column CUndefined) as [H|H].
      - rewrite Forall_forall in Hfalsy. now apply Hfalsy.
      - rewrite H. now left. }
    intros a b Ha Hb. unfold precedes, compareRows.
    rewrite compare_of_falsy by auto. lia. }
  split; [|split; [exact Hrefs|]].
  - intros a b Ha Hb.
    split; [now apply falsy_or0|]. split; [now apply falsy_or0|].
    split.
    + exact (compare_of_falsy StringToNumber asc a b Ha Hb).
    + exact (compare_of_falsy StringToNumber desc a b Ha Hb).
  - intros Hmode. apply orderIn_unset in Hmode.
    rewrite modify_rows by assumption.
    rewrite Hrefs, references_rows. now apply table_of_rows_getRows.
Qed.

(** The example of the claim: a column holding false, 0 and the empty
    string, sorted in descending order. *)
Lemma falsy_cells_compare_equal_witness :
  uniform Samples.falsy_y
  /\ Forall falsy [CBoolean false; CNumber 0; CString ""]
  /\ fst (modify Samples.noNumber defaultOptions Samples.falsy_y)
     = Samples.falsy_y.
Proof.
  assert (Huni : uniform Samples.falsy_y) by (repeat constructor).
  assert (Hfalsy : Forall falsy [CBoolean false; CNumber 0; CString ""]).
  { apply Forall_cons; [right; left; reflexivity|].
    apply Forall_cons; [right; right; left; reflexivity|].
    apply Forall_cons; [right; right; right; reflexivity|].
    apply Forall_nil. }
  split; [exact Huni|]. split; [exact Hfalsy|].
  exact (proj2 (proj2
           (falsy_cells_compare_equal Samples.noNumber defaultOptions
              Samples.falsy_y [CBoolean false; CNumber 0; CString ""]
              Huni eq_refl Hfalsy))
           (or_introl eq_refl)).
Defined.

End SortClaims.

(* ------------------------------------------------------------------ *)
(** ** RangeModifier *)

Module RangeFacts.
Import DataTable TableSpec TableFacts RangeModifier RangeSpec.

Section WithEngine.
Variable StringToNumber : string -> option Z.

Lemma scanCell_spec strict r (table : t) col rows j :
  j < getRowCount table ->
  scanCell StringToNumber strict r table col rows j
  = if comparable (array_get j col)
       && negb (strict
                && negb (JSType_eqb (typeof (array_get j col))
                           (typeof (minValue r))))
       && js_ge StringToNumber (array_get j col) (minValue r)
       && js_le StringToNumber (array_get j col) (maxValue r)
    then rows ++ [row_at j table] else rows.
Proof.
  intros Hj. unfold scanCell, comparable, getRow.
  apply Nat.ltb_lt in Hj. rewrite Hj.
  destruct (typeof (array_get j col)); simpl; try reflexivity;
    destruct (strict && _); simpl; try reflexivity;
    destruct (js_ge _ _ _ && js_le _ _ _); reflexivity.
Qed.

Lemma scanRange_spec strict (table : t) rows r :
  uniform table ->
  scanRange StringToNumber strict table (getColumns table) rows r
  = rows ++ map (fun j => row_at j table) (matching StringToNumber strict table r).
Proof.
  intros Huni. unfold scanRange, matching.
  assert (Heq : forall v,
             in_range StringToNumber strict r v
             = negb (strict
                     && negb (JSType_eqb (typeof (minValue r))
                                (typeof (maxValue r))))
               && (comparable v
                   && negb (strict
                            && negb (JSType_eqb (typeof v)
                                       (typeof (minValue r))))
                   && js_ge StringToNumber v (minValue r)
                   && js_le StringToNumber v (maxValue r))).
  { intros v. unfold in_range, within, js_ge, js_le.
    destruct strict, (comparable v),
      (JSType_eqb (typeof (minValue r)) (typeof (maxValue r))),
      (JSType_eqb (typeof v) (typeof (minValue r))),
      (js_compare StringToNumber v (minValue r)) as [[|]|],
      (js_compare StringToNumber (maxValue r) v) as [[|]|];
      reflexivity. }
  destruct (strict
            && negb (JSType_eqb (typeof (minValue r)) (typeof (maxValue r))))
    eqn:Eskip.
  - replace (filter _ _) with (@nil nat); [now rewrite List.app_nil_r|].
    symmetry. apply filter_none.
    intros j _. now rewrite Heq.
  - unfold getColumns, cell_at, getColumn.
    destruct (obj_get (column r) table) as [col|] eqn:Ecol.
    + assert (Hlen : List.length col = getRowCount table).
      { apply obj_get_In in Ecol.
        unfold uniform in Huni. rewrite Forall_forall in Huni.
        exact (Huni _ Ecol). }
      rewrite Hlen.
      assert (H : forall l rows,
                 Forall (fun j => j < getRowCount table) l ->
                 fold_left (scanCell StringToNumber strict r table col) l rows
                 = rows ++ map (fun j => row_at j table)
                             (filter (fun j => in_range StringToNumber strict r
                                                 (array_get j col)) l)).
      { induction l as [|j l IH]; intros rows' Hl.
        - simpl. now rewrite List.app_nil_r.
        - apply Forall_cons_iff in Hl. destruct Hl as [Hj Hl].
          cbn [fold_left filter]. rewrite IH by assumption.
          rewrite scanCell_spec by assumption. rewrite (Heq (array_get j col)).
          cbn [negb andb].
          destruct (comparable (array_get j col) && _ && _ && _).
          + cbn [map]. now rewrite <- app_assoc.
          + reflexivity. }
      apply H. apply Forall_forall. intros j Hj. apply in_seq in Hj. lia.
    + simpl. replace (filter _ _) with (@nil nat);
        [now rewrite List.app_nil_r|].
      symmetry. apply filter_none.
      intros j _. unfold in_range, comparable.
      now rewrite array_get_nil.
Qed.

Lemma fold_scanRange strict (table : t) ranges rows :
  uniform table ->
  fold_left (scanRange StringToNumber strict table (getColumns table))
    ranges rows
  = rows ++ map (fun j => row_at j table)
              (flat_map (matching StringToNumber strict table) ranges).
Proof.
  intros Huni. revert rows.
  induction ranges as [|r ranges IH]; intros rows; simpl.
  - now rewrite List.app_nil_r.
  - rewrite IH, scanRange_spec by assumption.
    now rewrite map_app, app_assoc.
Qed.

Lemma modify_table options (table : t) :
  uniform table -> ranges options <> [] ->
  fst (modify StringToNumber options table)
  = table_of_rows (getColumnNames table)
      (map (fun j => row_at j table)
         (flat_map (matching StringToNumber (strict options) table) (ranges options))).
Proof.
  intros Huni Hne. unfold modify. simpl fst.
  destruct (ranges options) as [|r rs] eqn:E; [congruence|].
  rewrite fold_scanRange by assumption. simpl app.
  apply setRows_deleteRows.
Qed.

End WithEngine.

End RangeFacts.

Module RangeClaims.
Import DataTable TableSpec TableFacts RangeModifier RangeSpec RangeFacts.

(** C3 as stated fails for a cell that holds a nested table: compared as
    an object, it lies between the strings "" and "z", yet the row is not
    in the result, because [modify] passes over every cell that is not a
    boolean, a number or a string. *)
Lemma modify_skips_nested_table :
  uniform Samples.nested
  /\ getRows Samples.nested = [[CTable []]]
  /\ cell_at Samples.nested (column Samples.text_range) 0 = CTable []
  /\ within Samples.noNumber false Samples.text_range (CTable []) = true
  /\ getRows (fst (modify Samples.noNumber
                     (mkOptions "Range" false [Samples.text_range]) Samples.nested)) = [].
Proof. repeat split. repeat constructor. Qed.

(** C3, amended: with a non-empty list of ranges, the rows of the result
    are the rows of the table let through by the first range, then those
    let through by the second, and so on, each group in row order.  A
    range lets a row through exactly when the cell of the row in the
    column of the range is a boolean, a number or a string and lies
    within the bounds (with agreeing types under [strict]); hence a row
    is in the result if and only if some range lets it through, and it
    occurs once for every range that does. *)
Theorem modify_keeps_rows_in_range (StringToNumber : string -> option Z)
    (options : Options) (table : t) :
  uniform table ->
  ranges options <> [] ->
  let lets_through r j :=
    in_range StringToNumber (strict options) r (cell_at table (column r) j) in
  let kept :=
    flat_map (matching StringToNumber (strict options) table)
      (ranges options) in
  let table' := fst (modify StringToNumber options table) in
  getColumnNames table' = getColumnNames table
  /\ getRows table' = map (fun j => row_at j table) kept
  /\ (forall j, In j kept <->
                j < getRowCount table
                /\ exists r, In r (ranges options)
                             /\ comparable (cell_at table (column r) j) = true
                             /\ within StringToNumber (strict options) r
                                  (cell_at table (column r) j) = true)
  /\ (forall j, j < getRowCount table ->
        count_occ Nat.eq_dec kept j
        = List.length (filter (fun r => lets_through r j) (ranges options)))
  /\ map ev_type (snd (modify StringToNumber options table))
     = ["execute"; "afterExecute"].
Proof.
  intros Huni Hne lets_through kept table'.
  assert (Htable : table'
                   = table_of_rows (getColumnNames table)
                       (map (fun j => row_at j table) kept))
    by (now apply modify_table).
  assert (Hkept : forall j, In j kept -> j < getRowCount table).
  { intros j Hj. apply in_flat_map in Hj. destruct Hj as (r & _ & Hj).
    apply filter_In in Hj. destruct Hj as [Hj _]. apply in_seq in Hj. lia. }
  split; [|split; [|split; [|split]]].
  - rewrite Htable. apply getColumnNames_table_of_rows.
  - rewrite Htable. apply getRows_table_of_rows.
    + apply Forall_forall. intros row Hrow. apply in_map_iff in Hrow.
      destruct Hrow as (j & <- & _). rewrite length_row_at.
      unfold getColumnNames, obj_keys. now rewrite length_map.
    + destruct table as [|c rest]; [right | left; discriminate].
      destruct kept as [|j kept'] eqn:E; [reflexivity|].
      assert (H : j < getRowCount []) by (apply Hkept; now left).
      inversion H.
  - intros j. split.
    + intros Hj. split; [now apply Hkept|].
      apply in_flat_map in Hj. destruct Hj as (r & Hr & Hj).
      apply filter_In in Hj. destruct Hj as [_ Hj].
      apply andb_true_iff in Hj. now exists r.
    + intros (Hj & r & Hr & Hc & Hw). apply in_flat_map. exists r.
      split; [exact Hr|]. apply filter_In. split; [apply in_seq; lia|].
      unfold in_range. now rewrite Hc, Hw.
  - intros j Hj. unfold kept. rewrite count_occ_flat_map, length_filter_sum.
    f_equal. apply map_ext. intros r. unfold matching.
    rewrite count_occ_filter_seq.
    replace (j <? 0 + getRowCount table) with true
      by (symmetry; apply Nat.ltb_lt; lia).
    reflexivity.
  - reflexivity.
Qed.

(** The theorem applied to the table [xy] with the two overlapping
    ranges 1..2 and 2..3 on column "x": the row holding 2 is let through
    by both and occurs twice. *)
Lemma modify_keeps_rows_in_range_witness :
  uniform Samples.xy
  /\ getRows
       (fst (modify Samples.noNumber
               (mkOptions "Range" false
                  [mkRange "x" (CNumber 2) (CNumber 1);
                   mkRange "x" (CNumber 3) (CNumber 2)])
               Samples.xy))
     = [[CNumber 1; CString "a"]; [CNumber 2; CString "b"];
        [CNumber 3; CString "c"]; [CNumber 2; CString "b"]].
Proof.
  split; [exact SampleFacts.uniform_xy|].
  destruct (modify_keeps_rows_in_range Samples.noNumber
              (mkOptions "Range" false
                 [mkRange "x" (CNumber 2) (CNumber 1);
                  mkRange "x" (CNumber 3) (CNumber 2)])
              Samples.xy SampleFacts.uniform_xy
              (fun H => eq_ind (A:=list RangeOptions) [] (fun l => match l with [] => True | _ => False end) I _ (eq_sym H)))
    as (_ & Hrows & _).
  rewrite Hrows. reflexivity.
Defined.

End RangeClaims.

(* ------------------------------------------------------------------ *)
(** ** GroupModifier *)

Module GroupFacts.
Import DataTable TableSpec TableFacts GroupModifier GroupSpec.

Lemma indexOf_from_find {X Y : Type} (eqb : X -> Y -> bool) y l i :
  indexOf_from eqb y l i
  = match find_index eqb y l with
    | Some n => (i + Z.of_nat n)%Z
    | None => (-1)%Z
    end.
Proof.
  revert i. induction l as [|x l IH]; intros i; simpl.
  - reflexivity.
  - destruct (eqb x y); [lia|]. rewrite IH.
    destruct (find_index eqb y l); [lia | reflexivity].
Qed.

Lemma indexOf_find {X Y : Type} (eqb : X -> Y -> bool) y l :
  indexOf eqb y l
  = match find_index eqb y l with
    | Some n => Z.of_nat n
    | None => (-1)%Z
    end.
Proof.
  unfold indexOf. rewrite indexOf_from_find.
  destruct (find_index eqb y l); [lia | reflexivity].
Qed.

Lemma find_index_existsb {X Y : Type} (eqb : X -> Y -> bool) y l :
  existsb (fun x => eqb x y) l
  = match find_index eqb y l with Some _ => true | None => false end.
Proof.
  induction l as [|x l IH]; simpl; [reflexivity|].
  destruct (eqb x y); [reflexivity|]. simpl. rewrite IH.
  now destruct (find_index eqb y l).
Qed.

Lemma indexOf_nonneg_listed values v :
  (0 <=? indexOf json_equals v values)%Z = listed values v.
Proof.
  unfold listed. rewrite indexOf_find, find_index_existsb.
  destruct (find_index json_equals v values) as [k|]; [|reflexivity].
  apply Z.leb_le. lia.
Qed.

Lemma indexOf_absent_listed values v :
  (indexOf json_equals v values =? -1)%Z = negb (listed values v).
Proof.
  unfold listed. rewrite indexOf_find, find_index_existsb.
  destruct (find_index json_equals v values) as [k|]; [|reflexivity].
  apply Z.eqb_neq. lia.
Qed.

Lemma skipped_retained options v :
  v <> CUndefined -> skipped options v = negb (retained options v).
Proof.
  intros Hv. unfold skipped, retained.
  destruct v as [|b|n| |s|cols]; try congruence; try reflexivity.
  all: destruct (invalidValues options) as [invalid|];
    destruct (validValues options) as [valid|];
    rewrite ?indexOf_nonneg_listed, ?indexOf_absent_listed;
    repeat match goal with
           | |- context [listed ?l ?x] => destruct (listed l x)
           end;
    reflexivity.
Qed.

Lemma strict_equals_eq a b : strict_equals a b = true -> a = b.
Proof.
  destruct a, b; simpl; try discriminate; try reflexivity.
  - intros H. apply Bool.eqb_prop in H. now subst.
  - intros H. apply Z.eqb_eq in H. now subst.
  - intros H. apply String.eqb_eq in H. now subst.
Qed.

Lemma strict_equals_refl a : plain a -> strict_equals a a = true.
Proof.
  destruct a; simpl; try tauto; intros _.
  - apply Bool.eqb_reflx.
  - apply Z.eqb_refl.
  - apply String.eqb_refl.
Qed.

Lemma strict_equals_neq a b : a <> b -> strict_equals a b = false.
Proof.
  intros H. destruct (strict_equals a b) eqn:E; [|reflexivity].
  apply strict_equals_eq in E. congruence.
Qed.

Lemma retained_plain options v :
  retained options v = true -> v <> CNaN -> plain v.
Proof. destruct v; simpl; try discriminate; auto. Qed.

Lemma groupColumnOf_eq options (table : t) :
  groupColumnOf options table = groupingColumn options table.
Proof.
  unfold groupColumnOf, groupingColumn.
  now destruct (groupColumn options).
Qed.

Lemma retained_defined options v : retained options v = true -> v <> CUndefined.
Proof. destruct v; simpl; discriminate. Qed.

Lemma In_distinct l x : In x (distinct l) -> In x l.
Proof.
  revert x. induction l as [|y l IH]; intros x; simpl; [tauto|].
  intros [E|H]; [now left|]. right. apply IH.
  apply filter_In in H. tauto.
Qed.

Lemma distinct_In l x : Forall plain l -> In x l -> In x (distinct l).
Proof.
  revert x. induction l as [|y l IH]; intros x Hp; simpl; [tauto|].
  apply Forall_cons_iff in Hp. destruct Hp as [Hy Hp].
  intros [E|H]; [now left|].
  destruct (strict_equals y x) eqn:E.
  - left. now apply strict_equals_eq.
  - right. apply filter_In. split; [now apply IH | now rewrite E].
Qed.

Lemma NoDup_distinct l : Forall plain l -> NoDup (distinct l).
Proof.
  induction l as [|y l IH]; intros Hp; simpl; constructor.
  - apply Forall_cons_iff in Hp. destruct Hp as [Hy _].
    intros H. apply filter_In in H. destruct H as [H E].
    now rewrite strict_equals_refl in E.
  - apply NoDup_filter. apply IH. now apply Forall_cons_iff in Hp.
Qed.

Lemma distinct_snoc l v :
  distinct (l ++ [v])
  = distinct l ++ (if existsb (fun y => strict_equals y v) l then [] else [v]).
Proof.
  induction l as [|x l IH]; simpl.
  - reflexivity.
  - rewrite IH, filter_app. f_equal. f_equal.
    destruct (existsb (fun y => strict_equals y v) l).
    + now rewrite orb_true_r.
    + rewrite orb_false_r. simpl. now destruct (strict_equals x v).
Qed.

Lemma existsb_distinct l v :
  existsb (fun y => strict_equals y v) (distinct l)
  = existsb (fun y => strict_equals y v) l.
Proof.
  induction l as [|x l IH]; simpl; [reflexivity|].
  destruct (strict_equals x v) eqn:E; [reflexivity|]. simpl.
  rewrite existsb_filter; [exact IH|].
  intros y Hy. apply strict_equals_eq in Hy. subst y. now rewrite E.
Qed.

Lemma existsb_strict_false l v :
  existsb (fun y => strict_equals y v) l = false ->
  forall k, In k l -> strict_equals k v = false.
Proof.
  intros H k Hk. destruct (strict_equals k v) eqn:E; [|reflexivity].
  assert (H' : existsb (fun y => strict_equals y v) l = true)
    by (apply existsb_exists; now exists k).
  congruence.
Qed.

Lemma list_update_find {X : Type} (f : X -> X) (g : CellType -> X) v keys idx :
  find_index strict_equals v keys = Some idx ->
  NoDup keys ->
  list_update idx f (map g keys)
  = map (fun k => if strict_equals k v then f (g k) else g k) keys.
Proof.
  revert idx. induction keys as [|k keys IH]; intros idx Hfind Hnd.
  - discriminate.
  - inversion Hnd as [|? ? Hk Hnd']; subst. simpl in Hfind.
    destruct (strict_equals k v) eqn:E.
    + injection Hfind as <-. simpl. rewrite E. f_equal.
      apply map_ext_in. intros k' Hk'.
      apply strict_equals_eq in E. subst v.
      rewrite strict_equals_neq; [reflexivity|]. intros ->. contradiction.
    + destruct (find_index strict_equals v keys) as [n|] eqn:En;
        [|discriminate].
      injection Hfind as <-. simpl. rewrite E. f_equal. now apply IH.
Qed.

Section Loop.
Variable options : Options.
Variable table : t.
Hypothesis Hwf : wf table.

Let column := valueColumnOf options table.
Let names := getColumnNames table.

Local Abbreviation keys_upto := (keys_upto options table).
Local Abbreviation rows_upto := (rows_upto options table).

Lemma column_rows m :
  m < List.length column -> m < getRowCount table /\ names <> [].
Proof.
  unfold column, valueColumnOf, names. intros Hm.
  destruct (groupingColumn options table) as [name|]; [|simpl in Hm; lia].
  destruct (getColumn name table) as [c|] eqn:E; [|simpl in Hm; lia].
  destruct Hwf as [_ Huni].
  rewrite (uniform_column_length table name c) in Hm
    by assumption.
  split; [exact Hm|].
  destruct table; [discriminate E | discriminate].
Qed.

Lemma keys_retained m k :
  In k (keys_upto m) -> retained options k = true.
Proof.
  intros H. apply In_distinct in H. apply filter_In in H. tauto.
Qed.

Lemma keys_upto_S m :
  m < List.length column ->
  keys_upto (S m)
  = keys_upto m
      ++ (if retained options (array_get m column)
          then if existsb (fun y => strict_equals y (array_get m column))
                    (keys_upto m)
               then [] else [array_get m column]
          else []).
Proof.
  intros Hm. unfold GroupSpec.keys_upto; fold column. rewrite firstn_S_get by assumption.
  rewrite filter_app. simpl.
  destruct (retained options (array_get m column)).
  - rewrite distinct_snoc. now rewrite existsb_distinct.
  - now rewrite !List.app_nil_r.
Qed.

Lemma rows_upto_S m k :
  rows_upto (S m) k
  = rows_upto m k
      ++ (if strict_equals k (array_get m column)
          then [row_at m table] else []).
Proof.
  unfold GroupSpec.rows_upto; fold column. rewrite seq_S, filter_app, map_app. simpl.
  now destruct (strict_equals k (array_get m column)).
Qed.

Hypothesis Hnan : ~ In CNaN (valueColumnOf options table).

Lemma kept_plain m :
  Forall plain (filter (retained options) (firstn m column)).
Proof.
  apply Forall_forall. intros k Hk. apply filter_In in Hk.
  destruct Hk as [Hin Hk].
  apply (retained_plain options); [exact Hk|].
  intros ->. apply Hnan. fold column.
  rewrite <- (firstn_skipn m column). apply in_or_app. now left.
Qed.

Lemma keys_plain m : Forall plain (keys_upto m).
Proof.
  apply Forall_forall. intros k Hk. apply In_distinct in Hk.
  pose proof (kept_plain m) as H. rewrite Forall_forall in H. now apply H.
Qed.

Lemma rows_upto_fresh m v :
  m <= List.length column -> retained options v = true -> plain v ->
  existsb (fun y => strict_equals y v) (keys_upto m) = false ->
  rows_upto m v = [].
Proof.
  intros Hm Hv Hplain Hex. unfold GroupSpec.rows_upto; fold column.
  rewrite filter_none; [reflexivity|].
  intros i Hi. apply in_seq in Hi.
  destruct (strict_equals v (array_get i column)) eqn:E; [|reflexivity].
  apply strict_equals_eq in E.
  assert (Hin : In v (keys_upto m)).
  { unfold GroupSpec.keys_upto; fold column. apply distinct_In; [apply kept_plain|].
    apply filter_In. split; [|exact Hv].
    rewrite E. unfold array_get.
    rewrite <- (firstn_skipn m column) at 1.
    rewrite app_nth1 by (rewrite length_firstn; lia).
    apply nth_In. rewrite length_firstn. lia. }
  pose proof (existsb_strict_false _ _ Hex v Hin) as Hf.
  rewrite strict_equals_refl in Hf; [discriminate | exact Hplain].
Qed.

End Loop.

End GroupFacts.

Module GroupClaims.
Import DataTable TableSpec TableFacts GroupModifier GroupSpec GroupFacts.

Section Loop.
Variable options : Options.
Variable table : t.
Hypothesis Hwf : wf table.
Hypothesis Hnan : ~ In CNaN (valueColumnOf options table).

Let column := valueColumnOf options table.
Let names := getColumnNames table.
Let gc := match groupingColumn options table with
          | Some name => CString name
          | None => CUndefined
          end.

Local Abbreviation keys_upto := (keys_upto options table).
Local Abbreviation rows_upto := (rows_upto options table).
Local Abbreviation groups_upto := (groups_upto options table).

Lemma step_upto m :
  m < List.length column ->
  step options table gc column (groups_upto m) m = groups_upto (S m).
Proof.
  intros Hm.
  destruct (column_rows options table Hwf m Hm) as [Hrow Hnames].
  fold names in Hnames.
  set (v := array_get m column).
  assert (Hkeys := keys_upto_S options table m Hm).
  fold column in Hkeys. fold v in Hkeys.
  assert (Hrows : forall k, rows_upto (S m) k
            = rows_upto m k
                ++ (if strict_equals k v then [row_at m table] else []))
    by (intros k; apply rows_upto_S).
  assert (Hg : forall n,
             groups_upto n
             = mkGroups (map (fun _ => gc) (keys_upto n))
                 (map (fun k => table_of_rows names (rows_upto n k))
                    (keys_upto n))
                 (keys_upto n)) by reflexivity.
  rewrite (Hg (S m)).
  destruct (retained options v) eqn:Hret.
  - (* the row takes part in the grouping *)
    assert (Hdef : v <> CUndefined) by now apply (retained_defined options).
    assert (Hplain : plain v).
    { apply (retained_plain options); [exact Hret|].
      intros E. apply Hnan. fold column. rewrite <- E. unfold v.
      now apply nth_In. }
    assert (Hstep : step options table gc column (groups_upto m) m
              = let valueIndex := indexOf strict_equals v (keys_upto m) in
                if (valueIndex =? -1)%Z then
                  mkGroups (map (fun _ => gc) (keys_upto m) ++ [gc])
                    (map (fun k => table_of_rows names (rows_upto m k))
                       (keys_upto m)
                       ++ [table_of_rows names [row_at m table]])
                    (keys_upto m ++ [v])
                else
                  mkGroups (map (fun _ => gc) (keys_upto m))
                    (list_update (Z.to_nat valueIndex)
                       (setRows [RowArray (row_at m table)] None)
                       (map (fun k => table_of_rows names (rows_upto m k))
                          (keys_upto m)))
                    (keys_upto m)).
    { rewrite (Hg m). unfold step. fold v.
      cbn [valueGroups byGroups tableGroups].
      rewrite (skipped_retained options v Hdef), Hret. cbn [negb].
      rewrite (new_subtable table m (proj1 Hwf) Hrow).
      unfold getRow. replace (m <? getRowCount table) with true
        by (symmetry; now apply Nat.ltb_lt).
      destruct v; try reflexivity. congruence. }
    rewrite Hstep. cbn zeta.
    rewrite indexOf_find.
    pose proof (find_index_existsb strict_equals v (keys_upto m)) as Hex.
    destruct (find_index strict_equals v (keys_upto m)) as [idx|] eqn:Hfind.
    + (* an existing group *)
      replace (Z.of_nat idx =? -1)%Z with false
        by (symmetry; apply Z.eqb_neq; lia).
      rewrite Nat2Z.id.
      rewrite (list_update_find _ _ v (keys_upto m) idx Hfind)
        by (apply NoDup_distinct, kept_plain; exact Hnan).
      rewrite Hkeys, ?Hret, Hex. rewrite List.app_nil_r.
      f_equal. apply map_ext_in. intros k Hk.
      rewrite Hrows. destruct (strict_equals k v).
      * now apply append_row.
      * now rewrite List.app_nil_r.
    + (* a new group *)
      change (-1 =? -1)%Z with true. cbn iota.
      rewrite Hkeys, ?Hret, Hex. rewrite !map_app. cbn [map].
      f_equal. f_equal.
      * apply map_ext_in. intros k Hk. rewrite Hrows.
        rewrite (existsb_strict_false _ _ Hex k Hk).
        now rewrite List.app_nil_r.
      * rewrite Hrows.
        rewrite (rows_upto_fresh options table Hnan m v
                   (Nat.lt_le_incl _ _ Hm) Hret Hplain Hex).
        now rewrite (strict_equals_refl v Hplain).
  - (* the row is passed over *)
    assert (Hstep : step options table gc column (groups_upto m) m
                    = groups_upto m).
    { unfold step. fold v.
      destruct (typeof v) eqn:Et; try reflexivity.
      all: rewrite (skipped_retained options v), Hret;
        [reflexivity | intros E; rewrite E in Et; discriminate]. }
    rewrite Hstep, (Hg m).
    rewrite Hkeys, ?Hret. rewrite List.app_nil_r.
    f_equal. apply map_ext_in. intros k Hk. rewrite Hrows.
    rewrite strict_equals_neq; [now rewrite List.app_nil_r|].
    intros ->. apply (keys_retained options table m) in Hk. congruence.
Qed.

Lemma loop_upto m :
  m <= List.length column ->
  fold_left (step options table gc column) (seq 0 m) (mkGroups [] [] [])
  = groups_upto m.
Proof.
  induction m as [|m IH]; intros Hm.
  - reflexivity.
  - rewrite seq_S, fold_left_app. simpl fold_left at 1.
    rewrite IH by lia. cbn [fold_left]. apply step_upto. lia.
Qed.

Lemma groupsOf_eq :
  groupsOf options table = groups_upto (List.length column).
Proof.
  unfold groupsOf. rewrite groupColumnOf_eq. apply loop_upto. lia.
Qed.

End Loop.

Lemma modify_grouped options (table : t) :
  wf table -> ~ In CNaN (valueColumnOf options table) ->
  fst (modify options table) = grouped options table.
Proof.
  intros Hwf Hnan. unfold modify. cbn [fst].
  rewrite deleteColumns_all.
  rewrite (groupsOf_eq options table Hwf Hnan).
  unfold groups_upto, keys_upto, rows_upto.
  cbn [byGroups tableGroups valueGroups].
  rewrite firstn_all.
  assert (Hent : forall a b c : Column,
             obj_of_entries [("groupBy", a); ("table", b); ("value", c)]
             = [("groupBy", a); ("table", b); ("value", c)]).
  { intros a b c. apply obj_of_entries_ordered.
    apply js_ordered_plain_names.
    - repeat constructor; simpl; intuition discriminate.
    - repeat constructor. }
  assert (Hset : forall a b c : Column,
             setColumns
               (obj_of_entries [("groupBy", a); ("table", b); ("value", c)])
               []
             = [("groupBy", a); ("table", b); ("value", c)]).
  { intros a b c. rewrite Hent. apply Hent. }
  rewrite Hset. unfold grouped, carrying. rewrite map_map. reflexivity.
Qed.




End GroupClaims.

(* ------------------------------------------------------------------ *)
(** ** InvertModifier *)

Module InvertFacts.
Import DataTable TableSpec TableFacts InvertSpec.

Lemma array_index_ToString_index i :
  array_index (ToString_index i)
  = if (N.of_nat i <? 4294967295)%N then Some (N.of_nat i) else None.
Proof.
  unfold array_index, ToString_index.
  rewrite DecimalString.NilEmpty.usu.
  assert (Hnorm : Decimal.unorm (N.to_uint (N.of_nat i))
                  = N.to_uint (N.of_nat i)).
  { rewrite <- DecimalN.Unsigned.to_of.
    now rewrite DecimalN.Unsigned.of_to. }
  destruct (Decimal.uint_eq_dec _ _) as [_|Hne]; [|contradiction].
  now rewrite DecimalN.Unsigned.of_to.
Qed.

Lemma ToString_index_inj i j : ToString_index i = ToString_index j -> i = j.
Proof.
  unfold ToString_index. intros H.
  apply (f_equal DecimalString.NilEmpty.uint_of_string) in H.
  rewrite !DecimalString.NilEmpty.usu in H. injection H as H.
  apply (f_equal N.of_uint) in H.
  rewrite !DecimalN.Unsigned.of_to in H. lia.
Qed.

Lemma ToString_index_not_columnNames i : ToString_index i <> "columnNames".
Proof.
  unfold ToString_index. intros H.
  apply (f_equal DecimalString.NilEmpty.uint_of_string) in H.
  rewrite DecimalString.NilEmpty.usu in H. discriminate H.
Qed.

Lemma js_ordered_indices k m :
  js_ordered (map ToString_index (seq k m) ++ ["columnNames"]).
Proof.
  revert k. induction m as [|m IH]; intros k.
  - simpl. repeat split; tauto.
  - cbn [seq map app js_ordered]. split; [|split; [|apply IH]].
    + intros H. apply in_app_or in H. destruct H as [H|[H|[]]].
      * apply in_map_iff in H. destruct H as (j & E & Hj).
        apply ToString_index_inj in E. apply in_seq in Hj. lia.
      * symmetry in H. now apply ToString_index_not_columnNames in H.
    + intros k' n' H E. apply in_app_or in H. destruct H as [H|[H|[]]].
      * apply in_map_iff in H. destruct H as (j & <- & Hj).
        apply in_seq in Hj. rewrite array_index_ToString_index in E.
        destruct (N.of_nat j <? 4294967295)%N eqn:Ej; [|discriminate].
        injection E as <-. apply N.ltb_lt in Ej.
        exists (N.of_nat k). rewrite array_index_ToString_index.
        replace (N.of_nat k <? 4294967295)%N with true
          by (symmetry; apply N.ltb_lt; lia).
        split; [reflexivity | lia].
      * subst k'. discriminate E.
Qed.

Lemma modify_forward (table : t) :
  ~ In "columnNames" (getColumnNames table) ->
  fst (InvertModifier.modify table) = inverted table.
Proof.
  intros Hn. unfold InvertModifier.modify. cbn [fst].
  rewrite hasColumns_one.
  replace (obj_has "columnNames" table) with false
    by (symmetry; now apply obj_has_false).
  rewrite deleteColumns_all.
  rewrite fold_rows by apply seq_below.
  set (entries := map (fun i => (ToString_index i, row_at i table))
                    (seq 0 (getRowCount table))).
  set (cn := map CString (getColumnNames table)).
  assert (Hord : js_ordered (map fst (entries ++ [("columnNames", cn)]))).
  { rewrite map_app. unfold entries. rewrite map_map. simpl.
    apply js_ordered_indices. }
  assert (Hsnoc : obj_set "columnNames" cn
                    (fold_left (fun o kv => obj_set (fst kv) (snd kv) o)
                       entries [])
                  = obj_of_entries (entries ++ [("columnNames", cn)])).
  { unfold obj_of_entries. now rewrite fold_left_app. }
  rewrite Hsnoc. rewrite (obj_of_entries_ordered _ Hord).
  change (obj_of_entries (entries ++ [("columnNames", cn)]) = inverted table).
  now rewrite (obj_of_entries_ordered _ Hord).
Qed.

Section Backward.
Variable table : t.
Hypothesis Huni : uniform table.
Hypothesis Hord : js_ordered (getColumnNames table).
Hypothesis Hrows : getRowCount table <> 0 \/ table = [].

Let entries : t :=
  map (fun i => (ToString_index i, row_at i table))
    (seq 0 (getRowCount table)).
Let cn : Column := map CString (getColumnNames table).

Lemma entries_keys : ~ In "columnNames" (obj_keys entries).
Proof.
  unfold obj_keys, entries. rewrite map_map. simpl.
  intros H. apply in_map_iff in H. destruct H as (i & E & _).
  now apply ToString_index_not_columnNames in E.
Qed.

Lemma getRowCount_entries : getRowCount entries = List.length table.
Proof.
  destruct Hrows as [Hn|Ht].
  - apply all_length_getRowCount.
    + apply Forall_forall. intros c Hc. unfold entries in Hc.
      apply in_map_iff in Hc. destruct Hc as (i & <- & _). simpl.
      apply length_row_at.
    + unfold entries. destruct (getRowCount table); [congruence|].
      discriminate.
  - unfold entries. rewrite Ht. reflexivity.
Qed.

Lemma row_at_entries i :
  i < List.length table ->
  row_at i entries = snd (nth i table ("", [])).
Proof.
  intros Hi. unfold row_at at 1, entries. rewrite map_map. simpl.
  assert (Hcell : forall k,
             array_get i (row_at k table)
             = array_get k (snd (nth i table ("", [])))).
  { intros k. unfold row_at, array_get at 1.
    rewrite (nth_indep _ CUndefined
               (array_get k (snd (@pair string Column "" []))))
      by (now rewrite length_map).
    now rewrite (map_nth (fun c => array_get k (snd c))). }
  rewrite (map_ext _ _ Hcell).
  assert (Hlen : List.length (snd (nth i table ("", [])))
                 = getRowCount table).
  { unfold uniform in Huni. rewrite Forall_forall in Huni.
    apply Huni. now apply nth_In. }
  rewrite <- Hlen. apply map_nth_seq.
Qed.

Lemma entries_back :
  map (fun i => (nth i (getColumnNames table) "undefined",
                 row_at i entries))
    (seq 0 (List.length table))
  = table.
Proof.
  transitivity (map (fun i => nth i table ("", []))
                  (seq 0 (List.length table)));
    [|apply map_nth_all].
  apply map_ext_in. intros i Hi. apply in_seq in Hi.
  rewrite row_at_entries by lia.
  unfold getColumnNames, obj_keys.
  rewrite (nth_indep _ "undefined" (fst (@pair string Column "" [])))
    by (rewrite length_map; lia).
  rewrite (map_nth fst). symmetry. apply surjective_pairing.
Qed.

Lemma modify_backward : fst (InvertModifier.modify (inverted table)) = table.
Proof.
  unfold InvertModifier.modify. cbn [fst].
  change (inverted table) with (entries ++ [("columnNames", cn)]).
  assert (Hhas : hasColumns ["columnNames"]
                   (entries ++ [("columnNames", cn)]) = true).
  { rewrite hasColumns_one. apply obj_has_true.
    unfold obj_keys. rewrite map_app. apply in_or_app. right. now left. }
  rewrite Hhas.
  assert (Hget : obj_get "columnNames" (entries ++ [("columnNames", cn)])
                 = Some cn).
  { rewrite obj_get_app.
    rewrite (proj2 (obj_get_None "columnNames" entries) entries_keys).
    reflexivity. }
  assert (Hdel : deleteColumns (Some ["columnNames"])
                   (entries ++ [("columnNames", cn)])
                 = (entries, Some [("columnNames", cn)])).
  { unfold deleteColumns. cbn [fold_left]. rewrite Hget.
    rewrite (obj_delete_snoc _ _ _ entries_keys). reflexivity. }
  rewrite Hdel. cbn [obj_get]. rewrite String.eqb_refl.
  assert (Hnames : map ToString cn = getColumnNames table).
  { unfold cn. rewrite map_map. simpl. apply map_id. }
  rewrite Hnames, getRowCount_entries.
  rewrite fold_rows
    by (rewrite getRowCount_entries; apply seq_below).
  rewrite entries_back. rewrite deleteColumns_all.
  unfold setColumns.
  change (obj_of_entries (obj_of_entries table) = table).
  now rewrite !(obj_of_entries_ordered table Hord).
Qed.

End Backward.

End InvertFacts.

Module InvertClaims.
Import DataTable TableSpec TableFacts InvertSpec InvertFacts.

(** C2 as stated fails for a table that has a column but no row: its
    inverted form holds nothing but the column columnNames, so once that
    column is taken out no row is left to rebuild the columns from, and
    the second [modify] returns a table without columns. *)
Lemma invert_twice_loses_columns :
  wf [("a", [])]
  /\ ~ In "columnNames" (getColumnNames [("a", [])])
  /\ fst (InvertModifier.modify [("a", [])])
     = [("columnNames", [CString "a"])]
  /\ fst (InvertModifier.modify (fst (InvertModifier.modify [("a", [])])))
     = []
  /\ getColumnNames
       (fst (InvertModifier.modify (fst (InvertModifier.modify [("a", [])]))))
     <> getColumnNames [("a", [])].
Proof.
  split; [|split; [|split; [|split]]].
  - split.
    + apply js_ordered_plain_names; repeat constructor.
      simpl. tauto.
    + repeat constructor.
  - simpl. intros [H|[]]. discriminate.
  - reflexivity.
  - reflexivity.
  - discriminate.
Qed.

(** C2, amended: for a table that has no column named columnNames and
    has at least one row (or no column at all), [modify] yields the
    inverted form, one column per row named by the row index plus the
    column columnNames, and a second [modify] yields the table again:
    the same column names in the same order with the same cells. *)
Theorem invert_twice (table : t) :
  wf table ->
  ~ In "columnNames" (getColumnNames table) ->
  getRowCount table <> 0 \/ table = [] ->
  fst (InvertModifier.modify table) = inverted table
  /\ fst (InvertModifier.modify (fst (InvertModifier.modify table))) = table.
Proof.
  intros [Hord Huni] Hn Hrows.
  split; [now apply modify_forward|].
  rewrite (modify_forward table Hn).
  now apply modify_backward.
Qed.

Lemma invert_twice_witness :
  wf Samples.xy
  /\ ~ In "columnNames" (getColumnNames Samples.xy)
  /\ getRowCount Samples.xy <> 0
  /\ fst (InvertModifier.modify (fst (InvertModifier.modify Samples.xy)))
     = Samples.xy.
Proof.
  assert (Hn : ~ In "columnNames" (getColumnNames Samples.xy)).
  { simpl. intros [H|[H|[]]]; discriminate. }
  assert (Hrows : getRowCount Samples.xy <> 0) by discriminate.
  split; [exact SampleFacts.wf_xy|]. split; [exact Hn|]. split; [exact Hrows|].
  exact (proj2 (invert_twice Samples.xy SampleFacts.wf_xy Hn (or_introl Hrows))).
Defined.

End InvertClaims.

(* ================================================================== *)
(** * Further properties of the modifiers *)

(* ------------------------------------------------------------------ *)
(** ** ChainModifier: order, events and the stored sequence *)

Section ChainLaws.
Variable DataModifier : Type.
Variable same : DataModifier -> DataModifier -> bool.
Variable Store : Type.
Variable modify_of :
  DataModifier -> DataTable.t -> Store -> DataTable.t * Store.

Local Abbreviation modify := (ChainModifier.modify DataModifier Store modify_of).
Local Abbreviation execute := (ChainModifier.execute DataModifier Store modify_of).
Local Abbreviation mkChain := (ChainModifier.mkChain DataModifier).
Local Abbreviation mkChainEvent := (ChainModifier.mkChainEvent DataModifier).
Local Abbreviation executed := (@executed DataModifier).
Local Abbreviation table_after := (ChainModifier.table_after DataModifier Store).
Local Abbreviation store_after := (ChainModifier.store_after DataModifier Store).
Local Abbreviation chain_after := (ChainModifier.chain_after DataModifier Store).
Local Abbreviation emitted := (ChainModifier.emitted DataModifier Store).
Local Abbreviation modifiers := (ChainModifier.modifiers DataModifier).

(** The effective order of a call of [modify]. *)
Local Abbreviation order_of chain :=
  (if ChainModifier.reverse (ChainModifier.options DataModifier chain)
   then List.rev (modifiers chain) else modifiers chain).

Lemma modify_unfold chain table store :
  modify chain table store
  = ChainModifier.mkOutcome DataModifier Store
      (mkChain (ChainModifier.options _ chain) (order_of chain))
      (fst (fst (execute (order_of chain) table store)))
      (snd (fst (execute (order_of chain) table store)))
      (mkChainEvent "execute" (Some table) None
         :: snd (execute (order_of chain) table store)
         ++ [mkChainEvent "afterExecute"
               (Some (fst (fst (execute (order_of chain) table store))))
               None]).
Proof.
  unfold ChainModifier.modify.
  destruct (ChainModifier.reverse (ChainModifier.options _ chain));
    destruct (execute _ table store) as [[t' s'] ev]; reflexivity.
Qed.

Lemma execute_app l1 l2 table store :
  execute (l1 ++ l2) table store
  = (let '(t1, s1, e1) := execute l1 table store in
     let '(t2, s2, e2) := execute l2 t1 s1 in
     (t2, s2, e1 ++ e2)).
Proof.
  revert table store. induction l1 as [|m l1 IH]; intros table store.
  - simpl. now destruct (execute l2 table store) as [[t2 s2] e2].
  - simpl. destruct (modify_of m table store) as [ta sa].
    rewrite IH.
    destruct (execute l1 ta sa) as [[t1 s1] e1].
    now destruct (execute l2 t1 s1) as [[t2 s2] e2].
Qed.

(** X1: a chain over [l1 ++ l2] does what the chain over the part that runs
    first and then the chain over the other part do, the second on the
    table and modifier state left by the first; with [reverse] the part
    [l2] runs first. *)
Theorem modify_of_concatenation (options : ChainModifier.Options)
    (l1 l2 : list DataModifier) (table : DataTable.t) (store : Store) :
  let parts := if ChainModifier.reverse options then (l2, l1) else (l1, l2) in
  let whole := modify (mkChain options (l1 ++ l2)) table store in
  let first := modify (mkChain options (fst parts)) table store in
  let second :=
    modify (mkChain options (snd parts)) (table_after first)
      (store_after first) in
  table_after whole = table_after second
  /\ store_after whole = store_after second
  /\ executed (emitted whole)
     = executed (emitted first) ++ executed (emitted second).
Proof.
  intros parts whole first second.
  unfold whole, second, first, parts. rewrite !modify_executed.
  rewrite !modify_unfold. cbn [ChainModifier.table_after
    ChainModifier.store_after ChainModifier.options ChainModifier.modifiers].
  destruct (ChainModifier.reverse options); cbn [fst snd].
  - rewrite rev_app_distr, execute_app.
    destruct (execute (List.rev l2) table store) as [[t1 s1] e1].
    cbn [fst snd].
    now destruct (execute (List.rev l1) t1 s1) as [[t2 s2] e2].
  - rewrite execute_app.
    destruct (execute l1 table store) as [[t1 s1] e1].
    cbn [fst snd].
    now destruct (execute l2 t1 s1) as [[t2 s2] e2].
Qed.

Lemma execute_types order table store :
  map (ChainModifier.ce_type _) (snd (execute order table store))
  = flat_map (fun _ => ["executeModifier"; "afterExecuteModifier"]) order
  /\ map (ChainModifier.ce_modifier _) (snd (execute order table store))
     = flat_map (fun m => [Some m; Some m]) order
  /\ map (ChainModifier.ce_table _) (snd (execute order table store))
     = flat_map (fun _ => [None; None]) order.
Proof.
  revert table store.
  induction order as [|m order IH]; intros table store; simpl.
  - repeat split.
  - destruct (modify_of m table store) as [table1 store1].
    specialize (IH table1 store1).
    destruct (execute order table1 store1) as [[table2 store2] events].
    simpl in *. destruct IH as (-> & -> & ->). repeat split.
Qed.

(** X2: the events of one call of [modify], in the order in which they are
    emitted: execute with the table handed in; for every modifier of the
    effective order executeModifier and afterExecuteModifier, both naming
    the modifier and carrying no table; afterExecute with the table
    returned.  A chain of [n] modifiers emits [2 * n + 2] events. *)
Theorem modify_event_protocol (chain : ChainModifier.t DataModifier)
    (table : DataTable.t) (store : Store) :
  let outcome := modify chain table store in
  let order := order_of chain in
  map (ChainModifier.ce_type _) (emitted outcome)
  = "execute"
      :: flat_map (fun _ => ["executeModifier"; "afterExecuteModifier"]) order
      ++ ["afterExecute"]
  /\ map (ChainModifier.ce_modifier _) (emitted outcome)
     = None :: flat_map (fun m => [Some m; Some m]) order ++ [None]
  /\ map (ChainModifier.ce_table _) (emitted outcome)
     = Some table :: flat_map (fun _ => [None; None]) order
         ++ [Some (table_after outcome)]
  /\ List.length (emitted outcome) = 2 * List.length (modifiers chain) + 2.
Proof.
  intros outcome order. unfold outcome. rewrite modify_unfold.
  cbn [ChainModifier.emitted ChainModifier.table_after map].
  rewrite !map_app.
  destruct (execute_types (order_of chain) table store) as (Ht & Hm & Htb).
  rewrite Ht, Hm, Htb. repeat split.
  cbn [List.length]. rewrite length_app. cbn [List.length].
  rewrite <- (length_map (ChainModifier.ce_type _)), Ht.
  assert (Hlen : forall l : list DataModifier,
             List.length
               (flat_map (fun _ => ["executeModifier"; "afterExecuteModifier"]) l)
             = 2 * List.length l).
  { induction l as [|x l IHl]; simpl in *; lia. }
  rewrite Hlen.
  destruct (ChainModifier.reverse (ChainModifier.options _ chain));
    rewrite ?length_rev; lia.
Qed.

Lemma execute_invariant (P : DataTable.t -> Store -> Prop) :
  (forall m t s, P t s ->
     P (fst (modify_of m t s)) (snd (modify_of m t s))) ->
  forall order table store,
    P table store ->
    P (fst (fst (execute order table store)))
      (snd (fst (execute order table store))).
Proof.
  intros Hstep. induction order as [|m order IH]; intros table store HP.
  - exact HP.
  - simpl. specialize (Hstep m table store HP).
    destruct (modify_of m table store) as [table1 store1].
    specialize (IH table1 store1 Hstep).
    now destruct (execute order table1 store1) as [[table2 store2] events].
Qed.

(** X3: a property of the table and of the state of the modifiers that
    every modifier keeps when the table has it, is kept by the chain,
    whatever its modifiers, their order and the [reverse] option. *)
Theorem modify_keeps_invariant (P : DataTable.t -> Store -> Prop)
    (chain : ChainModifier.t DataModifier) (table : DataTable.t)
    (store : Store) :
  (forall m t s, P t s ->
     P (fst (modify_of m t s)) (snd (modify_of m t s))) ->
  P table store ->
  P (table_after (modify chain table store))
    (store_after (modify chain table store)).
Proof.
  intros Hstep HP. rewrite modify_unfold.
  cbn [ChainModifier.table_after ChainModifier.store_after].
  now apply execute_invariant.
Qed.

(** X4: what a call of [modify] leaves in the chain.  Without [reverse] the
    chain is as before.  With [reverse] the call turns the stored
    sequence around: after one call the chain holds its modifiers in
    reverse order, after two calls in the order from before, and the
    first call runs them last to first, the second first to last. *)
Theorem modify_stored_sequence (chain : ChainModifier.t DataModifier)
    (table table2 : DataTable.t) (store store2 : Store) :
  let first := modify chain table store in
  let second := modify (chain_after first) table2 store2 in
  modifiers (chain_after first) = order_of chain
  /\ executed (emitted first) = order_of chain
  /\ (ChainModifier.reverse (ChainModifier.options _ chain) = false ->
      chain_after first = chain)
  /\ (ChainModifier.reverse (ChainModifier.options _ chain) = true ->
      chain_after second = chain
      /\ executed (emitted second) = modifiers chain).
Proof.
  intros first second.
  assert (H1 : chain_after first
               = mkChain (ChainModifier.options _ chain) (order_of chain)).
  { unfold first. now rewrite modify_unfold. }
  split; [now rewrite H1|].
  split; [unfold first; now rewrite modify_executed|].
  split.
  - intros Hrev. rewrite H1, Hrev. now destruct chain.
  - intros Hrev. unfold second.
    rewrite modify_executed, modify_unfold, H1.
    cbn [ChainModifier.options ChainModifier.modifiers
         ChainModifier.chain_after].
    rewrite Hrev, rev_involutive. split; [now destruct chain | reflexivity].
Qed.

(** X5: [clear] empties the chain, keeps its options and emits clearChain
    and afterClearChain.  A cleared chain returns the table it is given
    and leaves the state of the modifiers alone, emitting execute and
    afterExecute only. *)
Theorem clear_then_modify (chain : ChainModifier.t DataModifier)
    (table : DataTable.t) (store : Store) :
  let cleared := ChainModifier.clear _ chain in
  let outcome := modify (fst cleared) table store in
  modifiers (fst cleared) = []
  /\ ChainModifier.options _ (fst cleared) = ChainModifier.options _ chain
  /\ snd cleared
     = [mkChainEvent "clearChain" None None;
        mkChainEvent "afterClearChain" None None]
  /\ table_after outcome = table
  /\ store_after outcome = store
  /\ chain_after outcome = fst cleared
  /\ emitted outcome
     = [mkChainEvent "execute" (Some table) None;
        mkChainEvent "afterExecute" (Some table) None].
Proof.
  intros cleared outcome. unfold outcome, cleared. rewrite modify_unfold.
  cbn [ChainModifier.clear fst snd ChainModifier.modifiers
       ChainModifier.options].
  destruct (ChainModifier.reverse (ChainModifier.options _ chain));
    repeat split.
Qed.

Hypothesis same_spec : forall a b, same a b = true <-> a = b.

Lemma first_occurrence (m : DataModifier) l :
  In m l -> exists l1 l2, l = l1 ++ m :: l2 /\ ~ In m l1.
Proof.
  induction l as [|x l IH]; intros Hin; [destruct Hin|].
  destruct (same x m) eqn:E.
  - apply same_spec in E. subst x. exists [], l. now split.
  - assert (Hne : x <> m).
    { intros ->. assert (H : same m m = true) by now apply same_spec.
      congruence. }
    destruct Hin as [->|Hin]; [congruence|].
    destruct (IH Hin) as (l1 & l2 & -> & Hn).
    exists (x :: l1), l2. split; [reflexivity|].
    intros [H|H]; [now apply Hne | now apply Hn].
Qed.

Lemma in_or_not (m : DataModifier) l : In m l \/ ~ In m l.
Proof.
  induction l as [|x l [IH|IH]].
  - now right.
  - left. now right.
  - destruct (same x m) eqn:E.
    + apply same_spec in E. left. now left.
    + right. intros [->|H]; [|now apply IH].
      assert (H : same m m = true) by now apply same_spec. congruence.
Qed.

(** X6: [remove] takes exactly one modifier out of a chain that holds any:
    the first occurrence of the given modifier if the chain holds it,
    and the last modifier of the chain if it does not.  The options stay,
    and the events removeModifier and afterRemoveModifier name the given
    modifier. *)
Theorem remove_takes_one_out (m : DataModifier)
    (chain : ChainModifier.t DataModifier) :
  let result := ChainModifier.remove _ same m chain in
  (forall l1 l2, modifiers chain = l1 ++ m :: l2 -> ~ In m l1 ->
     modifiers (fst result) = l1 ++ l2)
  /\ (~ In m (modifiers chain) ->
      modifiers (fst result) = removelast (modifiers chain))
  /\ List.length (modifiers (fst result))
     = Nat.pred (List.length (modifiers chain))
  /\ ChainModifier.options _ (fst result) = ChainModifier.options _ chain
  /\ snd result
     = [mkChainEvent "removeModifier" None (Some m);
        mkChainEvent "afterRemoveModifier" None (Some m)].
Proof.
  intros result. destruct chain as [options l].
  cbn [ChainModifier.modifiers ChainModifier.options].
  assert (Hp : forall l1 l2, l = l1 ++ m :: l2 -> ~ In m l1 ->
                 modifiers (fst result) = l1 ++ l2).
  { intros l1 l2 -> Hn. unfold result. now apply remove_present. }
  assert (Ha : ~ In m l -> modifiers (fst result) = removelast l).
  { intros Hn. unfold result. now apply remove_absent. }
  split; [exact Hp|]. split; [exact Ha|].
  split; [|split; reflexivity].
  destruct (in_or_not m l) as [Hin|Hn].
  - destruct (first_occurrence m l Hin) as (l1 & l2 & E & Hn).
    rewrite (Hp l1 l2 E Hn), E, !length_app. simpl. lia.
  - rewrite (Ha Hn). destruct l as [|x l]; [reflexivity|].
    assert (H : x :: l <> []) by discriminate.
    pose proof (app_removelast_last x H) as E.
    apply (f_equal (@List.length _)) in E.
    rewrite length_app in E. simpl in *. lia.
Qed.

(** X7: [add] puts the modifier behind the last one and emits addModifier
    twice.  Taking the modifier out again restores the chain if the
    chain did not hold it before; if it did, [remove] takes out the
    earlier occurrence and the added one stays at the end. *)
Theorem add_then_remove (m : DataModifier)
    (chain : ChainModifier.t DataModifier) :
  let added := ChainModifier.add _ m chain in
  let removed := ChainModifier.remove _ same m (fst added) in
  modifiers (fst added) = modifiers chain ++ [m]
  /\ snd added
     = [mkChainEvent "addModifier" None (Some m);
        mkChainEvent "addModifier" None (Some m)]
  /\ (~ In m (modifiers chain) -> fst removed = chain)
  /\ (forall l1 l2, modifiers chain = l1 ++ m :: l2 -> ~ In m l1 ->
        modifiers (fst removed) = l1 ++ l2 ++ [m]).
Proof.
  intros added removed. destruct chain as [options l].
  cbn [ChainModifier.modifiers].
  split; [reflexivity|]. split; [reflexivity|]. split.
  - intros Hn. unfold removed, added, ChainModifier.add.
    cbn [fst ChainModifier.options ChainModifier.modifiers].
    pose proof (remove_present _ same same_spec m l [] options Hn)
      as H.
    unfold ChainModifier.remove in *.
    cbn [fst ChainModifier.options ChainModifier.modifiers] in *.
    rewrite H. now rewrite List.app_nil_r.
  - intros l1 l2 -> Hn. unfold removed, added, ChainModifier.add.
    cbn [fst ChainModifier.options ChainModifier.modifiers].
    rewrite <- app_assoc. cbn [app].
    now rewrite (remove_present _ same same_spec m l1
                   (l2 ++ [m]) options Hn).
Qed.

End ChainLaws.

(** The chain of the modifiers [0], [1], [2] with [reverse] set, called
    twice on the table [xy]. *)
Lemma modify_stored_sequence_witness :
  let chain := ChainModifier.new nat (Some true) [0; 1; 2] in
  ChainModifier.reverse (ChainModifier.options nat chain) = true
  /\ ChainModifier.chain_after nat unit
       (ChainModifier.modify nat unit Samples.modify_of
          (ChainModifier.chain_after nat unit
             (ChainModifier.modify nat unit Samples.modify_of chain
                Samples.xy tt))
          Samples.xy tt)
     = chain.
Proof.
  intros chain. split; [reflexivity|].
  exact (proj1 (proj2 (proj2 (proj2
           (modify_stored_sequence nat unit Samples.modify_of chain
              Samples.xy Samples.xy tt tt))) eq_refl)).
Defined.

(** Modifiers named by numbers and compared as numbers: [1] is taken out
    of the chain [0, 1, 2, 1]. *)
Lemma remove_takes_one_out_witness :
  (forall a b, Nat.eqb a b = true <-> a = b)
  /\ ChainModifier.modifiers nat
       (fst (ChainModifier.remove nat Nat.eqb 1
               (ChainModifier.new nat None [0; 1; 2; 1])))
     = [0; 2; 1].
Proof.
  split; [exact Nat.eqb_eq|].
  refine (proj1 (remove_takes_one_out nat Nat.eqb Nat.eqb_eq 1
                   (ChainModifier.new nat None [0; 1; 2; 1])) [0] [2; 1]
            eq_refl _).
  simpl. intros [H|[]]. discriminate H.
Defined.

(** The modifier [3] is added to the chain [0, 1] and taken out again. *)
Lemma add_then_remove_witness :
  (forall a b, Nat.eqb a b = true <-> a = b)
  /\ fst (ChainModifier.remove nat Nat.eqb 3
            (fst (ChainModifier.add nat 3
                    (ChainModifier.new nat None [0; 1]))))
     = ChainModifier.new nat None [0; 1].
Proof.
  split; [exact Nat.eqb_eq|].
  refine (proj1 (proj2 (proj2 (add_then_remove nat Nat.eqb Nat.eqb_eq 3
                                 (ChainModifier.new nat None [0; 1])))) _).
  simpl. intros [H|[H|[]]]; discriminate H.
Defined.

(* ------------------------------------------------------------------ *)
(** ** Objects: the values under assignment *)

Lemma Forall_obj_set {V : Type} (Q : V -> Prop) k v (o : Obj V) :
  Forall (fun c => Q (snd c)) o -> Q v ->
  Forall (fun c => Q (snd c)) (obj_set k v o).
Proof.
  intros Ho Hv. unfold obj_set.
  destruct (obj_has k o).
  - induction Ho as [|[k' v'] rest Hv' Hrest IH]; simpl; [constructor|].
    destruct (k' =? k)%string; constructor; assumption.
  - destruct (array_index k) as [n|].
    + induction Ho as [|[k' v'] rest Hv' Hrest IH]; simpl.
      * now constructor.
      * destruct (array_index k') as [n'|].
        -- destruct (n' <? n)%N; constructor; try assumption.
           now constructor.
        -- constructor; [assumption|]. now constructor.
    + apply Forall_app. split; [assumption|]. now constructor.
Qed.

(* ------------------------------------------------------------------ *)
(** ** SortModifier: the comparators, and what sorting keeps *)

Module SortLaws.
Import DataTable TableSpec TableFacts SortModifier SortSpec SortFacts.

Lemma ltb_asym (s1 s2 : string) :
  String.ltb s1 s2 = true -> String.ltb s2 s1 = false.
Proof.
  unfold String.ltb. rewrite (String.compare_antisym s1 s2).
  now destruct (String.compare s2 s1).
Qed.

Section WithEngine.
Variable StringToNumber : string -> option Z.

Local Abbreviation ascending := (ascending StringToNumber).
Local Abbreviation descending := (descending StringToNumber).
Local Abbreviation compare_of := (compare_of StringToNumber).
Local Abbreviation modify := (SortModifier.modify StringToNumber).
Local Abbreviation sortedReferences :=
  (SortModifier.sortedReferences StringToNumber).
Local Abbreviation compareRows := (SortSpec.compareRows StringToNumber).

Lemma js_compare_asym x y :
  js_compare StringToNumber x y = Some true ->
  js_compare StringToNumber y x = Some false.
Proof.
  unfold js_compare.
  destruct (ToPrimitive x) as [| bx | nx | | sx | tx] eqn:Ex;
    destruct (ToPrimitive y) as [| by' | ny | | sy | ty] eqn:Ey;
    cbn; try discriminate;
    try (intros H; injection H as H; f_equal; try (now apply ltb_asym); lia);
    repeat match goal with
           | |- context [StringToNumber ?s] => destruct (StringToNumber s)
           end;
    try discriminate;
    intros H; injection H as H; f_equal; lia.
Qed.


(** X8: the two comparators return -1, 0 or 1; [descending] is [ascending]
    with the arguments exchanged; exchanging the arguments of a
    comparator negates its result, whatever the cells hold; and a cell
    compares equal to itself. *)
Theorem comparators_consistent (a b : CellType) :
  (ascending a b = (-1)%Z \/ ascending a b = 0%Z \/ ascending a b = 1%Z)
  /\ descending a b = ascending b a
  /\ ascending b a = (- ascending a b)%Z
  /\ descending b a = (- descending a b)%Z
  /\ ascending a a = 0%Z
  /\ descending a a = 0%Z.
Proof.
  assert (Hneg : forall x y, ascending y x = (- ascending x y)%Z).
  { intros x y. unfold SortModifier.ascending, js_lt, js_gt.
    pose proof (js_compare_asym (or0 x) (or0 y)) as H1.
    pose proof (js_compare_asym (or0 y) (or0 x)) as H2.
    destruct (js_compare StringToNumber (or0 x) (or0 y)) as [[|]|];
      destruct (js_compare StringToNumber (or0 y) (or0 x)) as [[|]|];
      try reflexivity;
      try (specialize (H1 eq_refl); discriminate H1);
      try (specialize (H2 eq_refl); discriminate H2). }
  assert (Hrefl : forall x, ascending x x = 0%Z).
  { intros x. pose proof (Hneg x x). lia. }
  split; [|split; [reflexivity|split; [apply Hneg|split; [apply Hneg|]]]].
  - unfold SortModifier.ascending.
    destruct (js_lt _ _ _); [now left|].
    destruct (js_gt _ _ _); [now right; right | now right; left].
  - split; [apply Hrefl | apply (Hrefl a)].
Qed.


Lemma js_compare_numeric a b :
  numeric a = true -> numeric b = true ->
  js_compare StringToNumber (or0 a) (or0 b) = Some (num a <? num b)%Z.
Proof.
  intros Ha Hb.
  destruct a as [| [|] | na | | sa | ta]; try discriminate;
    destruct b as [| [|] | nb | | sb | tb]; try discriminate;
    unfold or0; cbn [truthy];
    try reflexivity;
    repeat match goal with
           | |- context [(?n =? 0)%Z] =>
               let E := fresh "E" in
               destruct (n =? 0)%Z eqn:E;
               [apply Z.eqb_eq in E; subst|]
           end;
    reflexivity.
Qed.

Lemma compare_of_numeric d a b :
  numeric a = true -> numeric b = true ->
  compare_of d a b
  = match d with
    | asc => Z.sgn (num a - num b)
    | desc => Z.sgn (num b - num a)
    end.
Proof.
  intros Ha Hb.
  destruct d; cbn [SortModifier.compare_of];
    unfold SortModifier.ascending, SortModifier.descending, js_lt, js_gt;
    rewrite ?(js_compare_numeric a b Ha Hb), ?(js_compare_numeric b a Hb Ha);
    destruct (Z.ltb_spec (num a) (num b)); destruct (Z.ltb_spec (num b) (num a));
    lia.
Qed.

(** X9: on cells that are undefined, booleans or numbers the comparators
    follow the order of the numbers the cells stand for, undefined,
    false and NaN standing for 0 and true for 1: [ascending] is negative, zero
    or positive as the first number is below, equal to or above the
    second, and [descending] the other way round, whatever the engine
    makes of strings. *)
Theorem comparators_on_numbers (a b : CellType) :
  numeric a = true -> numeric b = true ->
  ascending a b = Z.sgn (num a - num b)
  /\ descending a b = Z.sgn (num b - num a)
  /\ (ascending a b = (-1)%Z <-> (num a < num b)%Z)
  /\ (ascending a b = 0%Z <-> num a = num b)
  /\ (ascending a b = 1%Z <-> (num b < num a)%Z).
Proof.
  intros Ha Hb.
  pose proof (compare_of_numeric asc a b Ha Hb) as Hasc.
  pose proof (compare_of_numeric desc a b Ha Hb) as Hdesc.
  cbn [SortModifier.compare_of] in Hasc, Hdesc.
  split; [exact Hasc|]. split; [exact Hdesc|]. rewrite Hasc. lia.
Qed.

Lemma ForallOrdPairs_nth {X : Type} (R : X -> X -> Prop) l d i j :
  ForallOrdPairs R l -> i < j -> j < List.length l ->
  R (nth i l d) (nth j l d).
Proof.
  intros H. revert i j. induction H as [|x l Hx Hl IH]; intros i j Hij Hj.
  - inversion Hj.
  - destruct j as [|j]; [lia|]. simpl in Hj. destruct i as [|i]; simpl.
    + rewrite Forall_forall in Hx. apply Hx. apply nth_In. lia.
    + apply IH; lia.
Qed.

Lemma ForallOrdPairs_map_seq {X : Type} (R : X -> X -> Prop) (f : nat -> X)
    k n :
  (forall i j, k <= i -> i < j -> j < k + n -> R (f i) (f j)) ->
  ForallOrdPairs R (map f (seq k n)).
Proof.
  revert k. induction n as [|n IH]; intros k H; simpl.
  - constructor.
  - constructor.
    + apply Forall_forall. intros y Hy. apply in_map_iff in Hy.
      destruct Hy as (j & <- & Hj). apply in_seq in Hj. apply H; lia.
    + apply IH. intros i j Hi Hij Hj. apply H; lia.
Qed.

Lemma StronglySorted_map {X Y : Type} (R : Y -> Y -> Prop) (f : X -> Y) l :
  StronglySorted (fun a b => R (f a) (f b)) l ->
  StronglySorted R (map f l).
Proof.
  induction 1 as [|x l Hs IH Hx]; simpl; constructor; [assumption|].
  apply Forall_forall. intros y Hy. apply in_map_iff in Hy.
  destruct Hy as (z & <- & Hz). rewrite Forall_forall in Hx. now apply Hx.
Qed.

Lemma StronglySorted_ForallOrdPairs {X : Type} (R : X -> X -> Prop) l :
  StronglySorted R l -> ForallOrdPairs R l.
Proof. induction 1; constructor; assumption. Qed.

Lemma obj_set_nonempty name (column : Column) (table : t) :
  obj_set name column table <> [].
Proof.
  unfold obj_set. destruct (obj_has name table) eqn:E.
  - destruct table as [|[k v] rest]; [discriminate E|]. simpl.
    destruct (k =? name)%string; discriminate.
  - destruct (array_index name) as [n|].
    + destruct table as [|[k v] rest]; simpl; [discriminate|].
      destruct (array_index k) as [n'|]; [|discriminate].
      destruct (n' <? n)%N; discriminate.
    + destruct table; discriminate.
Qed.

(** The references of a table against the cells of the order column. *)
Lemma key_references options (table : t) column :
  getColumn (orderByColumn options) table = Some column ->
  forall i, key options table (mkRowReference i (row_at i table))
            = array_get i column.
Proof.
  intros Hget i.
  assert (Hin : In (orderByColumn options) (getColumnNames table)).
  { apply obj_get_In in Hget. unfold getColumnNames, obj_keys.
    apply in_map_iff. now exists (orderByColumn options, column). }
  destruct (indexOf_column _ _ Hin) as (k & column' & Hk & Hget' & _ & Hcell).
  rewrite Hget in Hget'. injection Hget' as <-.
  unfold key. rewrite Hk, Nat2Z.id. apply Hcell.
Qed.

Lemma getColumn_In name (table : t) column :
  getColumn name table = Some column -> In name (getColumnNames table).
Proof.
  intros Hget. apply obj_get_In in Hget. unfold getColumnNames, obj_keys.
  apply in_map_iff. now exists (name, column).
Qed.

(** A table whose order column is in comparator order already keeps its
    references in row order. *)
Lemma sortedReferences_ordered options (table : t) column :
  uniform table ->
  getColumn (orderByColumn options) table = Some column ->
  ForallOrdPairs
    (fun a b => (compare_of (direction options) a b <= 0)%Z) column ->
  sortedReferences options table = references table.
Proof.
  intros Huni Hget Hord.
  rewrite sortedReferences_present by (eapply getColumn_In; eassumption).
  apply Array_sort_unchanged. unfold references.
  apply ForallOrdPairs_map_seq. intros i j _ Hij Hj.
  unfold precedes, SortSpec.compareRows.
  rewrite !(key_references options table column Hget).
  apply (ForallOrdPairs_nth _ column CUndefined i j Hord Hij).
  rewrite (uniform_column_length table _ column Huni Hget). lia.
Qed.

Lemma modify_references options (table : t) :
  uniform table -> orderIn options = None ->
  sortedReferences options table = references table ->
  fst (modify options table) = table.
Proof.
  intros Huni Hmode Hrefs. rewrite modify_rows by assumption.
  rewrite Hrefs, references_rows. now apply table_of_rows_getRows.
Qed.

(** X10: a table whose order column is already in the order of the
    comparator, every cell being put at or before every later one, is
    left as it is: with [orderInColumn] unset no row moves, with
    [orderInColumn] set every row gets its own index. *)
Theorem modify_ordered_table (options : Options) (table : t)
    (column : Column) :
  uniform table ->
  getColumn (orderByColumn options) table = Some column ->
  ForallOrdPairs
    (fun a b => (compare_of (direction options) a b <= 0)%Z) column ->
  let table' := fst (modify options table) in
  map index (sortedReferences options table) = seq 0 (getRowCount table)
  /\ (orderInColumn options = None \/ orderInColumn options = Some "" ->
      table' = table)
  /\ (forall name, orderInColumn options = Some name -> name <> "" ->
      getRowCount table <> 0 ->
      table'
      = obj_set name
          (map (fun i => CNumber (Z.of_nat i)) (seq 0 (getRowCount table)))
          table).
Proof.
  intros Huni Hget Hord table'.
  pose proof (sortedReferences_ordered options table column Huni Hget Hord)
    as Hrefs.
  split; [rewrite Hrefs; apply references_index|]. split.
  - intros Hmode. apply orderIn_unset in Hmode.
    now apply modify_references.
  - intros name Hmode Hname Hn.
    apply (orderIn_set options name) in Hmode; [|exact Hname].
    unfold table'. rewrite (modify_ranks _ _ name) by assumption.
    rewrite Hrefs. rewrite rankColumn_references; [reflexivity|].
    destruct (getColumn name table) as [c|] eqn:Ec; [|simpl; lia].
    rewrite (uniform_column_length table name c) by assumption. lia.
Qed.

Lemma orderIn_cases options :
  (orderIn options = None
   /\ (orderInColumn options = None \/ orderInColumn options = Some ""))
  \/ (exists name, orderIn options = Some name
                   /\ orderInColumn options = Some name /\ name <> "").
Proof.
  unfold orderIn. destruct (orderInColumn options) as [name|]; [|now left; auto].
  simpl. destruct (String.eqb_spec name "") as [->|Hne].
  - left. split; [reflexivity | now right].
  - right. now exists name.
Qed.

Lemma modify_rows_of options (table : t) :
  uniform table -> orderIn options = None ->
  getRows (fst (modify options table))
  = map row (sortedReferences options table).
Proof.
  intros Huni Hmode. rewrite modify_rows by assumption.
  apply getRows_table_of_rows; [apply sortedReferences_rows|].
  destruct table as [|c rest]; [right | left; discriminate].
  pose proof (length_sortedReferences StringToNumber options []) as Hlen.
  change (getRowCount []) with 0 in Hlen.
  now destruct (sortedReferences options []).
Qed.

Lemma modify_ranked options name (table : t) :
  uniform table -> orderIn options = Some name -> getRowCount table <> 0 ->
  exists ranks,
    fst (modify options table) = obj_set name ranks table
    /\ List.length ranks = getRowCount table.
Proof.
  intros Huni Hmode Hn.
  exists (rankColumn (sortedReferences options table)
            (match getColumn name table with Some c => c | None => [] end)).
  split; [now apply modify_ranks|].
  apply (rankColumn_spec StringToNumber options table); [|exact Hn].
  destruct (getColumn name table) as [c|] eqn:Ec; [|simpl; lia].
  rewrite (uniform_column_length table name c) by assumption. lia.
Qed.

Lemma sort_uniform options (table : t) :
  uniform table ->
  uniform (fst (modify options table))
  /\ getRowCount (fst (modify options table)) = getRowCount table.
Proof.
  intros Huni.
  destruct (orderIn_cases options) as [[Hmode _]|(name & Hmode & _)].
  - split.
    + rewrite modify_rows by assumption. apply uniform_table_of_rows.
    + rewrite <- (length_getRows (fst (modify options table))).
      rewrite modify_rows_of by assumption.
      now rewrite length_map, length_sortedReferences.
  - destruct (Nat.eq_dec (getRowCount table) 0) as [Hz|Hn].
    + rewrite modify_no_rows by assumption. now split.
    + destruct (modify_ranked options name table Huni Hmode Hn)
        as (ranks & -> & Hlen).
      assert (Hall : Forall (fun c => List.length (snd c) = getRowCount table)
                       (obj_set name ranks table)).
      { apply (Forall_obj_set (fun c => List.length c = getRowCount table));
          assumption. }
      split; [now apply (all_length_uniform (getRowCount table))|].
      apply all_length_getRowCount; [exact Hall | apply obj_set_nonempty].
Qed.

(** X11: sorting loses and invents nothing.  On a table whose columns have
    one length, whether or not it has the order column, the result has
    columns of one length again and as many rows as before; with
    [orderInColumn] unset it has the same column names and its rows are
    the rows of the table in another order; with [orderInColumn] set
    every column but the named one is as before. *)
Theorem modify_keeps_rows (options : Options) (table : t) :
  uniform table ->
  let table' := fst (modify options table) in
  uniform table'
  /\ getRowCount table' = getRowCount table
  /\ (orderInColumn options = None \/ orderInColumn options = Some "" ->
      getColumnNames table' = getColumnNames table
      /\ Permutation (getRows table') (getRows table))
  /\ (forall name other,
        orderInColumn options = Some name -> name <> "" -> other <> name ->
        getColumn other table' = getColumn other table).
Proof.
  intros Huni table'.
  destruct (sort_uniform options table Huni) as [Hu Hc].
  split; [exact Hu|]. split; [exact Hc|]. split.
  - intros Hmode. apply orderIn_unset in Hmode. split.
    + unfold table'. rewrite modify_rows by assumption.
      apply getColumnNames_table_of_rows.
    + unfold table'. rewrite modify_rows_of by assumption.
      rewrite <- references_rows. apply Permutation_map.
      apply sortedReferences_perm.
  - intros name other Hmode Hname Hne.
    apply (orderIn_set options name) in Hmode; [|exact Hname].
    destruct (Nat.eq_dec (getRowCount table) 0) as [Hz|Hn].
    + unfold table'. now rewrite modify_no_rows.
    + destruct (modify_ranked options name table Huni Hmode Hn)
        as (ranks & Ht & _).
      unfold table'. rewrite Ht. unfold getColumn.
      now apply obj_get_set_other.
Qed.

(** The order column of the sorted table: the keys of the references. *)
Lemma modify_order_column options (table : t) column :
  uniform table -> orderIn options = None ->
  getColumn (orderByColumn options) table = Some column ->
  getColumn (orderByColumn options) (fst (modify options table))
  = Some (map (key options table) (sortedReferences options table)).
Proof.
  intros Huni Hmode Hget.
  pose proof (getColumn_In _ _ _ Hget) as Hin.
  set (table' := fst (modify options table)).
  assert (Hnames : getColumnNames table' = getColumnNames table).
  { unfold table'. rewrite modify_rows by assumption.
    apply getColumnNames_table_of_rows. }
  assert (Hin' : In (orderByColumn options) (getColumnNames table'))
    by now rewrite Hnames.
  destruct (indexOf_column _ _ Hin') as (k & column' & Hk & Hget' & _ & Hcell).
  rewrite Hget'. f_equal.
  destruct (sort_uniform options table Huni) as [Hu Hc].
  fold table' in Hu, Hc.
  assert (Hlen : List.length column' = getRowCount table)
    by (rewrite <- Hc;
        now apply (uniform_column_length table' (orderByColumn options))).
  apply nth_ext with (d := CUndefined) (d' := CUndefined).
  - now rewrite length_map, length_sortedReferences.
  - intros i Hi. rewrite Hlen in Hi.
    change (nth i column' CUndefined) with (array_get i column').
    rewrite <- Hcell.
    assert (Hrow : row_at i table'
                   = row (nth i (sortedReferences options table)
                            (mkRowReference 0 []))).
    { rewrite <- Hc in Hi. rewrite <- (nth_getRows i table' Hi).
      unfold table'. rewrite modify_rows_of by assumption.
      change [] with (row (mkRowReference 0 [])) at 1.
      now rewrite map_nth. }
    rewrite Hrow.
    rewrite (nth_indep _ CUndefined
               (key options table (mkRowReference 0 [])))
      by (now rewrite length_map, length_sortedReferences).
    rewrite (map_nth (key options table)).
    unfold key. rewrite <- Hnames, Hk, Nat2Z.id. reflexivity.
Qed.

Lemma StronglySorted_within {X : Type} (P Q : X -> X -> Prop) l :
  (forall a b, In a l -> In b l -> P a b -> Q a b) ->
  StronglySorted P l -> StronglySorted Q l.
Proof.
  intros H Hs. induction Hs as [|x l Hs IH Hx]; constructor.
  - apply IH. intros a b Ha Hb. apply H; now right.
  - rewrite Forall_forall in *. intros y Hy.
    apply H; [now left | now right | now apply Hx].
Qed.

(** The references of a table with a numeric order column come out of
    the sort in the order of the numbers. *)
Lemma sortedReferences_numeric options (table : t) column :
  uniform table ->
  getColumn (orderByColumn options) table = Some column ->
  forallb numeric column = true ->
  (forall r, In r (sortedReferences options table) ->
             numeric (key options table r) = true)
  /\ StronglySorted (precedes (compareRows options table))
       (sortedReferences options table).
Proof.
  intros Huni Hget Hnum.
  assert (Hkey : forall r, In r (references table) ->
                           numeric (key options table r) = true).
  { intros r Hr. unfold references in Hr. apply in_map_iff in Hr.
    destruct Hr as (i & <- & Hi). apply in_seq in Hi.
    rewrite (key_references options table column Hget).
    rewrite forallb_forall in Hnum. apply Hnum. apply nth_In.
    rewrite (uniform_column_length table _ column Huni Hget). lia. }
  split.
  - intros r Hr. apply Hkey.
    now apply (Permutation_in _
                 (sortedReferences_perm StringToNumber options table)).
  - rewrite sortedReferences_present by (eapply getColumn_In; eassumption).
    apply Array_sort_sorted.
    + intros x y H. unfold precedes, SortSpec.compareRows in *.
      apply compare_of_antisym in H. lia.
    + intros a b c Ha Hb Hc. unfold precedes, SortSpec.compareRows.
      rewrite !compare_of_numeric by (now apply Hkey).
      destruct (direction options); lia.
Qed.

(** X12: a table whose order column holds only undefined cells, booleans and
    numbers comes out of the sort with that column in the order of the
    numbers, non-decreasing for [asc] and non-increasing for [desc], its
    cells being those of before; sorting the result again changes
    nothing. *)
Theorem modify_numeric_column (options : Options) (table : t)
    (column : Column) :
  uniform table ->
  getColumn (orderByColumn options) table = Some column ->
  forallb numeric column = true ->
  orderInColumn options = None \/ orderInColumn options = Some "" ->
  let once := fst (modify options table) in
  (exists sorted,
      getColumn (orderByColumn options) once = Some sorted
      /\ Permutation sorted column
      /\ StronglySorted
           (fun a b => match direction options with
                       | asc => (num a <= num b)%Z
                       | desc => (num b <= num a)%Z
                       end) sorted)
  /\ fst (modify options once) = once.
Proof.
  intros Huni Hget Hnum Hmode once. apply orderIn_unset in Hmode.
  destruct (sortedReferences_numeric options table column Huni Hget Hnum)
    as [Hkey Hsorted].
  set (refs := sortedReferences options table) in *.
  assert (Hcol : getColumn (orderByColumn options) once
                 = Some (map (key options table) refs))
    by (now apply (modify_order_column options table column)).
  split.
  - exists (map (key options table) refs).
    split; [exact Hcol|]. split.
    + transitivity (map (key options table) (references table)).
      * apply Permutation_map, sortedReferences_perm.
      * unfold references. rewrite map_map.
        rewrite (map_ext _ _ (key_references options table column Hget)).
        rewrite <- (uniform_column_length table _ column Huni Hget).
        rewrite map_nth_seq. apply Permutation_refl.
    + apply StronglySorted_map.
      apply (StronglySorted_within (precedes (compareRows options table)));
        [|exact Hsorted].
      intros a b Ha Hb. unfold precedes, SortSpec.compareRows.
      rewrite compare_of_numeric by (now apply Hkey).
      destruct (direction options); lia.
  - destruct (sort_uniform options table Huni) as [Hu _].
    apply modify_references; [exact Hu | exact Hmode|].
    apply (sortedReferences_ordered options once
             (map (key options table) refs) Hu Hcol).
    apply StronglySorted_ForallOrdPairs, StronglySorted_map.
    exact Hsorted.
Qed.

(** X25: with [orderInColumn] set, the named column of the result holds each
    of the numbers 0, 1, ... up to the row count exactly once, whether
    or not the table has the order column. *)
Theorem modify_ranks_each_once (options : Options) (table : t)
    (name : string) :
  uniform table ->
  orderInColumn options = Some name -> name <> "" ->
  getRowCount table <> 0 ->
  exists ranks,
    getColumn name (fst (modify options table)) = Some ranks
    /\ Permutation ranks
         (map (fun p => CNumber (Z.of_nat p)) (seq 0 (getRowCount table))).
Proof.
  intros Huni Hmode Hname Hn.
  apply (orderIn_set options name) in Hmode; [|exact Hname].
  set (refs := sortedReferences options table).
  set (column := match getColumn name table with Some c => c | None => [] end).
  exists (rankColumn refs column).
  assert (Hlen : List.length column <= getRowCount table).
  { unfold column. destruct (getColumn name table) as [c|] eqn:Ec;
      [|simpl; lia].
    rewrite (uniform_column_length table name c) by assumption. lia. }
  destruct (rankColumn_spec StringToNumber options table column Hlen)
    as [Hl Hp].
  fold refs in Hl, Hp. specialize (Hl Hn).
  set (ranks := rankColumn refs column) in *.
  split.
  - rewrite (modify_ranks _ _ name) by assumption.
    unfold getColumn. apply obj_get_set_same.
  - assert (Hrefs : List.length refs = getRowCount table)
      by apply length_sortedReferences.
    rewrite <- (map_nth_seq ranks), Hl.
    transitivity (map (fun i => array_get i ranks) (map index refs)).
    + apply Permutation_map. rewrite <- references_index.
      apply Permutation_sym, Permutation_map, sortedReferences_perm.
    + rewrite map_map.
      rewrite <- (map_nth_all refs (mkRowReference 0 [])) at 1.
      rewrite map_map, Hrefs.
      erewrite map_ext_in; [apply Permutation_refl|].
      intros p Hp'. apply in_seq in Hp'. apply Hp. lia.
Qed.

Lemma StronglySorted_strict {X : Type} (f : X -> Z) l :
  StronglySorted (fun a b => (f a <= f b)%Z) l -> NoDup (map f l) ->
  StronglySorted (fun a b => (f a < f b)%Z) l.
Proof.
  induction 1 as [|x l Hs IH Hx]; intros Hnd; constructor.
  - apply IH. now inversion Hnd.
  - cbn [map] in Hnd. inversion Hnd as [|? ? Hn _]; subst.
    rewrite Forall_forall in *. intros y Hy.
    assert (f x <> f y).
    { intros E. apply Hn. rewrite E. now apply in_map. }
    specialize (Hx y Hy). lia.
Qed.

Lemma NoDup_map_opp {X : Type} (f : X -> Z) l :
  NoDup (map f l) -> NoDup (map (fun r => (- f r)%Z) l).
Proof.
  induction l as [|x l IH]; intros H; [constructor|]. cbn [map] in *.
  inversion H as [|? ? Hn Hnd]; subst. constructor; [|now apply IH].
  intros Hin. apply Hn. apply in_map_iff in Hin.
  destruct Hin as (y & E & Hy). apply in_map_iff. exists y.
  split; [lia | exact Hy].
Qed.

Lemma StronglySorted_rev {X : Type} (R : X -> X -> Prop) l :
  StronglySorted R l -> StronglySorted (fun a b => R b a) (List.rev l).
Proof.
  induction 1 as [|x l Hs IH Hx]; [constructor|]. simpl.
  assert (H : forall l1 : list X,
             StronglySorted (fun a b => R b a) l1 ->
             Forall (fun y => R x y) l1 ->
             StronglySorted (fun a b => R b a) (l1 ++ [x])).
  { induction 1 as [|y l1 Hs1 IH1 Hy]; intros Hall; simpl.
    - repeat constructor.
    - apply Forall_cons_iff in Hall. destruct Hall as [Hxy Hall].
      constructor; [now apply IH1|].
      apply Forall_app. split; [assumption|]. now constructor. }
  apply H; [exact IH|].
  apply Forall_forall. intros y Hy. apply in_rev in Hy.
  rewrite Forall_forall in Hx. now apply Hx.
Qed.

(** A list in strictly increasing order is the only one of its
    rearrangements that is. *)
Lemma sorted_unique {X : Type} (f : X -> Z) l1 :
  forall l2,
    StronglySorted (fun a b => (f a < f b)%Z) l1 ->
    StronglySorted (fun a b => (f a < f b)%Z) l2 ->
    Permutation l1 l2 -> l1 = l2.
Proof.
  induction l1 as [|x l1 IH]; intros l2 H1 H2 Hp.
  - apply Permutation_nil in Hp. now subst.
  - destruct l2 as [|y l2];
      [apply Permutation_sym, Permutation_nil in Hp; discriminate|].
    inversion H1 as [|? ? Hs1 Hx]; subst.
    inversion H2 as [|? ? Hs2 Hy]; subst.
    rewrite Forall_forall in Hx, Hy.
    assert (E : x = y).
    { assert (Hxin : In x (y :: l2))
        by (apply (Permutation_in _ Hp); now left).
      assert (Hyin : In y (x :: l1))
        by (apply (Permutation_in _ (Permutation_sym Hp)); now left).
      destruct Hxin as [E|Hxin]; [now symmetry|].
      destruct Hyin as [E|Hyin]; [exact E|].
      specialize (Hx y Hyin). specialize (Hy x Hxin). lia. }
    subst y. f_equal. apply IH; try assumption.
    now apply Permutation_cons_inv in Hp.
Qed.

(** X26: direction symmetry.  When the order column holds only undefined
    cells, booleans and numbers that stand for distinct numbers, sorting
    in descending order takes the rows in the reverse of the ascending
    order. *)
Theorem modify_directions_mirror (modifier by_column : string)
    (in_column : option string) (table : t) (column : Column) :
  let ascending_options := mkOptions modifier asc by_column in_column in
  let descending_options := mkOptions modifier desc by_column in_column in
  uniform table ->
  getColumn by_column table = Some column ->
  forallb numeric column = true ->
  NoDup (map num column) ->
  map index (sortedReferences descending_options table)
  = List.rev (map index (sortedReferences ascending_options table))
  /\ (in_column = None \/ in_column = Some "" ->
      getRows (fst (modify descending_options table))
      = List.rev (getRows (fst (modify ascending_options table)))).
Proof.
  intros oa od Huni Hget Hnum Hnd.
  set (f := fun r => num (key oa table r)).
  destruct (sortedReferences_numeric oa table column Huni Hget Hnum)
    as [Hka Hsa].
  destruct (sortedReferences_numeric od table column Huni Hget Hnum)
    as [Hkd Hsd].
  set (A := sortedReferences oa table) in *.
  set (D := sortedReferences od table) in *.
  assert (Hpa : Permutation A (references table))
    by apply sortedReferences_perm.
  assert (Hpd : Permutation D (references table))
    by apply sortedReferences_perm.
  assert (Hfr : map f (references table) = map num column).
  { unfold references. rewrite map_map. unfold f.
    rewrite (map_ext _ _
               (fun i => f_equal num (key_references oa table column Hget i))).
    rewrite <- (map_map (fun i => array_get i column) num).
    rewrite <- (uniform_column_length table _ column Huni Hget).
    now rewrite map_nth_seq. }
  assert (Hnda : NoDup (map f A)).
  { eapply Permutation_NoDup;
      [apply Permutation_sym, Permutation_map, Hpa|]. now rewrite Hfr. }
  assert (Hndd : NoDup (map f D)).
  { eapply Permutation_NoDup;
      [apply Permutation_sym, Permutation_map, Hpd|]. now rewrite Hfr. }
  assert (Hsa' : StronglySorted (fun a b => (f a < f b)%Z) A).
  { apply StronglySorted_strict; [|exact Hnda].
    apply (StronglySorted_within (precedes (compareRows oa table)));
      [|exact Hsa].
    intros a b Ha Hb. unfold precedes, SortSpec.compareRows, f.
    rewrite compare_of_numeric by (now apply Hka).
    unfold oa. cbn [direction]. lia. }
  assert (Hsd' : StronglySorted (fun a b => (f b < f a)%Z) D).
  { apply (StronglySorted_within (fun a b => (- f a < - f b)%Z));
      [intros a b _ _; lia|].
    apply (StronglySorted_strict (fun r => (- f r)%Z)).
    - apply (StronglySorted_within (precedes (compareRows od table)));
        [|exact Hsd].
      intros a b Ha Hb. unfold precedes, SortSpec.compareRows, f.
      change (key oa table) with (key od table).
      rewrite compare_of_numeric by (now apply Hkd).
      unfold od. cbn [direction]. lia.
    - now apply NoDup_map_opp. }
  assert (E : A = List.rev D).
  { apply (sorted_unique f); [exact Hsa' | |].
    - apply (StronglySorted_rev (fun a b => (f b < f a)%Z)). exact Hsd'.
    - rewrite Hpa. rewrite <- Hpd. apply Permutation_rev. }
  assert (E' : D = List.rev A) by (rewrite E; now rewrite rev_involutive).
  split.
  - now rewrite E', map_rev.
  - intros Hmode.
    rewrite !modify_rows_of; try assumption; try (now apply orderIn_unset).
    fold A D. now rewrite E', map_rev.
Qed.

End WithEngine.

(** The table [xy], sorted by its column "x" in ascending order. *)
Lemma modify_keeps_rows_witness :
  uniform Samples.xy
  /\ getRowCount
       (fst (modify Samples.noNumber (mkOptions "Order" asc "x" None)
               Samples.xy)) = 3.
Proof.
  split; [exact SampleFacts.uniform_xy|].
  exact (proj1 (proj2 (modify_keeps_rows Samples.noNumber
                         (mkOptions "Order" asc "x" None) Samples.xy
                         SampleFacts.uniform_xy))).
Defined.

(** The table [xy], ranked by its column "x" into the column "rank". *)
Lemma modify_ranks_each_once_witness :
  let options := mkOptions "Order" asc "x" (Some "rank") in
  uniform Samples.xy /\ "rank" <> "" /\ getRowCount Samples.xy <> 0
  /\ exists ranks,
       getColumn "rank" (fst (modify Samples.noNumber options Samples.xy))
       = Some ranks
       /\ Permutation ranks [CNumber 0; CNumber 1; CNumber 2].
Proof.
  intros options.
  assert (Hname : "rank" <> "") by discriminate.
  assert (Hrows : getRowCount Samples.xy <> 0) by discriminate.
  split; [exact SampleFacts.uniform_xy|]. split; [exact Hname|].
  split; [exact Hrows|].
  exact (modify_ranks_each_once Samples.noNumber options Samples.xy "rank"
           SampleFacts.uniform_xy eq_refl Hname Hrows).
Defined.

(** The table [xy], whose column "x" holds 3, 1, 2, in both
    directions. *)
Lemma modify_directions_mirror_witness :
  uniform Samples.xy
  /\ forallb numeric [CNumber 3; CNumber 1; CNumber 2] = true
  /\ NoDup (map num [CNumber 3; CNumber 1; CNumber 2])
  /\ map index (sortedReferences Samples.noNumber
                  (mkOptions "Order" desc "x" None) Samples.xy)
     = List.rev (map index (sortedReferences Samples.noNumber
                              (mkOptions "Order" asc "x" None) Samples.xy)).
Proof.
  assert (Hnd : NoDup (map num [CNumber 3; CNumber 1; CNumber 2])).
  { repeat constructor; simpl; intuition discriminate. }
  split; [exact SampleFacts.uniform_xy|]. split; [reflexivity|].
  split; [exact Hnd|].
  exact (proj1 (modify_directions_mirror Samples.noNumber "Order" "x" None
                  Samples.xy [CNumber 3; CNumber 1; CNumber 2]
                  SampleFacts.uniform_xy eq_refl eq_refl Hnd)).
Defined.

(** An undefined cell against the number -1: undefined stands for 0. *)
Lemma comparators_on_numbers_witness :
  numeric CUndefined = true /\ numeric (CNumber (-1)) = true
  /\ ascending Samples.noNumber CUndefined (CNumber (-1)) = 1%Z.
Proof.
  split; [reflexivity|]. split; [reflexivity|].
  rewrite (proj1 (comparators_on_numbers Samples.noNumber CUndefined
                    (CNumber (-1)) eq_refl eq_refl)).
  reflexivity.
Defined.

(** A table in ascending order of its column "x", with a tie. *)
Lemma modify_ordered_table_witness :
  let table := [("x", [CNumber 1; CNumber 2; CNumber 2]);
                ("y", [CString "a"; CString "b"; CString "c"])] in
  uniform table
  /\ ForallOrdPairs
       (fun a b => (compare_of Samples.noNumber asc a b <= 0)%Z)
       [CNumber 1; CNumber 2; CNumber 2]
  /\ fst (modify Samples.noNumber (mkOptions "Order" asc "x" None) table)
     = table.
Proof.
  intros table.
  assert (Huni : uniform table) by (repeat constructor).
  assert (Hord : ForallOrdPairs
                   (fun a b => (compare_of Samples.noNumber asc a b <= 0)%Z)
                   [CNumber 1; CNumber 2; CNumber 2]).
  { repeat constructor; intros H; discriminate H. }
  split; [exact Huni|]. split; [exact Hord|].
  exact (proj1 (proj2 (modify_ordered_table Samples.noNumber
                         (mkOptions "Order" asc "x" None) table
                         [CNumber 1; CNumber 2; CNumber 2]
                         Huni eq_refl Hord))
           (or_introl eq_refl)).
Defined.

(** The table [xy], sorted twice by its column "x" in descending
    order. *)
Lemma modify_numeric_column_witness :
  let options := mkOptions "Order" desc "x" None in
  uniform Samples.xy
  /\ forallb numeric [CNumber 3; CNumber 1; CNumber 2] = true
  /\ fst (modify Samples.noNumber options
            (fst (modify Samples.noNumber options Samples.xy)))
     = fst (modify Samples.noNumber options Samples.xy).
Proof.
  intros options.
  split; [exact SampleFacts.uniform_xy|]. split; [reflexivity|].
  exact (proj2 (modify_numeric_column Samples.noNumber options Samples.xy
                  [CNumber 3; CNumber 1; CNumber 2]
                  SampleFacts.uniform_xy eq_refl eq_refl
                  (or_introl eq_refl))).
Defined.

End SortLaws.

(* ------------------------------------------------------------------ *)
(** ** Array.prototype.sort: the contract *)

Lemma ForallOrdPairs_within {X : Type} (P Q : X -> X -> Prop) l :
  (forall a b, In a l -> In b l -> P a b -> Q a b) ->
  ForallOrdPairs P l -> ForallOrdPairs Q l.
Proof.
  intros H Hp. induction Hp as [|x l Hx Hl IH]; constructor.
  - rewrite Forall_forall in *. intros y Hy.
    apply H; [now left | now right | now apply Hx].
  - apply IH. intros a b Ha Hb. apply H; now right.
Qed.

Lemma ForallOrdPairs_map {X Y : Type} (R : Y -> Y -> Prop) (f : X -> Y) l :
  ForallOrdPairs (fun a b => R (f a) (f b)) l ->
  ForallOrdPairs R (map f l).
Proof.
  induction 1 as [|x l Hx Hl IH]; simpl; constructor; [|assumption].
  apply Forall_forall. intros y Hy. apply in_map_iff in Hy.
  destruct Hy as (z & <- & Hz). rewrite Forall_forall in Hx. now apply Hx.
Qed.

Lemma ForallOrdPairs_and {X : Type} (P Q : X -> X -> Prop) l :
  ForallOrdPairs P l -> ForallOrdPairs Q l ->
  ForallOrdPairs (fun a b => P a b /\ Q a b) l.
Proof.
  induction 1 as [|x l Hx Hl IH]; intros Hq; [constructor|].
  inversion Hq as [|? ? Hx' Hl']; subst. constructor; [|now apply IH].
  rewrite Forall_forall in *. intros y Hy.
  split; [now apply Hx | now apply Hx'].
Qed.

(** Two arrangements of the same distinct elements, both in an order
    that no two of the elements satisfy both ways round, are the
    same. *)
Lemma arranged_unique {X : Type} (R : X -> X -> Prop) l1 :
  forall l2,
    NoDup l1 ->
    (forall x y, In x l1 -> In y l1 -> x <> y -> R x y -> R y x -> False) ->
    ForallOrdPairs R l1 -> ForallOrdPairs R l2 ->
    Permutation l1 l2 -> l1 = l2.
Proof.
  induction l1 as [|x l1 IH]; intros l2 Hnd Hanti H1 H2 Hp.
  - apply Permutation_nil in Hp. now subst.
  - destruct l2 as [|y l2];
      [apply Permutation_sym, Permutation_nil in Hp; discriminate|].
    inversion H1 as [|? ? Hx Hs1]; subst.
    inversion H2 as [|? ? Hy Hs2]; subst.
    inversion Hnd as [|? ? Hnx Hnd1]; subst.
    rewrite Forall_forall in Hx, Hy.
    assert (Hxin : In x (y :: l2))
      by (apply (Permutation_in _ Hp); now left).
    assert (Hyin : In y (x :: l1))
      by (apply (Permutation_in _ (Permutation_sym Hp)); now left).
    assert (E : x = y).
    { destruct Hxin as [E|Hxin]; [now symmetry|].
      destruct Hyin as [E|Hyin]; [exact E|].
      exfalso. apply (Hanti x y);
        [now left | now right | | now apply Hx | now apply Hy].
      intros E. subst y. contradiction. }
    subst y. f_equal. apply IH; try assumption.
    + intros a b Ha Hb. apply Hanti; now right.
    + now apply Permutation_cons_inv in Hp.
Qed.

Lemma map_Some_inj {X : Type} (l1 l2 : list X) :
  map Some l1 = map Some l2 -> l1 = l2.
Proof.
  revert l2. induction l1 as [|x l1 IH]; intros [|y l2] H;
    try discriminate; [reflexivity|].
  simpl in H. injection H as -> H. f_equal. now apply IH.
Qed.

(** The elements of an array paired with their positions. *)
Lemma In_combine_seq {X : Type} (l : list X) k i a :
  In (i, a) (combine (seq k (List.length l)) l) ->
  k <= i /\ nth_error l (i - k) = Some a.
Proof.
  revert k. induction l as [|x l IH]; intros k H; simpl in H; [destruct H|].
  destruct H as [H|H].
  - injection H as <- <-. rewrite Nat.sub_diag. split; [lia | reflexivity].
  - apply IH in H. destruct H as [Hk Hn]. split; [lia|].
    replace (i - k) with (S (i - S k)) by lia. exact Hn.
Qed.

Lemma combine_seq_before {X : Type} (l : list X) k :
  ForallOrdPairs (fun x y : nat * X => fst x < fst y)
    (combine (seq k (List.length l)) l).
Proof.
  revert k. induction l as [|x l IH]; intros k; simpl; constructor.
  - apply Forall_forall. intros [i a] Hi. apply In_combine_seq in Hi.
    simpl. lia.
  - apply IH.
Qed.

Lemma map_fst_combine_seq {X : Type} (l : list X) k :
  map fst (combine (seq k (List.length l)) l) = seq k (List.length l).
Proof.
  revert k. induction l as [|x l IH]; intros k; simpl; [reflexivity|].
  now rewrite IH.
Qed.

Lemma map_snd_combine_seq {X : Type} (l : list X) k :
  map snd (combine (seq k (List.length l)) l) = l.
Proof.
  revert k. induction l as [|x l IH]; intros k; simpl; [reflexivity|].
  now rewrite IH.
Qed.

Section SortContractFacts.
Context {A : Type} (comparefn : A -> A -> Z).

Local Abbreviation precedes := (precedes comparefn).

(** A consistent comparator orders the elements in classes: putting an
    element at or before another is transitive. *)
Lemma consistent_precedes l :
  consistent comparefn l ->
  (forall a b, In a l -> In b l -> (0 < comparefn a b)%Z -> precedes b a)
  /\ (forall a b c, In a l -> In b l -> In c l ->
        precedes a b -> precedes b c -> precedes a c).
Proof.
  intros (Hrefl & Hsym & Hflip & Heq & Hlt & Hgt). unfold precedes.
  split.
  - intros a b Ha Hb H. apply (Hflip b a Hb Ha) in H. lia.
  - intros a b c Ha Hb Hc Hab Hbc.
    destruct (Z.lt_trichotomy (comparefn a c) 0) as [H|[H|H]]; [lia | lia |].
    exfalso.
    assert (Hca : (comparefn c a < 0)%Z) by (now apply (Hflip c a Hc Ha)).
    destruct (Z.lt_trichotomy (comparefn a b) 0) as [H1|[H1|H1]]; [| |lia].
    + (* c < a < b, so c < b *)
      pose proof (Hlt c a b Hc Ha Hb Hca H1) as Hcb.
      apply (Hflip c b Hc Hb) in Hcb. lia.
    + destruct (Z.lt_trichotomy (comparefn b c) 0) as [H2|[H2|H2]]; [| |lia].
      * (* b < c < a, so b < a *)
        pose proof (Hlt b c a Hb Hc Ha H2 Hca) as Hba.
        apply (Hflip b a Hb Ha) in Hba. lia.
      * pose proof (Heq a b c Ha Hb Hc H1 H2). lia.
Qed.

Lemma sort_insert_sorted_on (universe : list A) x l :
  (forall a b, In a universe -> In b universe ->
               (0 < comparefn a b)%Z -> precedes b a) ->
  (forall a b c, In a universe -> In b universe -> In c universe ->
                 precedes a b -> precedes b c -> precedes a c) ->
  In x universe -> incl l universe ->
  StronglySorted precedes l ->
  StronglySorted precedes (sort_insert comparefn x l).
Proof.
  intros Hanti Htrans Hx. induction l as [|y l IH]; intros Hincl Hs; simpl.
  - constructor; constructor.
  - inversion Hs as [|? ? Hs' Hy]; subst.
    assert (Hy_in : In y universe) by (apply Hincl; now left).
    assert (Hl_in : incl l universe)
      by (intros z Hz; apply Hincl; now right).
    destruct (0 <? comparefn x y)%Z eqn:E.
    + constructor; [now apply IH|].
      apply Forall_forall. intros z Hz.
      apply (Permutation_in _ (sort_insert_perm comparefn x l)) in Hz.
      destruct Hz as [<-|Hz].
      * apply Hanti; [assumption | assumption | now apply Z.ltb_lt].
      * rewrite Forall_forall in Hy. now apply Hy.
    + apply Z.ltb_ge in E. constructor; [assumption|].
      constructor; [exact E|].
      apply Forall_forall. intros z Hz.
      rewrite Forall_forall in Hy.
      apply (Htrans x y z); auto.
Qed.

Lemma Array_sort_sorted_on l :
  consistent comparefn l ->
  StronglySorted precedes (Array_sort comparefn l).
Proof.
  intros Hc. destruct (consistent_precedes l Hc) as [Hanti Htrans].
  assert (H : forall l', incl l' l ->
                         StronglySorted precedes (Array_sort comparefn l')).
  { induction l' as [|x l' IH]; intros Hincl; simpl.
    - constructor.
    - apply (sort_insert_sorted_on l); auto.
      + apply Hincl. now left.
      + intros z Hz.
        apply (Permutation_in _ (Array_sort_perm comparefn l')) in Hz.
        apply Hincl. now right.
      + apply IH. intros z Hz. apply Hincl. now right. }
  apply H. apply incl_refl.
Qed.

End SortContractFacts.

Lemma sort_insert_map {X Y : Type} (comparefn : Y -> Y -> Z) (f : X -> Y)
    x l :
  map f (sort_insert (fun a b => comparefn (f a) (f b)) x l)
  = sort_insert comparefn (f x) (map f l).
Proof.
  induction l as [|y l IH]; simpl; [reflexivity|].
  destruct (0 <? comparefn (f x) (f y))%Z; simpl; [now rewrite IH | reflexivity].
Qed.

Lemma Array_sort_map {X Y : Type} (comparefn : Y -> Y -> Z) (f : X -> Y) l :
  map f (Array_sort (fun a b => comparefn (f a) (f b)) l)
  = Array_sort comparefn (map f l).
Proof.
  induction l as [|x l IH]; simpl; [reflexivity|].
  now rewrite sort_insert_map, IH.
Qed.

(** The insertion sort meets the contract. *)
Lemma Array_sort_conforming : conforming (@Array_sort).
Proof.
  intros A comparefn l. split; [apply Array_sort_perm|]. intros Hc.
  set (pairs := combine (seq 0 (List.length l)) l).
  set (cmp := fun x y : nat * A => comparefn (snd x) (snd y)).
  set (sorted := Array_sort cmp pairs).
  assert (Hperm : Permutation sorted pairs) by apply Array_sort_perm.
  assert (Hpair : forall x, In x sorted ->
                            nth_error l (fst x) = Some (snd x) /\ In (snd x) l).
  { intros [i a] Hx. apply (Permutation_in _ Hperm) in Hx.
    pose proof (in_combine_r _ _ _ _ Hx) as Hin.
    apply In_combine_seq in Hx. rewrite Nat.sub_0_r in Hx.
    split; [apply Hx | exact Hin]. }
  assert (Hres : Array_sort comparefn l = map snd sorted).
  { unfold sorted, cmp. rewrite (Array_sort_map comparefn snd).
    unfold pairs. now rewrite map_snd_combine_seq. }
  exists (map fst sorted). split; [|split].
  - unfold pairs in Hperm. rewrite <- (map_fst_combine_seq l 0).
    now apply Permutation_map.
  - rewrite Hres, !map_map. apply map_ext_in. intros x Hx.
    now apply Hpair.
  - apply ForallOrdPairs_map.
    assert (Hcons : consistent cmp pairs).
    { destruct Hc as (Hrefl & Hsym & Hflip & Heq & Hlt & Hgt).
      assert (Hin : forall x, In x pairs -> In (snd x) l).
      { intros [i a] Hx. exact (in_combine_r _ _ _ _ Hx). }
      unfold cmp. split; [|split; [|split; [|split; [|split]]]].
      - intros a Ha. apply Hrefl. now apply Hin.
      - intros a b Ha Hb. apply Hsym; now apply Hin.
      - intros a b Ha Hb. apply Hflip; now apply Hin.
      - intros a b c Ha Hb Hc. apply Heq; now apply Hin.
      - intros a b c Ha Hb Hc. apply Hlt; now apply Hin.
      - intros a b c Ha Hb Hc. apply Hgt; now apply Hin. }
    pose proof (Array_sort_sorted_on cmp pairs Hcons) as Hsorted.
    apply SortLaws.StronglySorted_ForallOrdPairs in Hsorted.
    pose proof (Array_sort_justified cmp
                  (fun x y : nat * A => fst x < fst y) pairs
                  (combine_seq_before l 0)) as Hjust.
    fold sorted in Hsorted, Hjust.
    apply (ForallOrdPairs_within _ _ sorted)
      with (2 := ForallOrdPairs_and _ _ sorted Hsorted Hjust).
    intros x y Hx Hy [Hxy Hj] a b Ea Eb.
    destruct (Hpair x Hx) as [Ex Hxl]. destruct (Hpair y Hy) as [Ey Hyl].
    rewrite Ex in Ea. rewrite Ey in Eb.
    injection Ea as <-. injection Eb as <-.
    destruct Hc as (Hrefl & Hsym & Hflip & Heq & Hlt & Hgt).
    unfold precedes, justified, cmp in Hxy, Hj. split.
    + intros H. apply (Hflip (snd y) (snd x) Hyl Hxl) in H. lia.
    + intros E. destruct Hj as [Hj|Hj]; [exact Hj|].
      apply (Hsym _ _ Hxl Hyl) in E. lia.
Qed.

(** With a consistent comparator the contract leaves one result. *)
Lemma sorted_stably_unique {A : Type} (comparefn : A -> A -> Z) l r1 r2 :
  consistent comparefn l ->
  sorted_stably comparefn l r1 -> sorted_stably comparefn l r2 -> r1 = r2.
Proof.
  intros (Hrefl & Hsym & Hflip & _) (p1 & Hp1 & Hr1 & Ho1) (p2 & Hp2 & Hr2 & Ho2).
  assert (E : p1 = p2).
  { apply (arranged_unique _ p1 p2) with (3 := Ho1) (4 := Ho2).
    - apply (Permutation_NoDup (Permutation_sym Hp1)), seq_NoDup.
    - intros p q Hp Hq Hne Hpq Hqp.
      apply (Permutation_in _ Hp1) in Hp. apply in_seq in Hp.
      apply (Permutation_in _ Hp1) in Hq. apply in_seq in Hq.
      destruct (nth_error l p) as [a|] eqn:Ea;
        [|apply nth_error_None in Ea; lia].
      destruct (nth_error l q) as [b|] eqn:Eb;
        [|apply nth_error_None in Eb; lia].
      pose proof (nth_error_In _ _ Ea) as Ha.
      pose proof (nth_error_In _ _ Eb) as Hb.
      destruct (Hpq a b eq_refl eq_refl) as [H1 H2].
      destruct (Hqp b a eq_refl eq_refl) as [H3 H4].
      pose proof (Hflip a b Ha Hb) as F1.
      pose proof (Hflip b a Hb Ha) as F2.
      assert (E : comparefn a b = 0%Z) by lia.
      pose proof (Hsym a b Ha Hb E). lia.
    - now rewrite Hp1, Hp2. }
  subst p2. apply map_Some_inj. now rewrite <- Hr1, <- Hr2.
Qed.

(** Every sort that meets the contract returns, for a consistent
    comparator, what the insertion sort returns. *)
Lemma conforming_agree
    (sort : forall A : Type, (A -> A -> Z) -> list A -> list A)
    {A : Type} (comparefn : A -> A -> Z) l :
  conforming sort -> consistent comparefn l ->
  sort A comparefn l = Array_sort comparefn l.
Proof.
  intros Hsort Hc.
  apply (sorted_stably_unique comparefn l); [exact Hc | |].
  - now apply Hsort.
  - now apply Array_sort_conforming.
Qed.

(* ------------------------------------------------------------------ *)
(** ** SortModifier: the order of the rows *)

Module SortOrderClaims.
Import DataTable TableSpec TableFacts SortModifier SortSpec SortFacts SortLaws.

Lemma ltb_irrefl s : String.ltb s s = false.
Proof.
  unfold String.ltb.
  pose proof (proj2 (OrderedTypeEx.String_as_OT.cmp_eq s s) eq_refl) as E.
  unfold OrderedTypeEx.String_as_OT.cmp in E. now rewrite E.
Qed.

Lemma ltb_trans a b c :
  String.ltb a b = true -> String.ltb b c = true -> String.ltb a c = true.
Proof.
  unfold String.ltb. intros H1 H2.
  assert (L1 : String.compare a b = Lt) by (now destruct (String.compare a b)).
  assert (L2 : String.compare b c = Lt) by (now destruct (String.compare b c)).
  apply OrderedTypeEx.String_as_OT.cmp_lt in L1, L2.
  pose proof (OrderedTypeEx.String_as_OT.lt_trans _ _ _ L1 L2) as L.
  apply OrderedTypeEx.String_as_OT.cmp_lt in L.
  unfold OrderedTypeEx.String_as_OT.cmp in L. now rewrite L.
Qed.

Lemma ltb_tie a b :
  String.ltb a b = false -> String.ltb b a = false -> a = b.
Proof.
  unfold String.ltb. rewrite (String.compare_antisym a b).
  destruct (String.compare b a) eqn:E; simpl; try discriminate.
  intros _ _. symmetry. now apply String.compare_eq_iff.
Qed.

Lemma below_numeric a b :
  numeric a = true -> below a b = (num a <? num b)%Z.
Proof. destruct a; try discriminate; reflexivity. Qed.

(** The order of the cells of an orderable column is a strict order in
    which being tied is transitive. *)
Section Orderable.
Variable column : Column.
Hypothesis Hord : orderable column = true.

Lemma orderable_cases :
  (forall c, In c column -> numeric c = true)
  \/ (forall c, In c column -> exists s, c = CString s /\ s <> "").
Proof.
  unfold orderable in Hord. apply orb_true_iff in Hord.
  destruct Hord as [H|H]; rewrite forallb_forall in H; [now left | right].
  intros c Hc. specialize (H c Hc). destruct c; try discriminate.
  exists s. split; [reflexivity|]. simpl in H.
  intros ->. discriminate H.
Qed.

Lemma below_asym a b :
  In a column -> In b column -> below a b = true -> below b a = false.
Proof.
  intros Ha Hb. destruct orderable_cases as [H|H].
  - rewrite !below_numeric by (now apply H).
    intros E. apply Z.ltb_lt in E. apply Z.ltb_ge. lia.
  - destruct (H a Ha) as (s & -> & _). destruct (H b Hb) as (u & -> & _).
    simpl. apply ltb_asym.
Qed.

Lemma below_trans a b c :
  In a column -> In b column -> In c column ->
  below a b = true -> below b c = true -> below a c = true.
Proof.
  intros Ha Hb Hc. destruct orderable_cases as [H|H].
  - rewrite !below_numeric by (now apply H).
    rewrite !Z.ltb_lt. lia.
  - destruct (H a Ha) as (s & -> & _). destruct (H b Hb) as (u & -> & _).
    destruct (H c Hc) as (v & -> & _). simpl. apply ltb_trans.
Qed.

Lemma below_tied a b c :
  In a column -> In b column -> In c column ->
  below a b = false -> below b a = false ->
  below b c = false -> below c b = false ->
  below a c = false /\ below c a = false.
Proof.
  intros Ha Hb Hc. destruct orderable_cases as [H|H].
  - rewrite !below_numeric by (now apply H).
    rewrite !Z.ltb_ge. lia.
  - destruct (H a Ha) as (s & -> & _). destruct (H b Hb) as (u & -> & _).
    destruct (H c Hc) as (v & -> & _). simpl.
    intros H1 H2 H3 H4.
    rewrite (ltb_tie s u H1 H2), (ltb_tie u v H3 H4).
    split; apply ltb_irrefl.
Qed.

Section WithEngine.
Variable StringToNumber : string -> option Z.

Local Abbreviation compare_of := (compare_of StringToNumber).

(** On the cells of an orderable column the comparator of a direction
    follows the order of that direction. *)
Lemma compare_of_ahead d a b :
  In a column -> In b column ->
  compare_of d a b
  = if ahead d a b then (-1)%Z else if ahead d b a then 1%Z else 0%Z.
Proof.
  intros Ha Hb. destruct orderable_cases as [H|H].
  - rewrite (compare_of_numeric StringToNumber d a b) by (now apply H).
    destruct d; cbn [ahead]; rewrite !below_numeric by (now apply H);
      destruct (Z.ltb_spec (num a) (num b));
      destruct (Z.ltb_spec (num b) (num a)); lia.
  - destruct (H a Ha) as (s & -> & Hs). destruct (H b Hb) as (u & -> & Hu).
    apply String.eqb_neq in Hs, Hu.
    destruct d; cbn [SortModifier.compare_of ahead below];
      unfold SortModifier.ascending, SortModifier.descending, or0;
      cbn [truthy]; rewrite Hs, Hu; cbn [negb];
      unfold js_lt, js_gt, js_compare; cbn [ToPrimitive];
      destruct (String.ltb s u) eqn:E1; destruct (String.ltb u s) eqn:E2;
      try reflexivity;
      apply ltb_asym in E1; congruence.
Qed.

End WithEngine.
End Orderable.

(** The comparator that [modify] hands to the sort is consistent for the
    references of a table whose order column is orderable, and follows
    the order of the direction. *)
Lemma compareRows_ahead (StringToNumber : string -> option Z)
    (options : Options) (table : t) (column : Column) :
  uniform table ->
  getColumn (orderByColumn options) table = Some column ->
  orderable column = true ->
  let cmp := compareRows StringToNumber options table in
  let value := fun r => array_get (index r) column in
  let ahead := ahead (direction options) in
  (forall r, In r (references table) ->
      key options table r = value r /\ In (value r) column)
  /\ (forall a b, In a (references table) -> In b (references table) ->
        cmp a b = if ahead (value a) (value b) then (-1)%Z
                  else if ahead (value b) (value a) then 1%Z else 0%Z)
  /\ (forall a b, In a column -> In b column ->
        ahead a b = true -> ahead b a = false)
  /\ consistent cmp (references table).
Proof.
  intros Huni Hget Hord cmp value ahead.
  assert (Hkey : forall r, In r (references table) ->
            key options table r = value r /\ In (value r) column).
  { intros r Hr. unfold references in Hr. apply in_map_iff in Hr.
    destruct Hr as (i & <- & Hi). apply in_seq in Hi.
    rewrite (key_references options table column Hget). unfold value.
    cbn [index]. split; [reflexivity|]. apply nth_In.
    rewrite (uniform_column_length table _ column Huni Hget). lia. }
  assert (Hcmp : forall a b,
            In a (references table) -> In b (references table) ->
            cmp a b = if ahead (value a) (value b) then (-1)%Z
                      else if ahead (value b) (value a) then 1%Z else 0%Z).
  { intros a b Ha Hb. unfold cmp, compareRows.
    destruct (Hkey a Ha) as [-> Hva]. destruct (Hkey b Hb) as [-> Hvb].
    now apply (compare_of_ahead column Hord). }
  assert (Hasym : forall a b, In a column -> In b column ->
            ahead a b = true -> ahead b a = false).
  { intros a b Ha Hb. unfold ahead, SortSpec.ahead.
    destruct (direction options); intros H.
    - now apply (below_asym column Hord).
    - now apply (below_asym column Hord b a). }
  assert (Htrans : forall a b c, In a column -> In b column -> In c column ->
            ahead a b = true -> ahead b c = true -> ahead a c = true).
  { intros a b c Ha Hb Hc. unfold ahead, SortSpec.ahead.
    destruct (direction options).
    - now apply (below_trans column Hord).
    - intros H1 H2. now apply (below_trans column Hord c b a). }
  assert (Htied : forall a b c, In a column -> In b column -> In c column ->
            ahead a b = false -> ahead b a = false ->
            ahead b c = false -> ahead c b = false ->
            ahead a c = false /\ ahead c a = false).
  { intros a b c Ha Hb Hc. unfold ahead, SortSpec.ahead.
    destruct (direction options).
    - now apply (below_tied column Hord).
    - intros H1 H2 H3 H4.
      destruct (below_tied column Hord a b c Ha Hb Hc H2 H1 H4 H3).
      now split. }
  split; [exact Hkey|]. split; [exact Hcmp|]. split; [exact Hasym|].
  split; [|split; [|split; [|split; [|split]]]].
  - intros a Ha. rewrite Hcmp by assumption.
    destruct (Hkey a Ha) as [_ Hv].
    destruct (ahead (value a) (value a)) eqn:E; [|reflexivity].
    pose proof (Hasym _ _ Hv Hv E). congruence.
  - intros a b Ha Hb. rewrite !Hcmp by assumption.
    destruct (ahead (value a) (value b)), (ahead (value b) (value a));
      intros H; try discriminate H; reflexivity.
  - intros a b Ha Hb. rewrite !Hcmp by assumption.
    destruct (Hkey a Ha) as [_ Hva]. destruct (Hkey b Hb) as [_ Hvb].
    pose proof (Hasym _ _ Hva Hvb) as H1.
    destruct (ahead (value a) (value b)).
    + rewrite (H1 eq_refl). lia.
    + destruct (ahead (value b) (value a)); lia.
  - intros a b c Ha Hb Hc. rewrite !Hcmp by assumption.
    destruct (Hkey a Ha) as [_ Hva]. destruct (Hkey b Hb) as [_ Hvb].
    destruct (Hkey c Hc) as [_ Hvc].
    pose proof (Htied _ _ _ Hva Hvb Hvc) as H.
    destruct (ahead (value a) (value b)); [discriminate|].
    destruct (ahead (value b) (value a)); [discriminate|].
    destruct (ahead (value b) (value c)); [discriminate|].
    destruct (ahead (value c) (value b)); [discriminate|].
    destruct H as [-> ->]; reflexivity.
  - intros a b c Ha Hb Hc. rewrite !Hcmp by assumption.
    destruct (Hkey a Ha) as [_ Hva]. destruct (Hkey b Hb) as [_ Hvb].
    destruct (Hkey c Hc) as [_ Hvc].
    pose proof (Htrans _ _ _ Hva Hvb Hvc) as H.
    destruct (ahead (value a) (value b));
      [|destruct (ahead (value b) (value a)); lia].
    destruct (ahead (value b) (value c));
      [|destruct (ahead (value c) (value b)); lia].
    rewrite H by reflexivity. lia.
  - intros a b c Ha Hb Hc. rewrite !Hcmp by assumption.
    destruct (Hkey a Ha) as [_ Hva]. destruct (Hkey b Hb) as [_ Hvb].
    destruct (Hkey c Hc) as [_ Hvc].
    pose proof (Htrans _ _ _ Hvc Hvb Hva) as H.
    pose proof (Hasym _ _ Hvc Hva) as H'.
    destruct (ahead (value a) (value b)); [lia|].
    destruct (ahead (value b) (value a)); [|lia].
    destruct (ahead (value b) (value c)); [lia|].
    destruct (ahead (value c) (value b)); [|lia].
    rewrite (H' (H eq_refl eq_refl)), (H eq_refl eq_refl). lia.
Qed.




End SortOrderClaims.

(* ------------------------------------------------------------------ *)
(** ** RangeModifier: what filtering keeps, and when it keeps nothing *)

Module RangeLaws.
Import DataTable TableSpec TableFacts RangeModifier RangeSpec RangeFacts.

Lemma filter_all {X : Type} (p : X -> bool) l :
  (forall x, In x l -> p x = true) -> filter p l = l.
Proof.
  induction l as [|x l IH]; intros H; simpl; [reflexivity|].
  rewrite (H x) by now left. f_equal. apply IH. intros y Hy. apply H.
  now right.
Qed.

Lemma length_flat_map_bound {X Y : Type} (f : X -> list Y) l n :
  (forall x, In x l -> List.length (f x) <= n) ->
  List.length (flat_map f l) <= List.length l * n.
Proof.
  induction l as [|x l IH]; intros H; simpl; [lia|].
  rewrite length_app.
  specialize (H x (or_introl eq_refl)) as Hx.
  assert (Hl : List.length (flat_map f l) <= List.length l * n)
    by (apply IH; intros y Hy; apply H; now right).
  lia.
Qed.

Lemma length_filter_le {X : Type} (p : X -> bool) l :
  List.length (filter p l) <= List.length l.
Proof.
  induction l as [|x l IH]; simpl; [lia|].
  destruct (p x); simpl; lia.
Qed.

Lemma table_of_no_rows (table : t) :
  table_of_rows (getColumnNames table) [] = deleteRows table.
Proof.
  induction table as [|[name col] rest IH]; [reflexivity|].
  cbn [getColumnNames obj_keys map fst table_of_rows]. unfold deleteRows.
  cbn [map fst]. f_equal. exact IH.
Qed.

Section WithEngine.
Variable StringToNumber : string -> option Z.

Local Abbreviation modify := (RangeModifier.modify StringToNumber).
Local Abbreviation matching := (RangeSpec.matching StringToNumber).
Local Abbreviation in_range := (RangeSpec.in_range StringToNumber).

(** The rows that the ranges of the options let through. *)
Local Abbreviation kept options table :=
  (flat_map (matching (strict options) table) (ranges options)).

Lemma kept_below options (table : t) j :
  In j (kept options table) -> j < getRowCount table.
Proof.
  intros Hj. apply in_flat_map in Hj. destruct Hj as (r & _ & Hj).
  apply filter_In in Hj. destruct Hj as [Hj _]. apply in_seq in Hj. lia.
Qed.

Lemma modify_rows_kept options (table : t) :
  uniform table -> ranges options <> [] ->
  getRows (fst (modify options table))
  = map (fun j => row_at j table) (kept options table).
Proof.
  intros Huni Hne. rewrite modify_table by assumption.
  apply getRows_table_of_rows.
  - apply Forall_forall. intros row Hrow. apply in_map_iff in Hrow.
    destruct Hrow as (j & <- & _). rewrite length_row_at.
    unfold getColumnNames, obj_keys. now rewrite length_map.
  - destruct table as [|c rest]; [right | left; discriminate].
    destruct (kept options []) as [|j l] eqn:E; [reflexivity|].
    assert (H : j < getRowCount []) by (apply (kept_below options); rewrite E; now left).
    inversion H.
Qed.

(** X13: filtering only ever takes rows away.  With an empty list of ranges
    the table is returned as it is.  Otherwise the result has the column
    names of the table and columns of one length, each of its rows is a
    row of the table, and it has at most as many rows as the table has
    for every range. *)
Theorem modify_takes_rows_away (options : Options) (table : t) :
  uniform table ->
  let table' := fst (modify options table) in
  (ranges options = [] -> table' = table)
  /\ uniform table'
  /\ getColumnNames table' = getColumnNames table
  /\ (forall row, In row (getRows table') -> In row (getRows table))
  /\ (ranges options <> [] ->
      getRowCount table'
      <= List.length (ranges options) * getRowCount table).
Proof.
  intros Huni table'.
  assert (Hempty : ranges options = [] -> table' = table).
  { intros E. unfold table', RangeModifier.modify. now rewrite E. }
  destruct (ranges options) as [|r rs] eqn:E.
  - rewrite (Hempty eq_refl).
    split; [reflexivity|]. split; [exact Huni|]. split; [reflexivity|].
    split; [tauto|]. intros H. now elim H.
  - assert (Hne : ranges options <> []) by (rewrite E; discriminate).
    assert (Ht : table'
                 = table_of_rows (getColumnNames table)
                     (map (fun j => row_at j table) (kept options table)))
      by (now apply modify_table).
    pose proof (modify_rows_kept options table Huni Hne) as Hrows.
    fold table' in Hrows.
    split; [discriminate|].
    split; [rewrite Ht; apply uniform_table_of_rows|].
    split; [rewrite Ht; apply getColumnNames_table_of_rows|].
    split.
    + intros row Hrow. rewrite Hrows in Hrow. apply in_map_iff in Hrow.
      destruct Hrow as (j & <- & Hj). apply kept_below in Hj.
      rewrite <- (nth_getRows j table Hj). apply nth_In.
      now rewrite length_getRows.
    + intros _. rewrite <- (length_getRows table'), Hrows, length_map.
      rewrite <- E. apply length_flat_map_bound.
      intros r' _. unfold RangeSpec.matching.
      etransitivity; [apply length_filter_le|]. now rewrite length_seq.
Qed.

Lemma matching_none strict (table : t) r :
  getColumn (column r) table = None
  \/ (strict = true
      /\ JSType_eqb (typeof (minValue r)) (typeof (maxValue r)) = false) ->
  matching strict table r = [].
Proof.
  intros H. unfold RangeSpec.matching. apply filter_none. intros j _.
  unfold RangeSpec.in_range, within, cell_at.
  destruct H as [-> | [-> ->]].
  - now rewrite array_get_nil.
  - rewrite andb_false_r. cbn. now rewrite !andb_false_r.
Qed.

(** X14: a range lets no row through when the table lacks its column, or
    when [strict] is set and its two bounds differ in type.  If every
    range of a non-empty list is of that kind, the result is the table
    without its rows: the columns stay, empty.  (With an empty list the
    rows stay.) *)
Theorem modify_without_match (options : Options) (table : t) :
  uniform table ->
  ranges options <> [] ->
  (forall r, In r (ranges options) ->
     getColumn (column r) table = None
     \/ (strict options = true
         /\ JSType_eqb (typeof (minValue r)) (typeof (maxValue r)) = false)) ->
  let table' := fst (modify options table) in
  table' = deleteRows table
  /\ getColumnNames table' = getColumnNames table
  /\ getRowCount table' = 0.
Proof.
  intros Huni Hne Hall table'.
  assert (Hkept : kept options table = []).
  { clear Hne. revert Hall. generalize (ranges options) as l.
    induction l as [|r rs IH]; intros Hall; [reflexivity|]. simpl.
    rewrite (matching_none _ _ _ (Hall r (or_introl eq_refl))).
    apply IH. intros r' Hr'. apply Hall. now right. }
  assert (Ht : table' = deleteRows table).
  { unfold table'. rewrite modify_table by assumption.
    rewrite Hkept. apply table_of_no_rows. }
  split; [exact Ht|]. rewrite Ht.
  split; [apply getColumnNames_deleteRows|].
  unfold deleteRows, getRowCount. rewrite map_map. simpl.
  clear. induction table as [|c rest IH]; [reflexivity|]. simpl.
  exact IH.
Qed.

(** The cell of a column in a table built from rows. *)
Lemma cell_at_table_of_rows (table : t) rows name j :
  In name (getColumnNames table) ->
  Forall (fun r => List.length r = List.length (getColumnNames table)) rows ->
  j < List.length rows ->
  exists k,
    (forall i, cell_at table name i = array_get k (row_at i table))
    /\ cell_at (table_of_rows (getColumnNames table) rows) name j
       = array_get k (nth j rows []).
Proof.
  intros Hin Hlen Hj.
  set (table' := table_of_rows (getColumnNames table) rows).
  assert (Hnames : getColumnNames table' = getColumnNames table)
    by apply getColumnNames_table_of_rows.
  destruct (SortFacts.indexOf_column _ _ Hin)
    as (k & col & Hk & Hget & _ & Hcell).
  assert (Hin' : In name (getColumnNames table')) by now rewrite Hnames.
  destruct (SortFacts.indexOf_column _ _ Hin')
    as (k' & col' & Hk' & Hget' & _ & Hcell').
  rewrite Hnames, Hk in Hk'. apply Nat2Z.inj in Hk'. subst k'.
  exists k. split.
  - intros i. unfold cell_at. rewrite Hget. symmetry. apply Hcell.
  - unfold cell_at. rewrite Hget', <- Hcell'. f_equal.
    apply row_at_table_of_rows; [exact Hj|].
    rewrite Forall_forall in Hlen. apply Hlen. now apply nth_In.
Qed.

(** X15: with a single range, filtering is idempotent: every row that the
    range lets through is let through again, so filtering the result
    once more changes nothing. *)
Theorem modify_twice_one_range (options : Options) (table : t)
    (r : RangeOptions) :
  uniform table ->
  ranges options = [r] ->
  fst (modify options (fst (modify options table)))
  = fst (modify options table).
Proof.
  intros Huni Hr.
  assert (Hne : ranges options <> []) by (rewrite Hr; discriminate).
  set (table' := fst (modify options table)).
  set (js := matching (strict options) table r).
  set (rows := map (fun j => row_at j table) js).
  assert (Hkept : kept options table = js).
  { rewrite Hr. simpl. apply List.app_nil_r. }
  assert (Ht : table' = table_of_rows (getColumnNames table) rows).
  { unfold table'. rewrite modify_table by assumption. now rewrite Hkept. }
  assert (Hu : uniform table')
    by (rewrite Ht; apply uniform_table_of_rows).
  assert (Hnames : getColumnNames table' = getColumnNames table)
    by (rewrite Ht; apply getColumnNames_table_of_rows).
  assert (Hrows : getRows table' = rows).
  { unfold table', rows. rewrite modify_rows_kept by assumption.
    now rewrite Hkept. }
  assert (Hcount : getRowCount table' = List.length rows).
  { now rewrite <- (length_getRows table'), Hrows. }
  assert (Hlen : Forall (fun row => List.length row
                                    = List.length (getColumnNames table)) rows).
  { apply Forall_forall. intros row Hrow. apply in_map_iff in Hrow.
    destruct Hrow as (j & <- & _). rewrite length_row_at.
    unfold getColumnNames, obj_keys. now rewrite length_map. }
  assert (Hall : matching (strict options) table' r
                 = seq 0 (getRowCount table')).
  { unfold RangeSpec.matching. apply filter_all. intros j Hj.
    apply in_seq in Hj. rewrite Hcount in Hj.
    assert (Hjs : In (nth j js 0) js)
      by (apply nth_In; unfold rows in Hj; rewrite length_map in Hj; lia).
    assert (Hpass : in_range (strict options) r
                      (cell_at table (column r) (nth j js 0)) = true)
      by (apply (proj1 (filter_In _ (nth j js 0) _) Hjs)).
    destruct (in_dec string_dec (column r) (getColumnNames table))
      as [Hin|Hout].
    - destruct (cell_at_table_of_rows table rows (column r) j Hin Hlen)
        as (k & Hk & Hk'); [exact (proj2 Hj)|].
      rewrite Ht, Hk'. rewrite Hk in Hpass.
      unfold rows.
      rewrite (nth_indep _ [] (row_at 0 table)) by exact (proj2 Hj).
      now rewrite (map_nth (fun j => row_at j table)).
    - exfalso. unfold RangeSpec.in_range, cell_at in Hpass.
      apply obj_get_None in Hout. unfold getColumn in Hpass.
      rewrite Hout, array_get_nil in Hpass. discriminate Hpass. }
  rewrite modify_table by assumption.
  rewrite Hr. simpl. rewrite List.app_nil_r, Hall, Hnames.
  change (map (fun j => row_at j table') (seq 0 (getRowCount table')))
    with (getRows table').
  rewrite <- Hnames. now apply table_of_rows_getRows.
Qed.

Lemma in_range_numbers strict c lo hi v :
  strict = true \/ (typeof v <> TBoolean /\ typeof v <> TString) ->
  in_range strict (mkRange c (CNumber hi) (CNumber lo)) v = between lo hi v.
Proof.
  intros H. unfold RangeSpec.in_range, within, comparable, js_le, js_compare.
  destruct v as [| b | n | | s | tb]; cbn; try reflexivity.
  - destruct H as [->|[H _]]; [|now elim H].
    cbn. now rewrite !andb_false_r.
  - destruct strict; cbn;
      destruct (Z.ltb_spec n lo), (Z.ltb_spec hi n),
        (Z.leb_spec lo n), (Z.leb_spec n hi); cbn; try reflexivity; lia.
  - destruct H as [->|[_ H]]; [|now elim H].
    cbn. now rewrite !andb_false_r.
Qed.

(** X16: a single range with number bounds keeps, in row order, the rows
    whose cell in the column of the range is a number between the
    bounds, the bounds included, and no other row, provided [strict] is
    set or the column holds no boolean and no string.  The conversion of
    strings to numbers plays no part. *)
Theorem modify_number_range (options : Options) (table : t) (c : string)
    (lo hi : Z) (cells : Column) :
  uniform table ->
  ranges options = [mkRange c (CNumber hi) (CNumber lo)] ->
  getColumn c table = Some cells ->
  strict options = true
  \/ Forall (fun v => typeof v <> TBoolean /\ typeof v <> TString) cells ->
  getRows (fst (modify options table))
  = map (fun j => row_at j table)
      (filter (fun j => between lo hi (array_get j cells))
         (seq 0 (getRowCount table))).
Proof.
  intros Huni Hr Hget Hcells.
  rewrite modify_rows_kept by (assumption || (rewrite Hr; discriminate)).
  rewrite Hr. simpl. rewrite List.app_nil_r. f_equal.
  unfold RangeSpec.matching. apply filter_ext_in. intros j Hj.
  apply in_seq in Hj. unfold cell_at. simpl. rewrite Hget.
  apply in_range_numbers.
  destruct Hcells as [Hs|Hall]; [now left | right].
  rewrite Forall_forall in Hall. apply Hall. apply nth_In.
  rewrite (uniform_column_length table c cells Huni Hget). lia.
Qed.

(** X23: ranges are applied one by one: the rows that a list of ranges
    keeps are the rows that its first part keeps followed by the rows
    that the rest keeps, each part being a list of at least one range. *)
Theorem modify_of_ranges_appended (name : string) (strict : bool)
    (first rest : list RangeOptions) (table : t) :
  uniform table ->
  first <> [] -> rest <> [] ->
  getRows (fst (modify (mkOptions name strict (first ++ rest)) table))
  = getRows (fst (modify (mkOptions name strict first) table))
    ++ getRows (fst (modify (mkOptions name strict rest) table)).
Proof.
  intros Huni H1 H2.
  rewrite !modify_rows_kept; try assumption.
  - cbn [ranges RangeModifier.strict]. now rewrite flat_map_app, map_app.
  - cbn [ranges]. destruct first; [now elim H1 | discriminate].
Qed.

Lemma in_range_loose r v :
  in_range true r v = true -> in_range false r v = true.
Proof.
  unfold RangeSpec.in_range, within. rewrite !andb_true_iff.
  intros (Hc & (Hlo & Hhi) & _). repeat split; assumption.
Qed.

Lemma length_filter_implied {X : Type} (p q : X -> bool) l :
  (forall x, p x = true -> q x = true) ->
  List.length (filter p l) <= List.length (filter q l).
Proof.
  intros H. induction l as [|x l IH]; simpl; [lia|].
  destruct (p x) eqn:E.
  - rewrite (H x E). simpl. lia.
  - destruct (q x); simpl; lia.
Qed.

(** X24: setting [strict] never adds a row: every row kept under [strict]
    is kept without it, and the result under [strict] has at most as
    many rows. *)
Theorem modify_strict_keeps_less (name : string)
    (ranges : list RangeOptions) (table : t) :
  uniform table ->
  ranges <> [] ->
  let strictly := fst (modify (mkOptions name true ranges) table) in
  let loosely := fst (modify (mkOptions name false ranges) table) in
  (forall row, In row (getRows strictly) -> In row (getRows loosely))
  /\ getRowCount strictly <= getRowCount loosely.
Proof.
  intros Huni Hne strictly loosely.
  assert (Hs : getRows strictly
               = map (fun j => row_at j table)
                   (flat_map (matching true table) ranges))
    by (unfold strictly; now rewrite modify_rows_kept).
  assert (Hl : getRows loosely
               = map (fun j => row_at j table)
                   (flat_map (matching false table) ranges))
    by (unfold loosely; now rewrite modify_rows_kept).
  split.
  - intros row. rewrite Hs, Hl, !in_map_iff.
    intros (j & Hrow & Hj). exists j. split; [exact Hrow|].
    apply in_flat_map in Hj. destruct Hj as (r & Hr & Hj).
    apply in_flat_map. exists r. split; [exact Hr|].
    unfold RangeSpec.matching in *. apply filter_In in Hj.
    apply filter_In. split; [tauto|]. apply in_range_loose. tauto.
  - rewrite <- (length_getRows strictly), <- (length_getRows loosely).
    rewrite Hs, Hl, !length_map. clear.
    induction ranges as [|r ranges IH]; simpl; [lia|].
    rewrite !length_app.
    assert (H : List.length (matching true table r)
                <= List.length (matching false table r)).
    { unfold RangeSpec.matching. apply length_filter_implied.
      intros j. apply in_range_loose. }
    lia.
Qed.

End WithEngine.

(** The overlapping ranges 1..2 and 2..3 over the column "x" of [xy]. *)
Lemma modify_of_ranges_appended_witness :
  let r12 := mkRange "x" (CNumber 2) (CNumber 1) in
  let r23 := mkRange "x" (CNumber 3) (CNumber 2) in
  uniform Samples.xy
  /\ [r12] <> [] /\ [r23] <> []
  /\ getRows (fst (modify Samples.noNumber (mkOptions "Range" false [r12; r23])
                     Samples.xy))
     = [[CNumber 1; CString "a"]; [CNumber 2; CString "b"]]
       ++ [[CNumber 3; CString "c"]; [CNumber 2; CString "b"]].
Proof.
  intros r12 r23.
  assert (H1 : [r12] <> []) by discriminate.
  assert (H2 : [r23] <> []) by discriminate.
  split; [exact SampleFacts.uniform_xy|]. split; [exact H1|].
  split; [exact H2|].
  exact (modify_of_ranges_appended Samples.noNumber "Range" false [r12] [r23]
           Samples.xy SampleFacts.uniform_xy H1 H2).
Defined.

(** The column "y" of [xy] holds strings: under [strict] a range of
    numbers over it keeps no row. *)
Lemma modify_strict_keeps_less_witness :
  let ranges := [mkRange "y" (CNumber 9) (CNumber 0)] in
  uniform Samples.xy /\ ranges <> []
  /\ getRowCount (fst (modify Samples.noNumber (mkOptions "Range" true ranges)
                         Samples.xy))
     <= getRowCount (fst (modify Samples.noNumber
                            (mkOptions "Range" false ranges) Samples.xy)).
Proof.
  intros ranges.
  assert (Hne : ranges <> []) by discriminate.
  split; [exact SampleFacts.uniform_xy|]. split; [exact Hne|].
  exact (proj2 (modify_strict_keeps_less Samples.noNumber "Range" ranges
                  Samples.xy SampleFacts.uniform_xy Hne)).
Defined.

(** The table [xy] filtered by a range over its column "x". *)
Lemma modify_takes_rows_away_witness :
  uniform Samples.xy
  /\ getColumnNames
       (fst (modify Samples.noNumber
               (mkOptions "Range" false [mkRange "x" (CNumber 2) (CNumber 1)])
               Samples.xy))
     = ["x"; "y"].
Proof.
  split; [exact SampleFacts.uniform_xy|].
  exact (proj1 (proj2 (proj2
           (modify_takes_rows_away Samples.noNumber
              (mkOptions "Range" false [mkRange "x" (CNumber 2) (CNumber 1)])
              Samples.xy SampleFacts.uniform_xy)))).
Defined.

(** The table [xy] has no column "q": a range over "q" empties it. *)
Lemma modify_without_match_witness :
  let options :=
    mkOptions "Range" false [mkRange "q" (CNumber 9) (CNumber 0)] in
  uniform Samples.xy
  /\ ranges options <> []
  /\ (forall r, In r (ranges options) ->
        getColumn (column r) Samples.xy = None
        \/ (strict options = true
            /\ JSType_eqb (typeof (minValue r)) (typeof (maxValue r))
               = false))
  /\ fst (modify Samples.noNumber options Samples.xy)
     = [("x", []); ("y", [])].
Proof.
  intros options.
  assert (Hne : ranges options <> []) by discriminate.
  assert (Hall : forall r, In r (ranges options) ->
            getColumn (column r) Samples.xy = None
            \/ (strict options = true
                /\ JSType_eqb (typeof (minValue r)) (typeof (maxValue r))
                   = false)).
  { intros r [<-|[]]. now left. }
  split; [exact SampleFacts.uniform_xy|]. split; [exact Hne|].
  split; [exact Hall|].
  exact (proj1 (modify_without_match Samples.noNumber options Samples.xy
                  SampleFacts.uniform_xy Hne Hall)).
Defined.

(** The table [xy] filtered twice by the range 1..2 over "x". *)
Lemma modify_twice_one_range_witness :
  let options :=
    mkOptions "Range" false [mkRange "x" (CNumber 2) (CNumber 1)] in
  uniform Samples.xy
  /\ fst (modify Samples.noNumber options
            (fst (modify Samples.noNumber options Samples.xy)))
     = [("x", [CNumber 1; CNumber 2]); ("y", [CString "a"; CString "b"])].
Proof.
  intros options. split; [exact SampleFacts.uniform_xy|].
  rewrite (modify_twice_one_range Samples.noNumber options Samples.xy
             (mkRange "x" (CNumber 2) (CNumber 1))
             SampleFacts.uniform_xy eq_refl).
  reflexivity.
Defined.

(** The table [xy] under [strict], filtered by the range 2..3 over
    "x". *)
Lemma modify_number_range_witness :
  let options :=
    mkOptions "Range" true [mkRange "x" (CNumber 3) (CNumber 2)] in
  uniform Samples.xy
  /\ getRows (fst (modify Samples.noNumber options Samples.xy))
     = [[CNumber 3; CString "c"]; [CNumber 2; CString "b"]].
Proof.
  intros options. split; [exact SampleFacts.uniform_xy|].
  rewrite (modify_number_range Samples.noNumber options Samples.xy "x" 2 3
             [CNumber 3; CNumber 1; CNumber 2]
             SampleFacts.uniform_xy eq_refl eq_refl (or_introl eq_refl)).
  reflexivity.
Defined.

End RangeLaws.

(* ------------------------------------------------------------------ *)
(** ** GroupModifier: the shape of the result *)

Module GroupLaws.
Import DataTable TableSpec TableFacts GroupModifier GroupSpec.

Lemma three_columns (a b c : Column) (table : t) :
  setColumns
    (obj_of_entries [("groupBy", a); ("table", b); ("value", c)])
    (fst (deleteColumns None table))
  = [("groupBy", a); ("table", b); ("value", c)].
Proof.
  rewrite deleteColumns_all.
  assert (Hent : forall entries : list (string * Column),
             entries = [("groupBy", a); ("table", b); ("value", c)] ->
             obj_of_entries entries = entries).
  { intros entries ->. apply obj_of_entries_ordered.
    apply js_ordered_plain_names.
    - repeat constructor; simpl; intuition discriminate.
    - repeat constructor. }
  rewrite (Hent _ eq_refl). apply (Hent _ eq_refl).
Qed.

Lemma modify_columns options (table : t) :
  fst (modify options table)
  = [("groupBy", byGroups (groupsOf options table));
     ("table", map CTable (tableGroups (groupsOf options table)));
     ("value", valueGroups (groupsOf options table))].
Proof. unfold modify. cbn [fst]. apply three_columns. Qed.

Lemma length_list_update {X : Type} i (f : X -> X) l :
  List.length (list_update i f l) = List.length l.
Proof.
  revert i. induction l as [|x l IH]; intros i; [now destruct i|].
  destruct i; simpl; [reflexivity | now rewrite IH].
Qed.

Lemma step_lengths options (table : t) name column g i :
  List.length (byGroups g) = List.length (valueGroups g) ->
  List.length (tableGroups g) = List.length (valueGroups g) ->
  let g' := step options table name column g i in
  List.length (byGroups g') = List.length (valueGroups g')
  /\ List.length (tableGroups g') = List.length (valueGroups g')
  /\ List.length (valueGroups g) <= List.length (valueGroups g')
  /\ List.length (valueGroups g') <= S (List.length (valueGroups g)).
Proof.
  intros Hb Ht. unfold step.
  destruct (typeof (array_get i column)); cbn zeta;
    try (repeat split; (assumption || lia));
    (destruct (skipped options (array_get i column));
     [repeat split; (assumption || lia)|];
     destruct (indexOf strict_equals (array_get i column) (valueGroups g)
               =? -1)%Z;
     cbn [byGroups tableGroups valueGroups];
     rewrite ?length_app, ?length_list_update; cbn [List.length];
     repeat split; lia).
Qed.

Lemma loop_lengths options (table : t) name column l g :
  List.length (byGroups g) = List.length (valueGroups g) ->
  List.length (tableGroups g) = List.length (valueGroups g) ->
  let g' := fold_left (step options table name column) l g in
  List.length (byGroups g') = List.length (valueGroups g')
  /\ List.length (tableGroups g') = List.length (valueGroups g')
  /\ List.length (valueGroups g')
     <= List.length (valueGroups g) + List.length l.
Proof.
  revert g. induction l as [|i l IH]; intros g Hb Ht; cbn zeta.
  - simpl. repeat split; (assumption || lia).
  - cbn [fold_left].
    destruct (step_lengths options table name column g i Hb Ht)
      as (Hb' & Ht' & _ & Hle).
    destruct (IH _ Hb' Ht') as (Hb2 & Ht2 & Hle2).
    repeat split; try assumption. simpl. lia.
Qed.

(** X17: whatever the table and the options, the result of grouping has
    exactly the columns groupBy, table and value, in this order and of
    one length, and at most as many rows as the grouping column has
    cells. *)
Theorem modify_result_shape (options : Options) (table : t) :
  let table' := fst (modify options table) in
  getColumnNames table' = ["groupBy"; "table"; "value"]
  /\ wf table'
  /\ getRowCount table' <= List.length (valueColumnOf options table)
  /\ map ev_type (snd (modify options table)) = ["modify"; "afterModify"]
  /\ map ev_table (snd (modify options table)) = [Some table; Some table'].
Proof.
  intros table'. unfold table'. rewrite modify_columns.
  set (g := groupsOf options table).
  assert (Hg : List.length (byGroups g) = List.length (valueGroups g)
               /\ List.length (tableGroups g) = List.length (valueGroups g)
               /\ List.length (valueGroups g)
                  <= List.length (valueColumnOf options table)).
  { unfold g, groupsOf, valueColumnOf.
    rewrite <- (GroupFacts.groupColumnOf_eq options table).
    match goal with
    | |- context [fold_left (step options table ?name ?column) ?l ?g0] =>
        destruct (loop_lengths options table name column l g0 eq_refl eq_refl)
          as (Hb & Ht & Hle)
    end.
    split; [exact Hb|]. split; [exact Ht|].
    rewrite length_seq in Hle. exact Hle. }
  destruct Hg as (Hb & Ht & Hle).
  assert (Hall : Forall
                   (fun c : string * Column =>
                      List.length (snd c) = List.length (valueGroups g))
                   [("groupBy", byGroups g);
                    ("table", map CTable (tableGroups g));
                    ("value", valueGroups g)]).
  { repeat constructor; simpl; rewrite ?length_map; assumption. }
  split; [reflexivity|]. split; [split|].
  - apply js_ordered_plain_names.
    + repeat constructor; simpl; intuition discriminate.
    + repeat constructor.
  - now apply (all_length_uniform (List.length (valueGroups g))).
  - split.
    + rewrite (all_length_getRowCount (List.length (valueGroups g)));
        [exact Hle | exact Hall | discriminate].
    + split; [reflexivity|]. unfold modify. cbn [snd map ev_table].
      now rewrite three_columns.
Qed.

(** X18: when the grouping column has no cells (the table has no column of
    that name, or no column at all with the option left empty, or no
    rows) the result holds the three columns, empty. *)
Theorem modify_without_cells (options : Options) (table : t) :
  valueColumnOf options table = [] ->
  fst (modify options table)
  = [("groupBy", []); ("table", []); ("value", [])].
Proof.
  intros H. rewrite modify_columns. unfold groupsOf.
  rewrite GroupFacts.groupColumnOf_eq.
  change (match groupingColumn options table with
          | Some name =>
              match getColumn name table with Some c => c | None => [] end
          | None => []
          end) with (valueColumnOf options table).
  now rewrite H.
Qed.

(** The table [xy] has no column "q". *)
Lemma modify_without_cells_witness :
  valueColumnOf (mkOptions "Group" "q" None None) Samples.xy = []
  /\ fst (modify (mkOptions "Group" "q" None None) Samples.xy)
     = [("groupBy", []); ("table", []); ("value", [])].
Proof.
  split; [reflexivity|].
  exact (modify_without_cells (mkOptions "Group" "q" None None) Samples.xy
           eq_refl).
Defined.

End GroupLaws.

(* ------------------------------------------------------------------ *)
(** ** InvertModifier: transposition, and the shape of the result *)

Module InvertLaws.
Import DataTable TableSpec TableFacts InvertSpec InvertFacts.

Lemma Forall_fold_set (Q : Column -> Prop) (entries acc : t) :
  Forall (fun c => Q (snd c)) entries ->
  Forall (fun c => Q (snd c)) acc ->
  Forall (fun c => Q (snd c))
    (fold_left (fun o kv => obj_set (fst kv) (snd kv) o) entries acc).
Proof.
  intros He. revert acc.
  induction He as [|[k v] entries Hv He IH]; intros acc Ha; simpl.
  - exact Ha.
  - apply IH. now apply Forall_obj_set.
Qed.

Lemma length_obj_delete name (table : t) :
  obj_has name table = true ->
  S (List.length (obj_delete name table)) = List.length table.
Proof.
  unfold obj_has. induction table as [|[k v] rest IH]; simpl.
  - discriminate.
  - destruct (k =? name)%string; [reflexivity|].
    intros H. simpl. now rewrite IH.
Qed.

Lemma rows_as_columns (key : nat -> string) (table : t) n :
  Forall (fun c : string * Column => List.length (snd c) = List.length table)
    (map (fun i => (key i, row_at i table)) (seq 0 n)).
Proof.
  apply Forall_forall. intros c Hc. apply in_map_iff in Hc.
  destruct Hc as (i & <- & _). simpl. apply length_row_at.
Qed.

(** The number of cells that every column of the result has. *)
Lemma modify_column_lengths (table : t) :
  Forall
    (fun c : string * Column =>
       List.length (snd c)
       = if hasColumns ["columnNames"] table
         then Nat.pred (List.length table) else List.length table)
    (fst (InvertModifier.modify table)).
Proof.
  unfold InvertModifier.modify. cbn [fst].
  destruct (hasColumns ["columnNames"] table) eqn:Ehas.
  - rewrite hasColumns_one in Ehas.
    unfold deleteColumns at 1. cbn [fold_left].
    set (table1 := obj_delete "columnNames" table).
    assert (Hw : Nat.pred (List.length table) = List.length table1).
    { unfold table1. rewrite <- (length_obj_delete _ _ Ehas). reflexivity. }
    rewrite Hw. rewrite fold_rows by apply seq_below.
    rewrite deleteColumns_all. unfold setColumns.
    apply (Forall_fold_set (fun c => List.length c = List.length table1));
      [|constructor].
    apply (Forall_fold_set (fun c => List.length c = List.length table1));
      [|constructor].
    apply rows_as_columns.
  - rewrite fold_rows by apply seq_below.
    rewrite deleteColumns_all. unfold setColumns.
    apply (Forall_fold_set (fun c => List.length c = List.length table));
      [|constructor].
    apply (Forall_obj_set
             (fun c => List.length c = List.length table)).
    + apply (Forall_fold_set (fun c => List.length c = List.length table));
        [|constructor].
      apply rows_as_columns.
    + unfold getColumnNames, obj_keys. now rewrite !length_map.
Qed.

Lemma invert_uniform (table : t) : uniform (fst (InvertModifier.modify table)).
Proof. eapply all_length_uniform. apply modify_column_lengths. Qed.

(** X19: whatever the table, the columns of the inverted table have one
    length: as many cells as the table has columns, the column
    columnNames not counted if the table has one.  This holds as well
    when the columns of the table differ in length, and when a column
    named columnNames makes a table that is not inverted pass for one
    that is. *)
Theorem modify_result_uniform (table : t) :
  let table' := fst (InvertModifier.modify table) in
  uniform table'
  /\ (forall name column,
        getColumn name table' = Some column ->
        List.length column
        = if hasColumns ["columnNames"] table
          then Nat.pred (List.length table) else List.length table)
  /\ map ev_type (snd (InvertModifier.modify table))
     = ["modify"; "afterModify"]
  /\ map ev_table (snd (InvertModifier.modify table))
     = [Some table; Some table'].
Proof.
  intros table'. split; [apply invert_uniform|]. split; [|split; reflexivity].
  intros name column Hget. apply obj_get_In in Hget.
  pose proof (modify_column_lengths table) as H.
  rewrite Forall_forall in H. exact (H _ Hget).
Qed.

Lemma obj_get_row (f : nat -> Column) l i :
  In i l ->
  obj_get (ToString_index i) (map (fun i => (ToString_index i, f i)) l)
  = Some (f i).
Proof.
  induction l as [|k l IH]; intros Hin; [destruct Hin|]. simpl.
  destruct (String.eqb_spec (ToString_index k) (ToString_index i)) as [E|Hne].
  - apply ToString_index_inj in E. now subst.
  - destruct Hin as [->|Hin]; [now elim Hne | now apply IH].
Qed.

Lemma cell_of_row i j (table : t) :
  array_get j (row_at i table) = array_get i (snd (nth j table ("", []))).
Proof.
  unfold row_at, array_get at 1.
  destruct (Nat.lt_ge_cases j (List.length table)) as [Hj|Hj].
  - rewrite (nth_indep _ CUndefined
               (array_get i (snd (@pair string Column "" []))))
      by (now rewrite length_map).
    now rewrite (map_nth (fun c => array_get i (snd c))).
  - rewrite nth_overflow by (now rewrite length_map).
    rewrite (nth_overflow table) by assumption.
    simpl. now rewrite array_get_nil.
Qed.

Lemma getColumn_last (entries : t) name column :
  ~ In name (obj_keys entries) ->
  getColumn name (entries ++ [(name, column)]) = Some column.
Proof.
  intros Hk. unfold getColumn. rewrite obj_get_app.
  rewrite (proj2 (obj_get_None name entries) Hk).
  simpl. now rewrite String.eqb_refl.
Qed.

(** X20: inverting a table that has no column named columnNames transposes
    it.  The result has one column for every row of the table, named by
    the row index and holding the cells of that row in column order,
    followed by the column columnNames, which holds the column names of
    the table; it has as many rows as the table has columns; and the
    cell in row [j] of the column named [i] is the cell in row [i] of
    the [j]-th column of the table. *)
Theorem modify_transposes (table : t) :
  ~ In "columnNames" (getColumnNames table) ->
  let table' := fst (InvertModifier.modify table) in
  getColumnNames table'
  = map ToString_index (seq 0 (getRowCount table)) ++ ["columnNames"]
  /\ getRowCount table' = List.length table
  /\ getColumn "columnNames" table'
     = Some (map CString (getColumnNames table))
  /\ (forall i, i < getRowCount table ->
        getColumn (ToString_index i) table' = Some (row_at i table))
  /\ (forall i j column,
        i < getRowCount table ->
        getColumn (ToString_index i) table' = Some column ->
        array_get j column = array_get i (snd (nth j table ("", [])))).
Proof.
  intros Hn table'. unfold table'. rewrite (modify_forward table Hn).
  unfold inverted.
  set (entries := map (fun i => (ToString_index i, row_at i table))
                    (seq 0 (getRowCount table))).
  set (cn := map CString (getColumnNames table)).
  assert (Hrow : forall i, i < getRowCount table ->
            getColumn (ToString_index i) (entries ++ [("columnNames", cn)])
            = Some (row_at i table)).
  { intros i Hi. unfold getColumn. rewrite obj_get_app.
    unfold entries.
    rewrite (obj_get_row (fun i => row_at i table))
      by (apply in_seq; lia).
    reflexivity. }
  split; [|split; [|split; [|split]]].
  - unfold getColumnNames, obj_keys, entries.
    rewrite map_app, map_map. reflexivity.
  - apply all_length_getRowCount; [|now destruct entries].
    apply Forall_app. split; [apply rows_as_columns|].
    repeat constructor. simpl. unfold cn, getColumnNames, obj_keys.
    now rewrite !length_map.
  - apply getColumn_last.
    unfold obj_keys, entries. rewrite map_map. simpl.
    intros H. apply in_map_iff in H. destruct H as (i & E & _).
    now apply ToString_index_not_columnNames in E.
  - exact Hrow.
  - intros i j column Hi Hget. rewrite (Hrow i Hi) in Hget.
    injection Hget as <-. apply cell_of_row.
Qed.

(** The table [xy] has three rows and two columns. *)
Lemma modify_transposes_witness :
  ~ In "columnNames" (getColumnNames Samples.xy)
  /\ getColumn "1" (fst (InvertModifier.modify Samples.xy))
     = Some [CNumber 1; CString "a"].
Proof.
  assert (Hn : ~ In "columnNames" (getColumnNames Samples.xy)).
  { simpl. intros [H|[H|[]]]; discriminate. }
  split; [exact Hn|].
  assert (Hi : 1 < getRowCount Samples.xy) by (cbn; lia).
  exact (proj1 (proj2 (proj2 (proj2 (modify_transposes Samples.xy Hn)))) 1 Hi).
Defined.

End InvertLaws.

(* ------------------------------------------------------------------ *)
(** ** Objects: key order under assignment *)

Lemma array_index_inj k k' n :
  array_index k = Some n -> array_index k' = Some n -> k = k'.
Proof.
  unfold array_index. intros H H'.
  destruct (DecimalString.NilEmpty.uint_of_string k) as [d|] eqn:E;
    [|discriminate].
  destruct (DecimalString.NilEmpty.uint_of_string k') as [d'|] eqn:E';
    [|discriminate].
  destruct (Decimal.uint_eq_dec (Decimal.unorm d) d) as [Hd|]; [|discriminate].
  destruct (Decimal.uint_eq_dec (Decimal.unorm d') d') as [Hd'|];
    [|discriminate].
  destruct (N.of_uint d <? 4294967295)%N; [|discriminate].
  destruct (N.of_uint d' <? 4294967295)%N; [|discriminate].
  injection H as H. injection H' as H'.
  assert (Hdd : d = d').
  { rewrite <- Hd, <- Hd'. apply DecimalN.Unsigned.of_inj. congruence. }
  subst d'.
  apply DecimalString.NilEmpty.sus in E, E'. congruence.
Qed.

Section ObjectLaws.
Context {V : Type}.
Implicit Types (o : Obj V) (k : string) (v : V).

Import JSONSpec.

Lemma obj_keys_replace k v o : obj_keys (obj_replace k v o) = obj_keys o.
Proof.
  induction o as [|[k' v'] o IH]; simpl; [reflexivity|].
  destruct (k' =? k)%string; simpl; [reflexivity | now rewrite IH].
Qed.

Lemma obj_keys_insert_index n k v o x :
  In x (obj_keys (obj_insert_index n k v o)) <-> x = k \/ In x (obj_keys o).
Proof.
  induction o as [|[k' v'] o IH]; simpl.
  - intuition congruence.
  - destruct (array_index k') as [n'|]; [destruct (n' <? n)%N|]; simpl;
      rewrite ?IH; intuition congruence.
Qed.

Lemma obj_keys_set k v o x :
  In x (obj_keys (obj_set k v o)) <-> x = k \/ In x (obj_keys o).
Proof.
  unfold obj_set. destruct (obj_has k o) eqn:E.
  - rewrite obj_keys_replace. apply obj_has_true in E.
    split; [now right | intros [->|H]; assumption].
  - destruct (array_index k) as [n|].
    + apply obj_keys_insert_index.
    + unfold obj_keys. rewrite map_app, in_app_iff. simpl. intuition congruence.
Qed.

(** An object whose first key is not an array index has none. *)
Lemma js_ordered_named_first k ks :
  js_ordered (k :: ks) -> array_index k = None ->
  forall k', In k' ks -> array_index k' = None.
Proof.
  intros (_ & Hidx & _) E k' Hin.
  destruct (array_index k') as [n'|] eqn:E'; [|reflexivity].
  destruct (Hidx k' n' Hin E') as (n & En & _). congruence.
Qed.

Lemma js_ordered_insert_index n k v o :
  js_ordered (obj_keys o) -> ~ In k (obj_keys o) ->
  array_index k = Some n ->
  js_ordered (obj_keys (obj_insert_index n k v o)).
Proof.
  intros Hord Hn Ek. induction o as [|[k' v'] o IH]; simpl.
  - repeat split; tauto.
  - simpl in Hord, Hn. destruct Hord as (Hn' & Hidx & Hord).
    assert (Hk : k <> k') by (intros ->; apply Hn; now left).
    assert (Hno : ~ In k (obj_keys o)) by (intros H; apply Hn; now right).
    assert (Hall : js_ordered (k' :: obj_keys o))
      by (repeat split; assumption).
    destruct (array_index k') as [n'|] eqn:Ek'.
    + destruct (N.ltb_spec n' n) as [Hlt|Hge].
      * cbn [obj_keys map fst js_ordered].
        split; [|split; [|now apply IH]].
        -- intros H. apply obj_keys_insert_index in H.
           destruct H as [H|H]; [congruence | contradiction].
        -- intros k'' n'' H E. apply obj_keys_insert_index in H.
           destruct H as [->|H].
           ++ exists n'. split; [exact Ek'|]. congruence.
           ++ destruct (Hidx k'' n'' H E) as (m & Em & Hm).
              injection Em as <-. exists n'. split; [exact Ek' | exact Hm].
      * cbn [obj_keys map fst js_ordered].
        split; [|split; [|exact Hall]].
        -- intros [H|H]; [congruence | contradiction].
        -- intros k'' n'' H E. exists n. split; [exact Ek|].
           destruct H as [<-|H].
           ++ rewrite Ek' in E. injection E as <-.
              destruct (N.eq_dec n n') as [->|Hne]; [|lia].
              elim Hk. now apply (array_index_inj k k' n').
           ++ destruct (Hidx k'' n'' H E) as (m & Em & Hm).
              injection Em as <-. lia.
    + cbn [obj_keys map fst js_ordered].
      split; [|split; [|exact Hall]].
      * intros [H|H]; [congruence | contradiction].
      * intros k'' n'' H E. exfalso. destruct H as [<-|H]; [congruence|].
        assert (Hnone : array_index k'' = None)
          by (now apply (js_ordered_named_first k' (obj_keys o))).
        congruence.
Qed.

Lemma js_ordered_named_last ks k :
  js_ordered ks -> ~ In k ks -> array_index k = None ->
  js_ordered (ks ++ [k]).
Proof.
  intros Hord Hn Ek. induction ks as [|k0 ks IH]; simpl.
  - repeat split; tauto.
  - simpl in Hord. destruct Hord as (Hn0 & Hidx & Hord).
    split; [|split].
    + intros H. apply in_app_or in H. destruct H as [H|[H|[]]].
      * contradiction.
      * subst. apply Hn. now left.
    + intros k' n' H E. apply in_app_or in H. destruct H as [H|[H|[]]].
      * now apply (Hidx k' n').
      * subst. congruence.
    + apply IH; [assumption|]. intros H. apply Hn. now right.
Qed.

(** Assignment keeps the keys in object key order. *)
Lemma js_ordered_set k v o :
  js_ordered (obj_keys o) -> js_ordered (obj_keys (obj_set k v o)).
Proof.
  intros Hord. unfold obj_set. destruct (obj_has k o) eqn:E.
  - now rewrite obj_keys_replace.
  - apply obj_has_false in E. destruct (array_index k) as [n|] eqn:Ek.
    + now apply js_ordered_insert_index.
    + unfold obj_keys. rewrite map_app. simpl.
      now apply js_ordered_named_last.
Qed.

Lemma named_keys_insert_index n k v o :
  array_index k = Some n ->
  named_keys (obj_keys (obj_insert_index n k v o)) = named_keys (obj_keys o).
Proof.
  intros Ek. induction o as [|[k' v'] o IH]; simpl.
  - now rewrite Ek.
  - destruct (array_index k') as [n'|] eqn:Ek';
      [destruct (n' <? n)%N|]; simpl; rewrite ?Ek, ?Ek', ?IH; reflexivity.
Qed.

(** The keys that are not array indices: a new one goes to the end. *)
Lemma named_keys_set k v o :
  named_keys (obj_keys (obj_set k v o))
  = named_keys (obj_keys o)
    ++ (if obj_has k o then []
        else match array_index k with Some _ => [] | None => [k] end).
Proof.
  unfold obj_set. destruct (obj_has k o).
  - rewrite obj_keys_replace. now rewrite List.app_nil_r.
  - destruct (array_index k) as [n|] eqn:Ek.
    + rewrite (named_keys_insert_index n k v o Ek). now rewrite List.app_nil_r.
    + unfold obj_keys, named_keys. rewrite map_app, filter_app. simpl.
      now rewrite Ek.
Qed.

(** Two objects in key order are equal when they hold the same value
    under every key and their keys that are not array indices come in
    the same order. *)
Lemma obj_ext (o1 o2 : Obj V) :
  js_ordered (obj_keys o1) -> js_ordered (obj_keys o2) ->
  (forall k, obj_get k o1 = obj_get k o2) ->
  named_keys (obj_keys o1) = named_keys (obj_keys o2) ->
  o1 = o2.
Proof.
  revert o2. induction o1 as [|[k1 v1] o1 IH]; intros o2 H1 H2 Hget Hnamed.
  - destruct o2 as [|[k2 v2] o2]; [reflexivity|].
    specialize (Hget k2). simpl in Hget. rewrite String.eqb_refl in Hget.
    discriminate.
  - destruct o2 as [|[k2 v2] o2].
    + specialize (Hget k1). simpl in Hget. rewrite String.eqb_refl in Hget.
      discriminate.
    + simpl in H1, H2.
      destruct H1 as (Hn1 & Hidx1 & Hord1), H2 as (Hn2 & Hidx2 & Hord2).
      assert (Hin12 : k1 = k2 \/ In k1 (obj_keys o2)).
      { pose proof (Hget k1) as H. simpl in H. rewrite String.eqb_refl in H.
        destruct (String.eqb_spec k2 k1) as [->|Hne]; [now left | right].
        destruct (in_dec string_dec k1 (obj_keys o2)) as [Hi|Hi];
          [assumption|].
        apply obj_get_None in Hi. congruence. }
      assert (Hin21 : k1 = k2 \/ In k2 (obj_keys o1)).
      { pose proof (Hget k2) as H. simpl in H. rewrite String.eqb_refl in H.
        destruct (String.eqb_spec k1 k2) as [->|Hne]; [now left | right].
        destruct (in_dec string_dec k2 (obj_keys o1)) as [Hi|Hi];
          [assumption|].
        apply obj_get_None in Hi. congruence. }
      assert (Hk : k1 = k2).
      { destruct Hin12 as [E|Hi2]; [exact E|].
        destruct Hin21 as [E|Hi1]; [exact E|].
        destruct (array_index k1) as [n1|] eqn:E1.
        - destruct (Hidx2 k1 n1 Hi2 E1) as (n2 & E2 & Hlt).
          destruct (Hidx1 k2 n2 Hi1 E2) as (n1' & E1' & Hlt').
          injection E1' as <-. lia.
        - destruct (array_index k2) as [n2|] eqn:E2.
          + destruct (Hidx1 k2 n2 Hi1 E2) as (n1' & E1' & _). congruence.
          + simpl in Hnamed. unfold named_keys in Hnamed. simpl in Hnamed.
            rewrite E1, E2 in Hnamed. now injection Hnamed. }
      subst k2.
      assert (Hv : v1 = v2).
      { specialize (Hget k1). simpl in Hget.
        rewrite String.eqb_refl in Hget. now injection Hget. }
      subst v2. f_equal. apply IH; try assumption.
      * intros k. specialize (Hget k). simpl in Hget.
        destruct (String.eqb_spec k1 k) as [E|Hne]; [|exact Hget].
        rewrite <- E. apply obj_get_None in Hn1, Hn2. congruence.
      * unfold named_keys in *. simpl in Hnamed.
        destruct (array_index k1); [exact Hnamed | now injection Hnamed].
Qed.

End ObjectLaws.

(* ------------------------------------------------------------------ *)
(** ** merge: copying options *)

Module MergeLaws.
Import DataJSON JSONSpec.

Lemma JSON_members_ind (P : JSON -> Prop) :
  P JNull -> (forall b, P (JBoolean b)) -> (forall n, P (JNumber n)) ->
  (forall s, P (JString s)) -> (forall items, P (JArray items)) ->
  (forall members,
      Forall (fun kv => P (snd kv)) members -> P (JObject members)) ->
  forall j, P j.
Proof.
  intros Hnull Hbool Hnum Hstr Harr Hobj.
  fix IH 1. intros [ | b | n | s | items | members].
  - exact Hnull.
  - apply Hbool.
  - apply Hnum.
  - apply Hstr.
  - apply Harr.
  - apply Hobj. revert members. fix IHm 1. intros [|[k v] members].
    + constructor.
    + constructor; [apply IH | apply IHm].
Qed.

Lemma normal_members members :
  normal (JObject members)
  <-> js_ordered (map fst members)
      /\ Forall (fun kv => normal (snd kv)) members.
Proof.
  cbn [normal]. split; intros [Hord Hall]; (split; [exact Hord|]).
  - induction members as [|kv members IH]; [constructor|].
    destruct Hall as [Hv Hall]. constructor; [exact Hv|].
    apply IH; [|exact Hall]. now destruct Hord as (_ & _ & Hord).
  - clear Hord. induction Hall as [|kv members Hv Hall IH]; [exact I|].
    split; assumption.
Qed.

Lemma doCopy_fold copy members :
  doCopy copy (JObject members)
  = JObject (fold_left copy_member members (members_of copy)).
Proof.
  assert (H : forall acc,
             doCopy (JObject acc) (JObject members)
             = JObject (fold_left copy_member members acc)).
  { induction members as [|[k v] members IH]; intros acc; [reflexivity|].
    cbn [fold_left]. rewrite <- IH. reflexivity. }
  destruct copy; apply H.
Qed.

Lemma filter_all_true {X : Type} (l : list X) :
  filter (fun _ => true) l = l.
Proof. induction l as [|x l IH]; simpl; [reflexivity | now rewrite IH]. Qed.

Lemma assigned_get copied copied' member :
  obj_get (fst member) copied' = obj_get (fst member) copied ->
  assigned copied' member = assigned copied member.
Proof. unfold assigned. now intros ->. Qed.

Lemma fold_ordered members acc :
  js_ordered (obj_keys acc) ->
  js_ordered (obj_keys (fold_left copy_member members acc)).
Proof.
  revert acc. induction members as [|kv members IH]; intros acc H.
  - exact H.
  - cbn [fold_left]. apply IH. now apply js_ordered_set.
Qed.

Lemma fold_keys members acc k :
  In k (obj_keys (fold_left copy_member members acc))
  <-> In k (obj_keys acc) \/ In k (map fst members).
Proof.
  revert acc. induction members as [|kv members IH]; intros acc.
  - simpl. tauto.
  - cbn [fold_left]. rewrite IH. unfold copy_member.
    rewrite obj_keys_set. simpl. intuition congruence.
Qed.

Lemma fold_get_other members acc k :
  ~ In k (map fst members) ->
  obj_get k (fold_left copy_member members acc) = obj_get k acc.
Proof.
  revert acc. induction members as [|kv members IH]; intros acc Hn.
  - reflexivity.
  - cbn [fold_left]. rewrite IH by (intros H; apply Hn; now right).
    unfold copy_member. apply obj_get_set_other.
    intros E. apply Hn. now left.
Qed.

Lemma fold_get_in members acc member :
  NoDup (map fst members) -> In member members ->
  obj_get (fst member) (fold_left copy_member members acc)
  = Some (assigned acc member).
Proof.
  revert acc. induction members as [|kv members IH]; intros acc Hnd Hin.
  - destruct Hin.
  - cbn [fold_left]. cbn [map] in Hnd. inversion Hnd as [|? ? Hn Hnd']; subst.
    destruct Hin as [->|Hin].
    + rewrite fold_get_other by assumption.
      unfold copy_member. apply obj_get_set_same.
    + rewrite IH by assumption. f_equal. apply assigned_get.
      unfold copy_member. apply obj_get_set_other.
      intros E. apply Hn. rewrite <- E. now apply in_map.
Qed.

Lemma named_keys_In ks k : In k (named_keys ks) -> In k ks.
Proof. unfold named_keys. intros H. now apply filter_In in H. Qed.

(** The keys that are not array indices after the loop: those of before,
    then new ones. *)
Lemma fold_named members acc :
  exists added,
    named_keys (obj_keys (fold_left copy_member members acc))
    = named_keys (obj_keys acc) ++ added
    /\ forall k, In k added -> ~ In k (obj_keys acc).
Proof.
  revert acc. induction members as [|kv members IH]; intros acc.
  - exists []. split; [now rewrite List.app_nil_r | intros k []].
  - cbn [fold_left].
    destruct (IH (copy_member acc kv)) as (added & Heq & Hnew).
    pose proof (named_keys_set (fst kv) (assigned acc kv) acc) as Hset.
    change (obj_set (fst kv) (assigned acc kv) acc)
      with (copy_member acc kv) in Hset.
    rewrite Hset, <- app_assoc in Heq.
    eexists. split; [exact Heq|].
    intros k Hk. apply in_app_or in Hk. destruct Hk as [Hk|Hk].
    + destruct (obj_has (fst kv) acc) eqn:E; [destruct Hk|].
      destruct (array_index (fst kv)); [destruct Hk|].
      destruct Hk as [<-|[]]. now apply obj_has_false.
    + intros H. apply (Hnew k Hk). unfold copy_member.
      apply obj_keys_set. now right.
Qed.

(** With distinct keys in the original, the new keys are those of the
    original that the copy did not have. *)
Lemma fold_named_distinct members acc :
  NoDup (map fst members) ->
  named_keys (obj_keys (fold_left copy_member members acc))
  = named_keys (obj_keys acc)
    ++ filter (fun k => negb (obj_has k acc)) (named_keys (map fst members)).
Proof.
  revert acc. induction members as [|kv members IH]; intros acc Hnd.
  - simpl. now rewrite List.app_nil_r.
  - cbn [fold_left]. cbn [map] in Hnd. inversion Hnd as [|? ? Hn Hnd']; subst.
    rewrite IH by assumption.
    pose proof (named_keys_set (fst kv) (assigned acc kv) acc) as Hset.
    change (obj_set (fst kv) (assigned acc kv) acc)
      with (copy_member acc kv) in Hset.
    rewrite Hset, <- app_assoc. f_equal.
    assert (Hrest : filter (fun k => negb (obj_has k (copy_member acc kv)))
                      (named_keys (map fst members))
                    = filter (fun k => negb (obj_has k acc))
                        (named_keys (map fst members))).
    { apply filter_ext_in. intros k Hk. apply named_keys_In in Hk.
      f_equal. unfold obj_has, copy_member.
      rewrite obj_get_set_other; [reflexivity|].
      intros E. apply Hn. now rewrite <- E. }
    rewrite Hrest. cbn [map].
    change (named_keys (fst kv :: map fst members))
      with (if match array_index (fst kv) with
               | Some _ => false
               | None => true
               end
            then fst kv :: named_keys (map fst members)
            else named_keys (map fst members)).
    destruct (array_index (fst kv)); cbn [filter].
    + now destruct (obj_has (fst kv) acc).
    + now destruct (obj_has (fst kv) acc).
Qed.

Lemma normal_members_of j :
  normal j ->
  js_ordered (obj_keys (members_of j))
  /\ Forall (fun kv => normal (snd kv)) (members_of j).
Proof.
  destruct j; try (intros _; split; [exact I | constructor]).
  intros H. now apply normal_members.
Qed.

Lemma obj_get_normal k (o : Obj JSON) :
  Forall (fun kv => normal (snd kv)) o ->
  normal (match obj_get k o with Some c => c | None => JObject [] end).
Proof.
  intros H. destruct (obj_get k o) as [c|] eqn:E.
  - apply obj_get_In in E. rewrite Forall_forall in H. exact (H _ E).
  - cbn. tauto.
Qed.

(** Copying into a normal value gives a normal value, whatever is
    copied. *)
Lemma normal_doCopy original :
  forall copy, normal copy -> normal (doCopy copy original).
Proof.
  induction original as [ | b | n | s | items | members IH]
    using JSON_members_ind; intros copy Hcopy; try exact I.
  rewrite doCopy_fold. apply normal_members.
  destruct (normal_members_of copy Hcopy) as [Hord Hall].
  split; [now apply fold_ordered|].
  revert Hord Hall. generalize (members_of copy) as acc.
  induction IH as [|kv members Hkv IH IHm]; intros acc Hord Hall.
  - exact Hall.
  - cbn [fold_left]. apply IHm.
    + unfold copy_member. now apply js_ordered_set.
    + unfold copy_member. apply Forall_obj_set; [assumption|].
      unfold assigned. destruct (snd kv) eqn:E; try exact I.
      apply Hkv. now apply obj_get_normal.
Qed.

Lemma obj_get_distinct (o : Obj JSON) k v :
  NoDup (obj_keys o) -> In (k, v) o -> obj_get k o = Some v.
Proof.
  induction o as [|[k' v'] o IH]; intros Hnd Hin; [destruct Hin|].
  cbn [obj_keys map fst] in Hnd. inversion Hnd as [|? ? Hn Hnd']; subst.
  simpl. destruct Hin as [E|Hin].
  - injection E as -> ->. now rewrite String.eqb_refl.
  - destruct (String.eqb_spec k' k) as [->|Hne]; [|now apply IH].
    elim Hn. unfold obj_keys. apply in_map_iff. now exists (k, v).
Qed.

(** Copying a normal value into a value that has no members gives the
    value again. *)
Lemma doCopy_fresh original :
  forall copy, members_of copy = [] -> normal original ->
               doCopy copy original = original.
Proof.
  induction original as [ | b | n | s | items | members IH]
    using JSON_members_ind; intros copy Hcopy Horig; try reflexivity.
  rewrite doCopy_fold, Hcopy. f_equal.
  apply normal_members in Horig. destruct Horig as [Hord Hmem].
  pose proof (js_ordered_NoDup _ Hord) as Hnd.
  apply obj_ext.
  - now apply fold_ordered.
  - exact Hord.
  - intros k.
    destruct (in_dec string_dec k (map fst members)) as [Hin|Hout].
    + apply in_map_iff in Hin. destruct Hin as ([k' v] & <- & Hin).
      rewrite (fold_get_in members [] (k', v) Hnd Hin). cbn [fst].
      rewrite (obj_get_distinct members k' v Hnd Hin). f_equal.
      unfold assigned. cbn [fst snd obj_get].
      destruct v; try reflexivity.
      rewrite Forall_forall in IH, Hmem.
      apply (IH (k', JObject members0) Hin); [reflexivity|].
      exact (Hmem _ Hin).
    + rewrite fold_get_other by assumption.
      symmetry. now apply obj_get_None.
  - rewrite fold_named_distinct by assumption. cbn [obj_keys map named_keys filter app].
    apply filter_all_true.
Qed.

Lemma flat_normal defaults :
  js_ordered (obj_keys defaults) -> flat defaults -> normal (JObject defaults).
Proof.
  intros Hord Hflat. apply normal_members. split; [exact Hord|].
  eapply Forall_impl; [|exact Hflat]. intros [k v] H.
  now destruct v.
Qed.

Lemma flat_get defaults k :
  flat defaults ->
  members_of (match obj_get k defaults with
              | Some c => c
              | None => JObject []
              end) = [].
Proof.
  intros Hflat. destruct (obj_get k defaults) as [c|] eqn:E; [|reflexivity].
  apply obj_get_In in E. unfold flat in Hflat. rewrite Forall_forall in Hflat.
  specialize (Hflat _ E). now destruct c.
Qed.

(** Copying the result of a copy into the defaults it was made from
    gives the result again. *)
Lemma doCopy_settled defaults members :
  js_ordered (obj_keys defaults) -> flat defaults ->
  let result := doCopy (JObject defaults) (JObject members) in
  normal result /\ doCopy (JObject defaults) result = result.
Proof.
  intros Hord Hflat result.
  assert (Hnormal : normal result)
    by (apply normal_doCopy; now apply flat_normal).
  split; [exact Hnormal|].
  unfold result in *. rewrite doCopy_fold in *. cbn [members_of] in *.
  set (copied := fold_left copy_member members defaults) in *.
  rewrite doCopy_fold. cbn [members_of]. f_equal.
  apply normal_members in Hnormal. destruct Hnormal as [Hco Hcn].
  pose proof (js_ordered_NoDup _ Hco) as Hnd.
  apply obj_ext.
  - now apply fold_ordered.
  - exact Hco.
  - intros k.
    destruct (in_dec string_dec k (map fst copied)) as [Hin|Hout].
    + apply in_map_iff in Hin. destruct Hin as ([k' v] & <- & Hin).
      rewrite (fold_get_in copied defaults (k', v) Hnd Hin). cbn [fst].
      rewrite (obj_get_distinct copied k' v Hnd Hin). f_equal.
      unfold assigned. cbn [fst snd].
      destruct v; try reflexivity.
      apply doCopy_fresh; [now apply flat_get|].
      rewrite Forall_forall in Hcn. exact (Hcn _ Hin).
    + rewrite fold_get_other by assumption.
      rewrite (proj2 (obj_get_None k copied) Hout).
      apply obj_get_None. intros H. apply Hout.
      unfold copied. apply fold_keys. now left.
  - rewrite fold_named_distinct by assumption.
    destruct (fold_named members defaults) as (added & Heq & Hnew).
    fold copied in Heq. change (map fst copied) with (obj_keys copied).
    rewrite Heq, filter_app.
    rewrite filter_none, RangeLaws.filter_all; [reflexivity| |].
    + intros k Hk. apply negb_true_iff. apply obj_has_false. now apply Hnew.
    + intros k Hk. apply negb_false_iff. apply obj_has_true.
      now apply named_keys_In.
Qed.

(** The options of an instance made by a constructor: copying them, as
    [toJSON] does, gives them again, and so does merging them over the
    defaults, as the constructor does. *)
Lemma merge_settled defaults members :
  js_ordered (obj_keys defaults) -> flat defaults ->
  let options := merge [JObject defaults; JObject members] in
  merge [options] = options
  /\ merge [JObject defaults; options] = options.
Proof.
  intros Hord Hflat options.
  pose proof (flat_normal defaults Hord Hflat) as Hd.
  assert (Hdef : doCopy (JObject []) (JObject defaults) = JObject defaults)
    by (now apply doCopy_fresh).
  assert (Hopt : options = doCopy (JObject defaults) (JObject members)).
  { unfold options, merge. cbn [fold_left]. now rewrite Hdef. }
  destruct (doCopy_settled defaults members Hord Hflat) as [Hn Hs].
  rewrite <- Hopt in Hn, Hs. split.
  - unfold merge. cbn [fold_left]. now apply doCopy_fresh.
  - unfold merge. cbn [fold_left]. now rewrite Hdef.
Qed.

Lemma defaults_settled defaults members :
  In defaults
    [ChainModifier_defaultOptions; GroupModifier_defaultOptions;
     InvertModifier_defaultOptions; RangeModifier_defaultOptions;
     SeriesPointsModifier_defaultOptions] ->
  let options := merge [defaults; JObject members] in
  merge [defaults; merge [options]] = options.
Proof.
  intros Hin options.
  assert (H : exists ms, defaults = JObject ms
                         /\ js_ordered (obj_keys ms) /\ flat ms).
  { simpl in Hin.
    destruct Hin as [<-|[<-|[<-|[<-|[<-|[]]]]]];
      eexists; (split; [reflexivity|]);
      (split; [apply js_ordered_plain_names; repeat constructor;
               simpl; intuition discriminate
              | repeat constructor]). }
  destruct H as (ms & -> & Hord & Hflat).
  destruct (merge_settled ms members Hord Hflat) as [H1 H2].
  fold options in H1, H2. now rewrite H1.
Qed.

Lemma fromJSON_chain children options :
  fromJSON (ChainJSON "ChainModifier" children options)
  = match collect (map fromJSON children) with
    | Some modifiers => Instance (new_ChainModifier options modifiers)
    | None => TypeError
    end.
Proof. reflexivity. Qed.

Lemma Modifier_children_ind (P : Modifier -> Prop) :
  (forall options modifiers,
      Forall P modifiers -> P (Chain options modifiers)) ->
  (forall options, P (Group options)) ->
  (forall options, P (Invert options)) ->
  (forall options, P (Range options)) ->
  (forall options, P (SeriesPoints options)) ->
  (forall options, P (Sort options)) ->
  forall m, P m.
Proof.
  intros Hchain Hgroup Hinvert Hrange Hpoints Hsort.
  fix IH 1. intros [options modifiers | o | o | o | o | o].
  - apply Hchain. revert modifiers. fix IHm 1. intros [|m modifiers].
    + constructor.
    + constructor; [apply IH | apply IHm].
  - apply Hgroup.
  - apply Hinvert.
  - apply Hrange.
  - apply Hpoints.
  - apply Hsort.
Qed.

(** X21: round trip of the registered kinds.  A group, invert, range or
    series points modifier that a constructor made from an options
    object, and a chain that the constructor made from an options
    object and such modifiers, chains among them, comes back from its
    own class JSON as the same instance, the same options and the same
    modifiers in the same order; so the class JSON of what comes back
    is the class JSON converted. *)
Theorem round_trip_of_registered_kinds (x : Modifier) :
  built x ->
  fromJSON (toJSON x) = Instance x
  /\ (forall x', fromJSON (toJSON x) = Instance x' -> toJSON x' = toJSON x).
Proof.
  intros Hbuilt.
  assert (H : fromJSON (toJSON x) = Instance x).
  { induction x as [options modifiers IH | o | o | o | o | o]
      using Modifier_children_ind.
    - cbn [built] in Hbuilt. destruct Hbuilt as [(members & ->) Hall].
      cbn [toJSON]. rewrite fromJSON_chain.
      assert (Hc : collect (map fromJSON (map toJSON modifiers))
                   = Some modifiers).
      { induction IH as [|m modifiers Hm IH IHm]; [reflexivity|].
        destruct Hall as [Hb Hall]. cbn [map collect].
        rewrite (Hm Hb). now rewrite (IHm Hall). }
      rewrite Hc. unfold new_ChainModifier.
      now rewrite defaults_settled by (simpl; tauto).
    - destruct Hbuilt as (members & ->). cbn [toJSON].
      change (Instance (new_GroupModifier
                (merge [merge [GroupModifier_defaultOptions; JObject members]]))
              = Instance (Group (merge [GroupModifier_defaultOptions;
                                        JObject members]))).
      unfold new_GroupModifier.
      now rewrite defaults_settled by (simpl; tauto).
    - destruct Hbuilt as (members & ->). cbn [toJSON].
      change (Instance (new_InvertModifier
                (merge [merge [InvertModifier_defaultOptions; JObject members]]))
              = Instance (Invert (merge [InvertModifier_defaultOptions;
                                         JObject members]))).
      unfold new_InvertModifier.
      now rewrite defaults_settled by (simpl; tauto).
    - destruct Hbuilt as (members & ->). cbn [toJSON].
      change (Instance (new_RangeModifier
                (merge [merge [RangeModifier_defaultOptions; JObject members]]))
              = Instance (Range (merge [RangeModifier_defaultOptions;
                                        JObject members]))).
      unfold new_RangeModifier.
      now rewrite defaults_settled by (simpl; tauto).
    - destruct Hbuilt as (members & ->). cbn [toJSON].
      change (Instance (new_SeriesPointsModifier
                (merge [merge [SeriesPointsModifier_defaultOptions;
                               JObject members]]))
              = Instance (SeriesPoints
                            (merge [SeriesPointsModifier_defaultOptions;
                                    JObject members]))).
      unfold new_SeriesPointsModifier.
      now rewrite defaults_settled by (simpl; tauto).
    - destruct Hbuilt. }
  split; [exact H|]. intros x' Hx'. rewrite H in Hx'. now injection Hx' as <-.
Qed.

(** A reversing chain of a strict range modifier and an invert
    modifier. *)
Lemma round_trip_of_registered_kinds_witness :
  let x :=
    new_ChainModifier (JObject [("reverse", JBoolean true)])
      [new_RangeModifier (JObject [("strict", JBoolean true)]);
       new_InvertModifier (JObject [])] in
  built x /\ fromJSON (toJSON x) = Instance x.
Proof.
  intros x.
  assert (Hbuilt : built x).
  { split; [now exists [("reverse", JBoolean true)]|].
    split; [now exists [("strict", JBoolean true)]|].
    split; [now exists []|]. exact I. }
  split; [exact Hbuilt|].
  exact (proj1 (round_trip_of_registered_kinds x Hbuilt)).
Defined.

Lemma registered_cases class :
  registered class = true
  <-> class = "ChainModifier" \/ class = "GroupModifier"
      \/ class = "InvertModifier" \/ class = "RangeModifier"
      \/ class = "SeriesPointsModifier".
Proof.
  unfold registered. cbn [existsb]. rewrite !orb_true_iff, !String.eqb_eq.
  intuition discriminate.
Qed.

Lemma ClassJSON_children_ind (P : ClassJSON -> Prop) :
  (forall class options, P (ModifierJSON class options)) ->
  (forall class children options,
      Forall P children -> P (ChainJSON class children options)) ->
  forall json, P json.
Proof.
  intros Hleaf Hchain. fix IH 1. intros [class options | class children options].
  - apply Hleaf.
  - apply Hchain. revert children. fix IHc 1. intros [|c children].
    + constructor.
    + constructor; [apply IH | apply IHc].
Qed.

Lemma unregistered_NoInstance json :
  registered (class_of json) = false -> fromJSON json = NoInstance.
Proof.
  intros Hno. unfold registered in Hno. cbn [existsb] in Hno.
  repeat (apply orb_false_iff in Hno; destruct Hno as [? Hno]).
  destruct json; cbn [fromJSON class_of] in *; now rewrite H, H0, H1, H2, H3.
Qed.

(** The loop stops with the error exactly when one of the conversions
    throws. *)
Lemma collect_None converted :
  collect converted = None <-> In TypeError converted.
Proof.
  induction converted as [|[m| |] rest IH]; cbn [collect In].
  - split; [discriminate | tauto].
  - destruct (collect rest).
    + split; [discriminate|]. intros [H|H]; [discriminate H|].
      now apply IH in H.
    + split; [|reflexivity]. intros _. right. now apply IH.
  - rewrite IH. split; [tauto|]. intros [H|H]; [discriminate H | exact H].
  - split; [now left | reflexivity].
Qed.

(** What the loop collects: the instances, in order. *)
Lemma collect_Some converted modifiers :
  collect converted = Some modifiers ->
  modifiers
  = flat_map (fun c => match c with Instance m => [m] | _ => [] end) converted.
Proof.
  revert modifiers.
  induction converted as [|[m| |] rest IH]; intros modifiers; cbn [collect flat_map].
  - now intros [= <-].
  - destruct (collect rest) as [ms|]; [|discriminate].
    intros [= <-]. cbn [app]. f_equal. now apply IH.
  - intros H. cbn [app]. now apply IH.
  - discriminate.
Qed.

Lemma broken_chain class children options :
  broken (ChainJSON class children options)
  <-> class = "ChainModifier" /\ Exists broken children.
Proof.
  cbn [broken class_of].
  assert (H : (fix any (cs : list ClassJSON) : Prop :=
                 match cs with
                 | [] => False
                 | c :: cs' => broken c \/ any cs'
                 end) children <-> Exists broken children).
  { induction children as [|c children IH].
    - split; [tauto | intros H; inversion H].
    - rewrite Exists_cons. now rewrite IH. }
  now rewrite H.
Qed.

Lemma fromJSON_cases (json : ClassJSON) :
  (fromJSON json = NoInstance <-> registered (class_of json) = false)
  /\ (fromJSON json = TypeError <-> broken json)
  /\ (forall m, fromJSON json = Instance m ->
        registered (class_of json) = true
        /\ class_of (toJSON m) = class_of json).
Proof.
  assert (Hcases :
            forall class,
              (class = "ChainModifier" \/ class = "GroupModifier"
               \/ class = "InvertModifier" \/ class = "RangeModifier"
               \/ class = "SeriesPointsModifier")
              \/ registered class = false).
  { intros class. destruct (registered class) eqn:E; [left|now right].
    now apply registered_cases. }
  induction json as [class options | class children options IH]
    using ClassJSON_children_ind.
  - cbn [class_of broken].
    destruct (Hcases class) as [[->|[->|[->|[->| ->]]]]|Hno];
      try (split; [split; discriminate|];
           split; [split; [discriminate | intros [H _]; discriminate H]|];
           intros m H; injection H as <-; split; reflexivity).
    + split; [split; discriminate|].
      split; [split; [intros _; now split | reflexivity]|].
      intros m H. discriminate H.
    + rewrite (unregistered_NoInstance (ModifierJSON class options) Hno).
      split; [tauto|].
      split; [split; [discriminate|]|intros m H; discriminate H].
      intros [-> _]. discriminate Hno.
  - rewrite broken_chain. cbn [class_of].
    destruct (Hcases class) as [[->|[->|[->|[->| ->]]]]|Hno];
      try (split; [split; discriminate|];
           split; [split; [discriminate | intros [H _]; discriminate H]|];
           intros m H; injection H as <-; split; reflexivity).
    + rewrite fromJSON_chain.
      assert (Hex : In TypeError (map fromJSON children)
                    <-> Exists broken children).
      { rewrite in_map_iff, Exists_exists. rewrite Forall_forall in IH.
        split; intros (c & H1 & H2).
        - exists c. split; [exact H2|]. now apply (IH c H2).
        - exists c. split; [|exact H1]. now apply (IH c H1). }
      destruct (collect (map fromJSON children)) as [ms|] eqn:E.
      * split; [split; discriminate|].
        split.
        -- split; [discriminate|]. intros [_ Hb]. apply Hex in Hb.
           apply collect_None in Hb. congruence.
        -- intros m H. injection H as <-. split; reflexivity.
      * split; [split; discriminate|].
        split; [|intros m H; discriminate H].
        split; [|reflexivity]. intros _. split; [reflexivity|].
        apply Hex. now apply collect_None.
    + rewrite (unregistered_NoInstance (ChainJSON class children options) Hno).
      split; [tauto|].
      split; [split; [discriminate|]|intros m H; discriminate H].
      intros [-> _]. discriminate Hno.
Qed.

(** X22: what the conversion from class JSON yields depends on the class
    name.  It yields nothing exactly for the names other than the five
    under which a class is registered, SortModifier being such a name;
    it throws exactly for a record of the chain's name that lacks its
    modifiers or holds such a record among its modifiers, at any depth;
    and an instance that it yields converts to a record of the same
    class name. *)
Theorem fromJSON_by_class_name (json : ClassJSON) :
  (fromJSON json = NoInstance <-> registered (class_of json) = false)
  /\ (fromJSON json = TypeError <-> broken json)
  /\ (forall m, fromJSON json = Instance m ->
        registered (class_of json) = true
        /\ class_of (toJSON m) = class_of json)
  /\ registered "SortModifier" = false
  /\ fromJSON
       (ChainJSON "ChainModifier"
          [ModifierJSON "InvertModifier" (JObject []);
           ChainJSON "ChainModifier"
             [ModifierJSON "ChainModifier" (JObject [])] (JObject [])]
          (JObject []))
     = TypeError.
Proof.
  destruct (fromJSON_cases json) as (H1 & H2 & H3).
  split; [exact H1|]. split; [exact H2|]. split; [exact H3|].
  split; reflexivity.
Qed.

(** X27: a chain record none of whose modifier records throws comes back
    as a chain that holds, in order, what those records come back as,
    the records of a class that is not registered being passed over: the
    classes of the modifiers of the chain are the registered ones among
    the classes of the records, in the order of the records.  A chain
    record one of whose modifier records throws does not come back. *)
Theorem fromJSON_passes_over_unregistered (children : list ClassJSON)
    (options : JSON) :
  (Forall (fun j => ~ broken j) children ->
   exists modifiers,
     fromJSON (ChainJSON "ChainModifier" children options)
     = Instance (new_ChainModifier options modifiers)
     /\ map (fun m => class_of (toJSON m)) modifiers
        = filter registered (map class_of children)
     /\ List.length modifiers <= List.length children)
  /\ (Exists broken children ->
      fromJSON (ChainJSON "ChainModifier" children options) = TypeError).
Proof.
  split.
  - intros Hall. rewrite fromJSON_chain.
    assert (H : exists modifiers,
               collect (map fromJSON children) = Some modifiers
               /\ map (fun m => class_of (toJSON m)) modifiers
                  = filter registered (map class_of children)
               /\ List.length modifiers <= List.length children).
    { induction Hall as [|j children Hj Hall IH].
      - exists []. repeat split. simpl. lia.
      - destruct IH as (ms & Hc & Hclasses & Hlen).
        cbn [map collect filter List.length].
        destruct (fromJSON_cases j) as (Hnone & Herr & Hinst).
        destruct (fromJSON j) as [m| |] eqn:E.
        + destruct (Hinst m eq_refl) as [Hreg Hclass].
          exists (m :: ms). rewrite Hc, Hreg. cbn [map List.length].
          rewrite Hclass, Hclasses. repeat split. lia.
        + exists ms. rewrite (proj1 Hnone eq_refl).
          repeat split; [exact Hc | exact Hclasses | lia].
        + exfalso. apply Hj. now apply Herr. }
    destruct H as (ms & Hc & Hclasses & Hlen).
    exists ms. rewrite Hc. repeat split; assumption.
  - intros Hex.
    apply (proj2 (fromJSON_cases (ChainJSON "ChainModifier" children options))).
    apply broken_chain. now split.
Qed.

(** A chain record with a sort record between a range record and an
    invert record. *)
Lemma fromJSON_passes_over_unregistered_witness :
  let children :=
    [ModifierJSON "RangeModifier" (JObject []);
     ModifierJSON "SortModifier" (JObject []);
     ModifierJSON "InvertModifier" (JObject [])] in
  Forall (fun j => ~ broken j) children
  /\ exists modifiers,
       fromJSON (ChainJSON "ChainModifier" children (JObject []))
       = Instance (new_ChainModifier (JObject []) modifiers)
       /\ map (fun m => class_of (toJSON m)) modifiers
          = ["RangeModifier"; "InvertModifier"].
Proof.
  intros children.
  assert (Hall : Forall (fun j => ~ broken j) children)
    by (repeat constructor; intros [H _]; discriminate H).
  split; [exact Hall|].
  destruct (proj1 (fromJSON_passes_over_unregistered children (JObject []))
              Hall)
    as (modifiers & Hfrom & Hclasses & _).
  exists modifiers. split; [exact Hfrom | exact Hclasses].
Defined.

End MergeLaws.

(* ------------------------------------------------------------------ *)
(** ** A chain of the sample modifiers *)

(** The sample modifiers invert, sort or leave the table alone; each
    leaves a table whose columns have one length with columns of one
    length.  So does the reversing chain of the modifiers [1], [0], [2]
    on the table [xy]. *)
Lemma modify_keeps_invariant_witness :
  let chain := ChainModifier.new nat (Some true) [1; 0; 2] in
  let P := fun (table : DataTable.t) (_ : unit) => DataTable.uniform table in
  (forall m t s, P t s ->
     P (fst (Samples.modify_of m t s)) (snd (Samples.modify_of m t s)))
  /\ P Samples.xy tt
  /\ DataTable.uniform
       (ChainModifier.table_after nat unit
          (ChainModifier.modify nat unit Samples.modify_of chain
             Samples.xy tt)).
Proof.
  intros chain P.
  assert (Hstep : forall m t s, P t s ->
            P (fst (Samples.modify_of m t s))
              (snd (Samples.modify_of m t s))).
  { intros m t s H. unfold P in *. destruct m as [|[|m]]; cbn [Samples.modify_of fst].
    - apply InvertLaws.invert_uniform.
    - now apply SortLaws.sort_uniform.
    - exact H. }
  split; [exact Hstep|]. split; [exact SampleFacts.uniform_xy|].
  exact (modify_keeps_invariant nat unit Samples.modify_of P chain
           Samples.xy tt Hstep SampleFacts.uniform_xy).
Defined.
